(** * Analizador demográfico (cajamarca5.py): data loader and view builders

    A shallow embedding of the data path of the dashboard: the loader that
    derives the quinquennial [AgeGroup] column and the three view builders
    (population pyramid, temporal trend, year-to-year comparison).

    Conventions of the embedding
    - a DataFrame is a list of rows together with the categories of its
      categorical [AgeGroup] column; a missing value (NaN) is [None];
    - integer columns are int64: sums, differences and negations wrap
      around modulo 2^64 ([wrap64]);
    - float64 values are [spec_float]s of the Standard Library, the IEEE 754
      binary64 specification, with round-to-nearest-even operations; a
      value that is an int64 in one frame and a float64 in another is a
      [number];
    - DataFrame objects live in a store indexed by locations, so that the
      in-place column assignment of the comparison builder is an explicit
      write to one object. *)

From Stdlib Require Import ZArith Lia String SpecFloat.
From stdpp Require Import base option list strings gmap sorting.

Local Open Scope Z_scope.
Local Open Scope string_scope.
Local Open Scope list_scope.

(** ** Machine arithmetic *)

Module Int64.

Definition modulus : Z := 2 ^ 64.
Definition half_modulus : Z := 2 ^ 63.

(** Two's complement wrap-around of an integer result. *)
Definition wrap64 (z : Z) : Z :=
  (z + half_modulus) mod modulus - half_modulus.

Definition in_range (z : Z) : Prop := - half_modulus <= z < half_modulus.

Definition add (a b : Z) : Z := wrap64 (a + b).
Definition sub (a b : Z) : Z := wrap64 (a - b).
Definition neg (a : Z) : Z := wrap64 (- a).

(** [Series.sum()] of an int64 column. *)
Definition sum (vs : list Z) : Z := fold_left add vs 0.

End Int64.

Module Float64.

Definition prec : Z := 53.
Definition emax : Z := 1024.

(** Conversion of an int64 to the nearest binary64. *)
Definition of_int (z : Z) : spec_float := binary_normalize prec emax z 0 false.

Definition div (x y : spec_float) : spec_float := SFdiv prec emax x y.
Definition mul (x y : spec_float) : spec_float := SFmul prec emax x y.

Definition is_finite (x : spec_float) : bool :=
  match x with
  | S754_zero _ | S754_finite _ _ _ => true
  | S754_infinity _ | S754_nan => false
  end.

(** [represents x n d]: the float [x] is exactly the rational [n / d]. *)
Definition represents (x : spec_float) (n d : Z) : Prop :=
  match x with
  | S754_zero _ => n = 0
  | S754_finite s m e =>
      let sm := if s then Z.neg m else Z.pos m in
      if (0 <=? e)%Z then sm * 2 ^ e * d = n else sm * d = n * 2 ^ (- e)
  | S754_infinity _ | S754_nan => False
  end.

(** The integer a float holds, when it is finite and holds one. *)
Definition to_Z (x : spec_float) : option Z :=
  match x with
  | S754_zero _ => Some 0
  | S754_finite s m e =>
      let sm := if s then Z.neg m else Z.pos m in
      if (0 <=? e)%Z then Some (sm * 2 ^ e)
      else if (Z.pos m mod 2 ^ (- e) =? 0)%Z then Some (sm / 2 ^ (- e))
      else None
  | S754_infinity _ | S754_nan => None
  end.

(** [within x n d k]: the float [x] is a rational whose distance to
    [n / d], for a positive [d], is at most [|n / d| / 2^k]. *)
Definition within (x : spec_float) (n d k : Z) : Prop :=
  ∃ p q, 0 < q ∧ represents x p q
         ∧ Z.abs (p * d - n * q) * 2 ^ k <= Z.abs n * q.

End Float64.

(** A number of a frame or of a figure: an int64 or a float64. *)
Inductive number :=
  | Int (v : Z)
  | Float (x : spec_float).

(** The count a number holds. *)
Definition count (n : number) : option Z :=
  match n with
  | Int v => Some v
  | Float x => Float64.to_Z x
  end.

(** A missing value. *)
Definition is_gap (n : number) : bool :=
  match n with
  | Float S754_nan => true
  | _ => false
  end.

(** ** Data model *)

(** One line of the input file, with the columns under their canonical
    names (the loader's [rename]). *)
Record csv_row := CsvRow {
  Location : string;
  Time : Z;
  AgeRange : string;
  AgeStart : Z;
  AgeEnd : Z;
  Sex : string;
  Value : Z
}.

(** A loaded record: the input columns and the derived [AgeGroup]. *)
Record row := Row {
  rec : csv_row;
  AgeGroup : option string
}.

Definition age_groups : list string :=
  [ "0-4"; "5-9"; "10-14"; "15-19"; "20-24"; "25-29";
    "30-34"; "35-39"; "40-44"; "45-49"; "50-54"; "55-59";
    "60-64"; "65-69"; "70-74"; "75-79"; "80 y más" ].

Definition age_mapping : gmap Z string :=
  list_to_map
    [ (4, "0-4"); (9, "5-9"); (14, "10-14"); (19, "15-19"); (24, "20-24");
      (29, "25-29"); (34, "30-34"); (39, "35-39"); (44, "40-44");
      (49, "45-49"); (54, "50-54"); (59, "55-59"); (64, "60-64");
      (69, "65-69"); (74, "70-74"); (79, "75-79"); (120, "80 y más") ].

(** [pd.Categorical(values, categories=...)]: a value that is not one of
    the categories becomes missing. *)
Definition categorical (categories : list string) (v : option string)
  : option string :=
  v ≫= λ l, if decide (l ∈ categories) then Some l else None.

(** A DataFrame of population records. *)
Record dataframe := DataFrame {
  categories : list string;
  rows : list row
}.

(** [load_data], given the parsed contents of the input file. *)
Definition load_data (csv : list csv_row) : dataframe :=
  {| categories := age_groups;
     rows := map (λ r, {| rec := r;
                          AgeGroup := categorical age_groups
                                        (age_mapping !! AgeEnd r) |}) csv |}.

(** The mapping table as the specification lists it. *)
Definition spec_mapping_table : list (Z * string) :=
  [ (4, "0-4"); (9, "5-9"); (14, "10-14"); (19, "15-19"); (24, "20-24");
    (29, "25-29"); (34, "30-34"); (39, "35-39"); (44, "40-44");
    (49, "45-49"); (54, "50-54"); (59, "55-59"); (64, "60-64");
    (69, "65-69"); (74, "70-74"); (79, "75-79"); (120, "80 y más") ].

Definition mapping_keys : list Z :=
  [4; 9; 14; 19; 24; 29; 34; 39; 44; 49; 54; 59; 64; 69; 74; 79; 120].

(** The label the table lists for a key, [None] for any other value. *)
Fixpoint table_label (table : list (Z * string)) (age_end : Z)
  : option string :=
  match table with
  | [] => None
  | (k, l) :: table' =>
      if (age_end =? k)%Z then Some l else table_label table' age_end
  end.

Definition spec_age_group : Z → option string := table_label spec_mapping_table.


(** ** Objects and the store *)

(** The kinds of DataFrame the program builds. *)
Inductive frame :=
  | Records (d : dataframe)
      (** population records: the loaded table and its row selections *)
  | Totals (t : list (string * Z))
      (** columns AgeGroup, Value: a grouped sum after [reset_index] *)
  | Merged (year1 year2 : Z) (m : list (string * Z * Z))
           (change : option (list spec_float))
      (** columns AgeGroup, Value_<year1>, Value_<year2> and, once it has
          been assigned, Change *)
  | Wide (index : list Z) (columns : list (string * list number)).
      (** one line per year, one column per age group: an unstacked sum *)

Definition loc := nat.
Definition store := list frame.

(** Computations over the store that may raise. *)
Definition M (A : Type) : Type := store → option (A * store).

Global Instance M_ret : MRet M := λ A a s, Some (a, s).
Global Instance M_bind : MBind M := λ A B f m s,
  match m s with
  | Some (a, s') => f a s'
  | None => None
  end.

Definition raise {A} : M A := λ _, None.

(** A new object. *)
Definition alloc (f : frame) : M loc := λ s, Some (length s, s ++ [f]).

Definition read (l : loc) : M frame := λ s,
  match s !! l with
  | Some f => Some (f, s)
  | None => None
  end.

(** In-place update of an object. *)
Definition write (l : loc) (f : frame) : M unit := λ s,
  match s !! l with
  | Some _ => Some (tt, <[l := f]> s)
  | None => None
  end.

Definition read_records (l : loc) : M dataframe :=
  f ← read l; match f with Records d => mret d | _ => raise end.

Definition read_totals (l : loc) : M (list (string * Z)) :=
  f ← read l; match f with Totals t => mret t | _ => raise end.

(** ** The pandas operations the builders use *)

(** Boolean-mask selection [d[mask]]. *)
Definition select (P : row → Prop) `{∀ r, Decision (P r)} (d : dataframe)
  : dataframe :=
  {| categories := categories d; rows := filter P (rows d) |}.

(** The [Value]s of the rows of group [g]. *)
Definition group_values (rs : list row) (g : string) : list Z :=
  map (λ r, Value (rec r)) (filter (λ r, AgeGroup r = Some g) rs).

(** [d.groupby('AgeGroup', observed=True)['Value'].sum().reset_index()]:
    one line per category that has a row, in the order of the categories;
    rows whose [AgeGroup] is missing belong to no group. *)
Definition groupby_sum (d : dataframe) : list (string * Z) :=
  omap (λ g, match group_values (rows d) g with
             | [] => None
             | vs => Some (g, Int64.sum vs)
             end) (categories d).

(** [pd.merge(l, r, on='AgeGroup')]: inner join, in the order of the left
    keys. *)
Definition inner_merge (l r : list (string * Z)) : list (string * Z * Z) :=
  l ≫= λ '(g, v1), (λ '(_, v2), (g, v1, v2)) <$> filter (λ p, p.1 = g) r.

(** [(v2 - v1) / v1 * 100] on int64 columns: an int64 difference, a true
    division in float64, a float64 product. *)
Definition hundred : spec_float := Float64.of_int 100.

Definition pct_change (v1 v2 : Z) : spec_float :=
  Float64.mul (Float64.div (Float64.of_int (Int64.sub v2 v1)) (Float64.of_int v1))
              hundred.

(** A row takes part in a grouping when its [AgeGroup] is not missing. *)
Definition grouped (cats : list string) (r : row) : bool :=
  match AgeGroup r with
  | Some g => bool_decide (g ∈ cats)
  | None => false
  end.

(** Years that have a row with an age group, ascending. *)
Definition trend_index (d : dataframe) : list Z :=
  merge_sort Z.le
    (remove_dups (map (λ r, Time (rec r))
                      (filter (λ r, grouped (categories d) r) (rows d)))).

(** The cell of year [y] and group [g]; missing when no row has both. *)
Definition trend_cell (d : dataframe) (y : Z) (g : string) : option Z :=
  match group_values (filter (λ r, Time (rec r) = y) (rows d)) g with
  | [] => None
  | vs => Some (Int64.sum vs)
  end.

(** The columns of the pivot table, each with its name: the categories that
    have a row, each with its cell for every year of the index. *)
Definition trend_cells (d : dataframe) : list (string * list (option Z)) :=
  (λ g, (g, (λ y, trend_cell d y g) <$> trend_index d))
    <$> filter (λ g, group_values (rows d) g ≠ []) (categories d).

(** No cell of the pivot table is missing. *)
Definition complete (cells : list (string * list (option Z))) : bool :=
  forallb (λ col, forallb (λ c, bool_decide (is_Some c)) col.2) cells.

(** A cell of the unstacked frame. The frame keeps the int64 sums when no
    cell is missing; when one is, the whole frame is float64: every sum is
    converted and the missing cells are NaN. *)
Definition unstack_cell (all_present : bool) (c : option Z) : number :=
  match c with
  | Some v => if all_present then Int v else Float (Float64.of_int v)
  | None => Float S754_nan
  end.

Definition unstack_column (all_present : bool)
    (col : string * list (option Z)) : string * list number :=
  (col.1, unstack_cell all_present <$> col.2).

(** [d.groupby(['Time', 'AgeGroup'], observed=True)['Value'].sum().unstack()]:
    the index and the columns, each column with its name. *)
Definition groupby_sum_unstack (d : dataframe)
  : list Z * list (string * list number) :=
  let cells := trend_cells d in
  (trend_index d, unstack_column (complete cells) <$> cells).

(** *** The operations on objects: each returns a new DataFrame *)

(** [data[data['Time'] == year]] *)
Definition select_time (data : loc) (year : Z) : M loc :=
  d ← read_records data;
  alloc (Records (select (λ r, Time (rec r) = year) d)).

(** [d[d['Sex'] == sex]] *)
Definition select_sex (sex : string) (l : loc) : M loc :=
  d ← read_records l;
  alloc (Records (select (λ r, Sex (rec r) = sex) d)).

Definition groupby_agegroup_sum (l : loc) : M loc :=
  d ← read_records l;
  alloc (Totals (groupby_sum d)).

Definition groupby_time_agegroup_sum_unstack (l : loc) : M loc :=
  d ← read_records l;
  let '(index, columns) := groupby_sum_unstack d in
  alloc (Wide index columns).

(** [pd.merge(l, r, on='AgeGroup', suffixes=(f'_{year1}', f'_{year2}'))] *)
Definition merge_on_agegroup (l r : loc) (year1 year2 : Z) : M loc :=
  tl ← read_totals l;
  tr ← read_totals r;
  alloc (Merged year1 year2 (inner_merge tl tr) None).

(** [d[f'Value_{year}']] on a merged frame whose value columns carry the
    suffixes [y1] and [y2]. The result is a column only when exactly one
    column has that name: no column has it when [year] is neither suffix,
    and both have it when the two suffixes are the same. *)
Definition value_column (y1 y2 : Z) (m : list (string * Z * Z)) (year : Z)
  : option (list Z) :=
  if decide (y1 = y2) then None
  else if decide (year = y1) then Some ((λ '(_, v1, _), v1) <$> m)
  else if decide (year = y2) then Some ((λ '(_, _, v2), v2) <$> m)
  else None.

(** [d['Change'] = (d[f'Value_{year2}'] - d[f'Value_{year1}'])
                    / d[f'Value_{year1}'] * 100]: assigns a column of the
    object [d] itself; it raises when an operand is not a column. *)
Definition assign_change (l : loc) (year1 year2 : Z) : M unit :=
  f ← read l;
  match f with
  | Merged y1 y2 m _ =>
      match value_column y1 y2 m year1, value_column y1 y2 m year2 with
      | Some c1, Some c2 =>
          write l (Merged y1 y2 m (Some (zip_with pct_change c1 c2)))
      | _, _ => raise
      end
  | _ => raise
  end.

(** ** Figures *)

(** A [go.Bar] trace of the pyramid. The figure keeps [x] as the int64
    array it is given and stores [text], a numeric array where strings are
    expected, as a float64 array. *)
Record bar_trace := BarTrace {
  bar_name : string;
  bar_y : list string;
  bar_x : list Z;
  bar_text : list spec_float
}.

Record pyramid := Pyramid {
  hombres : bar_trace;
  mujeres : bar_trace
}.

(** An area series of the trend chart: one per column. *)
Record area_trace := AreaTrace {
  area_name : string;
  area_x : list Z;
  area_y : list number
}.

Record comparison := Comparison {
  cmp_x : list string;
  cmp_y : list spec_float;
  categoryarray : list string
}.

(** ** The view builders *)

Definition generate_population_pyramid (data : loc) (year : Z) : M pyramid :=
  df_year ← select_time data year;
  df_male ← select_sex "Hombre" df_year ≫= groupby_agegroup_sum;
  df_female ← select_sex "Mujer" df_year ≫= groupby_agegroup_sum;
  male ← read_totals df_male;
  female ← read_totals df_female;
  mret {| hombres := {| bar_name := "Hombres";
                        bar_y := male.*1;
                        bar_x := male.*2;
                        bar_text := Float64.of_int <$> male.*2 |};
          mujeres := {| bar_name := "Mujeres";
                        bar_y := female.*1;
                        bar_x := Int64.neg <$> female.*2;
                        bar_text := Float64.of_int <$> female.*2 |} |}.

(** [px.area(df_trend, x=df_trend.index, y=df_trend.columns)]: one series
    per column. plotly express takes an argument for a list of columns of
    the frame when every element of it names one, and raises when both [x]
    and [y] are such lists. The column labels always are one; the index, a
    list of years, is one only when it is empty, which is when no row of
    the table has an age group. *)
Definition px_area (index : list Z) (columns : list (string * list number))
  : M (list area_trace) :=
  if decide (index = []) then raise
  else mret ((λ '(g, ys), {| area_name := g; area_x := index; area_y := ys |})
               <$> columns).

Definition generate_population_trend (data : loc) : M (list area_trace) :=
  df_trend ← groupby_time_agegroup_sum_unstack data;
  f ← read df_trend;
  match f with
  | Wide index columns => px_area index columns
  | _ => raise
  end.

(** [df] is the module-level table, which the builder reads for the
    categories of the axis; [data] is its argument. *)
Definition generate_comparison_chart (df : loc) (data : loc) (year1 year2 : Z)
  : M comparison :=
  df_year1 ← select_time data year1 ≫= groupby_agegroup_sum;
  df_year2 ← select_time data year2 ≫= groupby_agegroup_sum;
  df_compare ← merge_on_agegroup df_year1 df_year2 year1 year2;
  assign_change df_compare year1 year2;;
  f ← read df_compare;
  d ← read_records df;
  match f with
  | Merged _ _ m (Some change) =>
      mret {| cmp_x := (λ '(g, _, _), g) <$> m;
              cmp_y := change;
              categoryarray := categories d |}
  | _ => raise
  end.

(** ** Reference quantities of the specification *)

Definition zsum (l : list Z) : Z := foldr Z.add 0 l.

(** Sum of [Value] over the rows that satisfy [P], as an integer. *)
Definition total (P : csv_row → Prop) `{∀ r, Decision (P r)}
    (csv : list csv_row) : Z :=
  zsum (Value <$> filter P csv).

(** A record as the specification describes it after loading. *)
Definition loaded (r : csv_row) : row :=
  {| rec := r; AgeGroup := spec_age_group (AgeEnd r) |}.

(** The cell of year [y] and age group [g]: the rows the specification sums
    for the aggregate of [g] in year [y]. *)
Definition in_cell (y : Z) (g : string) (r : csv_row) : Prop :=
  Time r = y ∧ spec_age_group (AgeEnd r) = Some g.

Global Instance in_cell_dec y g r : Decision (in_cell y g r).
Proof. unfold in_cell. apply _. Defined.

(** [V csv y g]: total of age group [g] in year [y], both sexes. *)
Definition V (csv : list csv_row) (y : Z) (g : string) : Z :=
  total (in_cell y g) csv.

(** Age group [g] has an aggregate in year [y]. *)
Definition has_aggregate (csv : list csv_row) (y : Z) (g : string) : Prop :=
  ∃ r, r ∈ csv ∧ in_cell y g r.

(** Every [AgeEnd] of the file is a key of the mapping table. *)
Definition all_mapped (csv : list csv_row) : Prop :=
  Forall (λ r, AgeEnd r ∈ mapping_keys) csv.

(** The counts are non-negative and small enough for every sum to be exact
    in int64 and in float64. *)
Definition counts_ok (csv : list csv_row) : Prop :=
  Forall (λ r, 0 <= Value r) csv ∧ zsum (Value <$> csv) < 2 ^ 53.

(** ** Named values of the builders and of the statements *)

(** The row selections of the builders: [d[d['Time'] == year]] and
    [d[d['Sex'] == sex]]. *)
Definition year_rows (d : dataframe) (year : Z) : dataframe :=
  select (λ r, Time (rec r) = year) d.

Definition sex_rows (d : dataframe) (sex : string) : dataframe :=
  select (λ r, Sex (rec r) = sex) d.

(** The lines of [df_compare]. *)
Definition compare_rows (d : dataframe) (year1 year2 : Z)
  : list (string * Z * Z) :=
  inner_merge (groupby_sum (year_rows d year1)) (groupby_sum (year_rows d year2)).

(** The rows the pyramid of [year] sums for one sex and one age group. *)
Definition in_bar (year : Z) (sex g : string) (r : csv_row) : Prop :=
  (Time r = year ∧ Sex r = sex) ∧ spec_age_group (AgeEnd r) = Some g.

Global Instance in_bar_dec year sex g r : Decision (in_bar year sex g r).
Proof. unfold in_bar. apply _. Defined.

(** Reading a series at a year: the number of the first point of that
    year; nothing at a gap and at a year that is not on the axis. *)
Fixpoint point_at (y : Z) (points : list (Z * number)) : option number :=
  match points with
  | [] => None
  | (x, v) :: points' =>
      if decide (x = y) then (if is_gap v then None else Some v)
      else point_at y points'
  end.

(** The count a series shows at a year, a gap counting for nothing. *)
Definition value_at (t : area_trace) (y : Z) : Z :=
  default 0 (point_at y (zip (area_x t) (area_y t)) ≫= count).

(** The categories of a category axis that several traces share, in the
    default order of plotly ([categoryorder: 'trace']): every label at its
    first occurrence in the data, trace after trace. *)
Fixpoint first_occurrences (labels : list string) : list string :=
  match labels with
  | [] => []
  | g :: labels' => g :: filter (λ g', g' ≠ g) (first_occurrences labels')
  end.

(** The vertical axis of the pyramid: its layout sets no category order. *)
Definition pyramid_yaxis (p : pyramid) : list string :=
  first_occurrences (bar_y (hombres p) ++ bar_y (mujeres p)).

(** Some row of the table has an age group: the pivot table of the trend
    has a line and a column. *)
Definition has_grouped_row (d : dataframe) : Prop :=
  ∃ r g, r ∈ rows d ∧ g ∈ categories d ∧ AgeGroup r = Some g.

(** A builder call leaves every object of the store as it was. *)
Definition preserves (s s' : store) : Prop :=
  ∀ l f, s !! l = Some f → s' !! l = Some f.

(** Two tables are indistinguishable for the builders when, under every
    selection of rows, each age group has the same values up to their order
    and the rows that have a group have the same years. *)
Definition same_groups (d d' : dataframe) : Prop :=
  categories d = categories d'
  ∧ ∀ (P : row → Prop) (HP : ∀ r, Decision (P r)),
      (∀ g, group_values (filter P (rows d)) g
            ≡ₚ group_values (filter P (rows d')) g)
      ∧ (λ r, Time (rec r)) <$> filter (λ r, grouped (categories d) r)
                                      (filter P (rows d))
        ≡ₚ (λ r, Time (rec r)) <$> filter (λ r, grouped (categories d) r)
                                         (filter P (rows d')).

(** ** The page *)

(** [years = sorted(df['Time'].unique())] *)
Definition years (d : dataframe) : list Z :=
  merge_sort Z.le (remove_dups ((λ r, Time (rec r)) <$> rows d)).

(** The defaults of the sidebar: the year of the pyramid is the option of
    index [len(years) - 1], the range of the comparison is
    [(years[0], years[-1])]. Indexing an empty list raises. *)
Definition sidebar_defaults (ys : list Z) : option (Z * (Z * Z)) :=
  selected_year ← ys !! (length ys - 1)%nat;
  first ← ys !! 0%nat;
  final ← last ys;
  Some (selected_year, (first, final)).

(** The three metric cards. *)
Record metrics := Metrics {
  total_pop : Z;
  male_pop : Z;
  female_pop : Z
}.

(** [d[mask]['Value'].sum()] *)
Definition value_sum (P : row → Prop) `{∀ r, Decision (P r)} (d : dataframe)
  : Z :=
  Int64.sum ((λ r, Value (rec r)) <$> rows (select P d)).

Definition main_metrics (df : loc) (selected_year : Z) : M metrics :=
  d ← read_records df;
  mret {| total_pop := value_sum (λ r, Time (rec r) = selected_year) d;
          male_pop := value_sum (λ r, Time (rec r) = selected_year
                                      ∧ Sex (rec r) = "Hombre") d;
          female_pop := value_sum (λ r, Time (rec r) = selected_year
                                        ∧ Sex (rec r) = "Mujer") d |}.

(** What the third tab shows. *)
Inductive tab3_content :=
  | Warning (message : string)
  | Chart (c : comparison).

Definition comparison_tab (df : loc) (year1 year2 : Z) : M tab3_content :=
  if decide (year1 = year2)
  then mret (Warning "Seleccione dos años diferentes para comparar")
  else c ← generate_comparison_chart df df year1 year2; mret (Chart c).

(** The order of [sort_values(['AgeStart', 'Sex'])]: by [AgeStart], then by
    [Sex], strings being compared character by character. *)
Definition detail_le (r1 r2 : row) : Prop :=
  AgeStart (rec r1) < AgeStart (rec r2)
  ∨ (AgeStart (rec r1) = AgeStart (rec r2)
     ∧ String.leb (Sex (rec r1)) (Sex (rec r2)) = true).

Global Instance detail_le_dec r1 r2 : Decision (detail_le r1 r2).
Proof. unfold detail_le. apply _. Defined.

(** A sort on several columns is stable: rows with the same key keep
    their order. *)
Fixpoint insert_row (r : row) (sorted : list row) : list row :=
  match sorted with
  | [] => [r]
  | r' :: sorted' =>
      if decide (detail_le r r') then r :: r' :: sorted'
      else r' :: insert_row r sorted'
  end.

Definition sort_values (rs : list row) : list row := foldr insert_row [] rs.

(** [df[df['Time'] == selected_year].sort_values(['AgeStart', 'Sex'])] *)
Definition detail_table (df : loc) (selected_year : Z) : M (list row) :=
  d ← read_records df;
  mret (sort_values (rows (select (λ r, Time (rec r) = selected_year) d))).

Record page := Page {
  cards : metrics;
  tab1 : pyramid;
  tab2 : list area_trace;
  tab3 : tab3_content;
  details : list row
}.

(** The page for a selection of the sidebar, in the order of the script:
    the metric cards, the three tabs, the detail table. *)
Definition render (df : loc) (selected_year year1 year2 : Z) : M page :=
  m ← main_metrics df selected_year;
  p ← generate_population_pyramid df selected_year;
  t ← generate_population_trend df;
  c ← comparison_tab df year1 year2;
  dt ← detail_table df selected_year;
  mret {| cards := m; tab1 := p; tab2 := t; tab3 := c; details := dt |}.

(** The first run of the script on the contents of the input file: the
    table is loaded and the page is rendered for the defaults of the
    sidebar. *)
Definition script (csv : list csv_row) : option page :=
  let d := load_data csv in
  '(selected_year, (year1, year2)) ← sidebar_defaults (years d);
  fst <$> render 0%nat selected_year year1 year2 [Records d].

(** The key of a row in the detail table. *)
Definition detail_key (r : row) : Z * string := (AgeStart (rec r), Sex (rec r)).

(** The position of a label among the categories. *)
Definition position (cats : list string) (g : string) : option nat :=
  fst <$> list_find (λ g', g' = g) cats.

(** The sign of a float64: [Some true] when negative, [None] for NaN. *)
Definition sign (x : spec_float) : option bool :=
  match x with
  | S754_zero s | S754_infinity s | S754_finite s _ _ => Some s
  | S754_nan => None
  end.

(** The parts of the page as values of the table. *)
Definition metrics_of (d : dataframe) (year : Z) : metrics :=
  {| total_pop := value_sum (λ r, Time (rec r) = year) d;
     male_pop := value_sum (λ r, Time (rec r) = year
                                 ∧ Sex (rec r) = "Hombre") d;
     female_pop := value_sum (λ r, Time (rec r) = year
                                   ∧ Sex (rec r) = "Mujer") d |}.

Definition pyramid_of (d : dataframe) (year : Z) : pyramid :=
  let male := groupby_sum (sex_rows (year_rows d year) "Hombre") in
  let female := groupby_sum (sex_rows (year_rows d year) "Mujer") in
  {| hombres := {| bar_name := "Hombres"; bar_y := male.*1;
                   bar_x := male.*2;
                   bar_text := Float64.of_int <$> male.*2 |};
     mujeres := {| bar_name := "Mujeres"; bar_y := female.*1;
                   bar_x := Int64.neg <$> female.*2;
                   bar_text := Float64.of_int <$> female.*2 |} |}.

(** The series of the trend for one age group. *)
Definition trend_series (d : dataframe) (g : string) : area_trace :=
  {| area_name := g; area_x := trend_index d;
     area_y := (λ y, unstack_cell (complete (trend_cells d)) (trend_cell d y g))
                 <$> trend_index d |}.

Definition trend_of (d : dataframe) : list area_trace :=
  (λ '(g, ys), {| area_name := g; area_x := trend_index d; area_y := ys |})
    <$> (groupby_sum_unstack d).2.

Definition comparison_of (d : dataframe) (year1 year2 : Z) : comparison :=
  let m := compare_rows d year1 year2 in
  {| cmp_x := (λ '(g, _, _), g) <$> m;
     cmp_y := (λ '(_, v1, v2), pct_change v1 v2) <$> m;
     categoryarray := categories d |}.

Definition tab3_of (d : dataframe) (year1 year2 : Z) : tab3_content :=
  if decide (year1 = year2)
  then Warning "Seleccione dos años diferentes para comparar"
  else Chart (comparison_of d year1 year2).

Definition page_of (d : dataframe) (selected_year year1 year2 : Z) : page :=
  {| cards := metrics_of d selected_year;
     tab1 := pyramid_of d selected_year;
     tab2 := trend_of d;
     tab3 := tab3_of d year1 year2;
     details := sort_values (rows (year_rows d selected_year)) |}.

(** ** Tables for the examples *)

Definition record (year age_end : Z) (sex : string) (value : Z) : csv_row :=
  {| Location := "Cajamarca"; Time := year; AgeRange := "";
     AgeStart := age_end - 4; AgeEnd := age_end; Sex := sex; Value := value |}.

Definition small_census : list csv_row :=
  [ record 1981 4 "Hombre" 3; record 1981 4 "Mujer" 5;
    record 2017 4 "Hombre" 4; record 2017 9 "Mujer" 6 ].

(** All 17 age groups in 1981 and in 2017, with the same total [v1] for
    every group in 1981 and [v2] in 2017. *)
Definition two_censuses (v1 v2 : Z) : list csv_row :=
  mapping_keys ≫= λ k, [record 1981 k "Hombre" v1; record 2017 k "Hombre" v2].

(** * Properties *)

(** ** int64 arithmetic *)

Section int64_facts.
Import Int64.

Lemma wrap64_in_range z : in_range z → wrap64 z = z.
Proof.
  unfold in_range, wrap64, modulus, half_modulus. intros Hz.
  rewrite Z.mod_small; lia.
Qed.

Lemma wrap64_add_l a b : wrap64 (wrap64 a + b) = wrap64 (a + b).
Proof.
  unfold wrap64. f_equal.
  replace ((a + half_modulus) mod modulus - half_modulus + b + half_modulus)
    with ((a + half_modulus) mod modulus + b) by lia.
  rewrite Zplus_mod_idemp_l. f_equal. lia.
Qed.

Lemma fold_add_wrap vs a :
  fold_left add vs (wrap64 a) = wrap64 (a + zsum vs).
Proof.
  revert a. induction vs as [|v vs IH]; intros a; simpl.
  - by rewrite Z.add_0_r.
  - unfold add at 2. rewrite wrap64_add_l, IH. f_equal. lia.
Qed.

(** An int64 sum is the integer sum, wrapped. *)
Lemma sum_wrap vs : sum vs = wrap64 (zsum vs).
Proof. apply (fold_add_wrap vs 0). Qed.

Lemma sum_exact vs : in_range (zsum vs) → sum vs = zsum vs.
Proof. intros. by rewrite sum_wrap, wrap64_in_range. Qed.

End int64_facts.

Lemma zsum_cons x l : zsum (x :: l) = x + zsum l.
Proof. done. Qed.

Lemma zsum_app l1 l2 : zsum (l1 ++ l2) = zsum l1 + zsum l2.
Proof. induction l1 as [|x l1 IH]; simpl; [done|]. rewrite IH. lia. Qed.

Lemma zsum_nonneg l : Forall (λ v, 0 <= v) l → 0 <= zsum l.
Proof. induction 1; simpl; lia. Qed.

Lemma zsum_sublist l1 l2 :
  l1 `sublist_of` l2 → Forall (λ v, 0 <= v) l2 → 0 <= zsum l1 <= zsum l2.
Proof.
  induction 1 as [|x l1 l2 _ IH|x l1 l2 _ IH]; intros Hpos; simpl.
  - done.
  - apply Forall_cons in Hpos as [Hx Hpos]. specialize (IH Hpos). lia.
  - apply Forall_cons in Hpos as [Hx Hpos]. specialize (IH Hpos). lia.
Qed.

Lemma zsum_Permutation l1 l2 : l1 ≡ₚ l2 → zsum l1 = zsum l2.
Proof. induction 1; simpl; lia. Qed.

(** ** Running the operations *)

Section runs.
Implicit Types (s : store) (l : loc) (d : dataframe).

Lemma bind_run {A B} (m : M A) (f : A → M B) s a s' :
  m s = Some (a, s') → (m ≫= f) s = f a s'.
Proof. intros Hm. unfold mbind, M_bind. by rewrite Hm. Qed.

Lemma lookup_new s (f : frame) : (s ++ [f]) !! length s = Some f.
Proof. by apply list_lookup_middle. Qed.

Lemma read_run s l f : s !! l = Some f → read l s = Some (f, s).
Proof. intros Hl. unfold read. by rewrite Hl. Qed.

Lemma read_records_run s l d :
  s !! l = Some (Records d) → read_records l s = Some (d, s).
Proof.
  intros Hl. unfold read_records. by rewrite (bind_run _ _ _ _ _ (read_run _ _ _ Hl)).
Qed.

Lemma read_totals_run s l t :
  s !! l = Some (Totals t) → read_totals l s = Some (t, s).
Proof.
  intros Hl. unfold read_totals. by rewrite (bind_run _ _ _ _ _ (read_run _ _ _ Hl)).
Qed.

Lemma write_last s (f f' : frame) :
  write (length s) f' (s ++ [f]) = Some (tt, s ++ [f']).
Proof.
  unfold write. rewrite lookup_new.
  pose proof (insert_app_r s [f] 0 f') as Hins.
  rewrite Nat.add_0_r in Hins. do 2 f_equal. exact Hins.
Qed.

Lemma select_time_run s l d year :
  s !! l = Some (Records d) →
  select_time l year s
  = Some (length s, s ++ [Records (select (λ r, Time (rec r) = year) d)]).
Proof.
  intros Hl. unfold select_time.
  by rewrite (bind_run _ _ _ _ _ (read_records_run _ _ _ Hl)).
Qed.

Lemma select_sex_run s l d sex :
  s !! l = Some (Records d) →
  select_sex sex l s
  = Some (length s, s ++ [Records (select (λ r, Sex (rec r) = sex) d)]).
Proof.
  intros Hl. unfold select_sex.
  by rewrite (bind_run _ _ _ _ _ (read_records_run _ _ _ Hl)).
Qed.

Lemma groupby_agegroup_sum_run s l d :
  s !! l = Some (Records d) →
  groupby_agegroup_sum l s = Some (length s, s ++ [Totals (groupby_sum d)]).
Proof.
  intros Hl. unfold groupby_agegroup_sum.
  by rewrite (bind_run _ _ _ _ _ (read_records_run _ _ _ Hl)).
Qed.

Lemma merge_on_agegroup_run s l r tl tr year1 year2 :
  s !! l = Some (Totals tl) → s !! r = Some (Totals tr) →
  merge_on_agegroup l r year1 year2 s
  = Some (length s, s ++ [Merged year1 year2 (inner_merge tl tr) None]).
Proof.
  intros Hl Hr. unfold merge_on_agegroup.
  rewrite (bind_run _ _ _ _ _ (read_totals_run _ _ _ Hl)).
  by rewrite (bind_run _ _ _ _ _ (read_totals_run _ _ _ Hr)).
Qed.

Lemma zip_with_columns (m : list (string * Z * Z)) :
  zip_with pct_change ((λ '(_, v1, _), v1) <$> m) ((λ '(_, _, v2), v2) <$> m)
  = (λ '(_, v1, v2), pct_change v1 v2) <$> m.
Proof.
  induction m as [|[[g v1] v2] m IH]; [done|]. simpl. f_equal. exact IH.
Qed.

Lemma assign_change_run s m c year1 year2 :
  year1 ≠ year2 →
  assign_change (length s) year1 year2 (s ++ [Merged year1 year2 m c])
  = Some (tt, s ++ [Merged year1 year2 m
                      (Some ((λ '(_, v1, v2), pct_change v1 v2) <$> m))]).
Proof.
  intros Hne. unfold assign_change.
  rewrite (bind_run _ _ _ _ _ (read_run _ _ _ (lookup_new _ _))).
  unfold value_column.
  destruct (decide (year1 = year2)) as [|_]; [done|].
  destruct (decide (year1 = year1)) as [_|]; [|done].
  destruct (decide (year2 = year1)) as [Heq|_]; [by symmetry in Heq|].
  destruct (decide (year2 = year2)) as [_|]; [|done].
  rewrite zip_with_columns. apply write_last.
Qed.

End runs.

(** Lookups in a store that has grown. *)
Ltac lookup_store :=
  first [ eassumption
        | apply lookup_new
        | apply lookup_app_l_Some; lookup_store ].

(** One statement of a builder: run the operation, continue with the rest. *)
Ltac run_op lem := erewrite bind_run; [| apply lem; lookup_store].

Lemma generate_population_pyramid_run s data d year :
  s !! data = Some (Records d) →
  let male := groupby_sum (sex_rows (year_rows d year) "Hombre") in
  let female := groupby_sum (sex_rows (year_rows d year) "Mujer") in
  ∃ ext,
    generate_population_pyramid data year s
    = Some ({| hombres := {| bar_name := "Hombres"; bar_y := male.*1;
                             bar_x := male.*2;
                             bar_text := Float64.of_int <$> male.*2 |};
               mujeres := {| bar_name := "Mujeres"; bar_y := female.*1;
                             bar_x := Int64.neg <$> female.*2;
                             bar_text := Float64.of_int <$> female.*2 |} |},
            s ++ ext).
Proof.
  intros Hd male female. unfold generate_population_pyramid.
  run_op select_time_run.
  erewrite bind_run; [|run_op select_sex_run; apply groupby_agegroup_sum_run; lookup_store].
  erewrite bind_run; [|run_op select_sex_run; apply groupby_agegroup_sum_run; lookup_store].
  run_op read_totals_run. run_op read_totals_run.
  eexists. unfold mret, M_ret. rewrite <- !(assoc_L (++)). reflexivity.
Qed.

Lemma groupby_time_agegroup_sum_unstack_run s data d :
  s !! data = Some (Records d) →
  groupby_time_agegroup_sum_unstack data s
  = Some (length s,
          s ++ [Wide (trend_index d) (groupby_sum_unstack d).2]).
Proof.
  intros Hd. unfold groupby_time_agegroup_sum_unstack.
  run_op read_records_run. unfold groupby_sum_unstack. reflexivity.
Qed.

(** The trend up to its figure: the pivot table is a new object, and the
    figure is drawn from it. *)
Lemma generate_population_trend_pivot s data d :
  s !! data = Some (Records d) →
  generate_population_trend data s
  = px_area (trend_index d) (groupby_sum_unstack d).2
      (s ++ [Wide (trend_index d) (groupby_sum_unstack d).2]).
Proof.
  intros Hd. unfold generate_population_trend.
  erewrite bind_run; [|by apply groupby_time_agegroup_sum_unstack_run].
  run_op read_run. reflexivity.
Qed.

Lemma generate_population_trend_run s data d :
  s !! data = Some (Records d) →
  trend_index d ≠ [] →
  ∃ ext,
    generate_population_trend data s
    = Some ((λ '(g, ys), {| area_name := g; area_x := trend_index d;
                            area_y := ys |})
              <$> (groupby_sum_unstack d).2,
            s ++ ext).
Proof.
  intros Hd Hne. rewrite (generate_population_trend_pivot s data d Hd).
  unfold px_area. rewrite decide_False by done. eexists. reflexivity.
Qed.

Lemma generate_population_trend_raises s data d :
  s !! data = Some (Records d) →
  trend_index d = [] →
  generate_population_trend data s = None.
Proof.
  intros Hd Hnil. rewrite (generate_population_trend_pivot s data d Hd).
  unfold px_area. by rewrite decide_True.
Qed.

Lemma generate_comparison_chart_run s df data d dg year1 year2 :
  s !! data = Some (Records d) →
  s !! df = Some (Records dg) →
  year1 ≠ year2 →
  let m := compare_rows d year1 year2 in
  ∃ ext,
    generate_comparison_chart df data year1 year2 s
    = Some ({| cmp_x := (λ '(g, _, _), g) <$> m;
               cmp_y := (λ '(_, v1, v2), pct_change v1 v2) <$> m;
               categoryarray := categories dg |},
            s ++ ext).
Proof.
  intros Hd Hdf Hne m. unfold generate_comparison_chart.
  erewrite bind_run; [|run_op select_time_run; apply groupby_agegroup_sum_run; lookup_store].
  erewrite bind_run; [|run_op select_time_run; apply groupby_agegroup_sum_run; lookup_store].
  erewrite bind_run; [|apply merge_on_agegroup_run; lookup_store].
  erewrite bind_run; [|by apply assign_change_run].
  run_op read_run. run_op read_records_run.
  eexists. unfold mret, M_ret. rewrite <- !(assoc_L (++)). reflexivity.
Qed.

(** ** Grouped sums *)

Section groupby.
Implicit Types (d : dataframe) (rs : list row) (g : string).

Lemma omap_cons_eq {A B} (f : A → option B) x (l : list A) :
  omap f (x :: l)
  = match f x with Some y => y :: omap f l | None => omap f l end.
Proof. done. Qed.

Lemma group_values_cons r rs g :
  group_values (r :: rs) g
  = if decide (AgeGroup r = Some g)
    then Value (rec r) :: group_values rs g else group_values rs g.
Proof. unfold group_values. rewrite filter_cons. by case_decide. Qed.

Lemma group_values_app rs1 rs2 g :
  group_values (rs1 ++ rs2) g = group_values rs1 g ++ group_values rs2 g.
Proof. unfold group_values. by rewrite filter_app, fmap_app. Qed.

Lemma group_values_Permutation rs1 rs2 g :
  rs1 ≡ₚ rs2 → group_values rs1 g ≡ₚ group_values rs2 g.
Proof. intros Hp. unfold group_values. by rewrite Hp. Qed.

Lemma group_values_sublist rs g :
  group_values rs g `sublist_of` (λ r, Value (rec r)) <$> rs.
Proof. unfold group_values. apply fmap_sublist, sublist_filter. Qed.

Lemma group_values_elem rs g :
  group_values rs g ≠ [] ↔ ∃ r, r ∈ rs ∧ AgeGroup r = Some g.
Proof.
  unfold group_values. split.
  - destruct (filter _ rs) as [|r l] eqn:Hf; [done|]. intros _.
    assert (r ∈ filter (λ r, AgeGroup r = Some g) rs) as Hr
      by (rewrite Hf; left).
    apply list_elem_of_filter in Hr as [? ?]. eauto.
  - intros (r & Hr & Hg) Hnil. apply fmap_nil_inv in Hnil.
    exact (filter_nil_not_elem_of _ _ _ Hnil Hg Hr).
Qed.

(** The lines of a grouped sum: the categories that have a row, each with
    the int64 sum of its values. *)
Lemma groupby_sum_spec d :
  groupby_sum d
  = (λ g, (g, Int64.sum (group_values (rows d) g)))
      <$> filter (λ g, group_values (rows d) g ≠ []) (categories d).
Proof.
  unfold groupby_sum. induction (categories d) as [|g cats IH]; [done|].
  rewrite omap_cons_eq, filter_cons, IH.
  destruct (group_values (rows d) g) eqn:Hg.
  - by rewrite decide_False by (by intros []).
  - by rewrite decide_True, fmap_cons, Hg.
Qed.

Lemma groupby_sum_keys d :
  (groupby_sum d).*1
  = filter (λ g, group_values (rows d) g ≠ []) (categories d).
Proof.
  rewrite groupby_sum_spec, <- list_fmap_compose. apply list_fmap_id.
Qed.

Lemma elem_of_groupby_sum d g v :
  (g, v) ∈ groupby_sum d
  ↔ g ∈ categories d ∧ group_values (rows d) g ≠ []
    ∧ v = Int64.sum (group_values (rows d) g).
Proof.
  rewrite groupby_sum_spec, list_elem_of_fmap. split.
  - intros (g' & [= -> ->] & Hg'%list_elem_of_filter). tauto.
  - intros (Hg & Hne & ->). exists g. split; [done|].
    by apply list_elem_of_filter.
Qed.

Lemma groupby_sum_nil d : rows d = [] → groupby_sum d = [].
Proof.
  intros Hd. rewrite groupby_sum_spec, Hd.
  induction (categories d) as [|g cats IH]; [done|].
  rewrite filter_cons_False; [done|]. by intros [].
Qed.

(** Adding up the sums of all lines. *)
Lemma groupby_sum_values d :
  zsum (groupby_sum d).*2
  = zsum ((λ g, Int64.sum (group_values (rows d) g)) <$> categories d).
Proof.
  rewrite groupby_sum_spec, <- list_fmap_compose.
  induction (categories d) as [|g cats IH]; [done|].
  rewrite filter_cons, fmap_cons, zsum_cons, <- IH. case_decide as Hg.
  - by rewrite fmap_cons, zsum_cons.
  - simpl. by rewrite Hg.
Qed.

Lemma zsum_indicator (cats : list string) g0 v :
  NoDup cats → g0 ∈ cats →
  zsum ((λ g, if decide (Some g0 = Some g) then v else 0) <$> cats) = v.
Proof.
  induction 1 as [|g cats Hg _ IH]; intros Hin; [by apply elem_of_nil in Hin|].
  rewrite fmap_cons, zsum_cons. case_decide as Heq.
  - injection Heq as <-.
    assert (zsum ((λ g, if decide (Some g0 = Some g) then v else 0) <$> cats)
            = 0) as ->; [|lia].
    clear IH Hin. induction cats as [|g' cats IH]; [done|].
    rewrite fmap_cons, zsum_cons, decide_False, IH; [done| |].
    + intros ?. apply Hg. by right.
    + intros [= ->]. apply Hg. by left.
  - apply elem_of_cons in Hin as [->|Hin]; [done|]. rewrite IH; [lia|done].
Qed.

Lemma zsum_zeros (cats : list string) : zsum ((λ _, 0) <$> cats) = 0.
Proof. induction cats as [|g cats IH]; [done|]. by rewrite fmap_cons, zsum_cons, IH. Qed.

(** Every row that has a group is counted in exactly one line. *)
Lemma zsum_groups (cats : list string) rs :
  NoDup cats → Forall (λ r, grouped cats r) rs →
  zsum ((λ g, zsum (group_values rs g)) <$> cats)
  = zsum ((λ r, Value (rec r)) <$> rs).
Proof.
  intros Hnd. induction 1 as [|r rs Hr _ IH].
  - apply zsum_zeros.
  - rewrite fmap_cons, zsum_cons, <- IH. unfold grouped in Hr.
    destruct (AgeGroup r) as [g0|] eqn:Hg0; [|done].
    apply bool_decide_unpack in Hr.
    rewrite <- (zsum_indicator cats g0 (Value (rec r)) Hnd Hr) at 1.
    clear IH Hnd Hr. induction cats as [|g cats IHc]; [done|].
    rewrite !fmap_cons, !zsum_cons, group_values_cons, Hg0, IHc.
    case_decide; [rewrite zsum_cons|]; lia.
Qed.

End groupby.

(** ** The loaded table *)

Section loaded_table.
Implicit Types (csv : list csv_row) (g : string).

(** The loader's two steps give the label of the table of the
    specification. *)
Lemma age_mapping_lookup (z : Z) :
  categorical age_groups (age_mapping !! z) = spec_age_group z.
Proof.
  unfold spec_age_group, spec_mapping_table, table_label.
  repeat match goal with
         | |- context [(z =? ?k)%Z] =>
             destruct (Z.eqb_spec z k) as [->|?]; [vm_compute; reflexivity|]
         end.
  assert (age_mapping !! z = None) as ->; [|reflexivity].
  apply not_elem_of_list_to_map_1. simpl.
  rewrite !elem_of_cons, elem_of_nil. lia.
Qed.

Lemma rows_load_data csv : rows (load_data csv) = loaded <$> csv.
Proof.
  unfold load_data, loaded. cbn [rows]. apply list_fmap_ext. intros _ r _.
  by rewrite age_mapping_lookup.
Qed.

Lemma NoDup_age_groups : NoDup age_groups.
Proof. refine (bool_decide_unpack _ _). by vm_compute. Qed.

Lemma categorical_elem (cats : list string) v g :
  categorical cats v = Some g → g ∈ cats.
Proof.
  unfold categorical. destruct v as [l|]; simpl; [|done].
  case_decide; [|done]. by intros [= <-].
Qed.

Lemma spec_age_group_elem z g : spec_age_group z = Some g → g ∈ age_groups.
Proof. rewrite <- age_mapping_lookup. apply categorical_elem. Qed.

Lemma spec_age_group_keys z : z ∈ mapping_keys ↔ is_Some (spec_age_group z).
Proof.
  split.
  - unfold mapping_keys. intros Hin.
    repeat (apply elem_of_cons in Hin as [->|Hin]; [by eexists|]).
    by apply elem_of_nil in Hin.
  - unfold spec_age_group, spec_mapping_table, table_label, mapping_keys.
    repeat match goal with
           | |- context [(z =? ?k)%Z] =>
               destruct (Z.eqb_spec z k) as [->|?];
               [intros _; refine (bool_decide_unpack _ _); by vm_compute|]
           end.
    by intros [? ?].
Qed.

Lemma grouped_loaded r :
  AgeEnd r ∈ mapping_keys → grouped age_groups (loaded r).
Proof.
  intros [g Hg]%spec_age_group_keys. unfold grouped, loaded. simpl.
  rewrite Hg. apply bool_decide_pack. by eapply spec_age_group_elem.
Qed.

Lemma filter_loaded (P : csv_row → Prop) `{∀ r, Decision (P r)} csv :
  filter (λ r, P (rec r)) (loaded <$> csv) = loaded <$> filter P csv.
Proof.
  induction csv as [|r csv IH]; [done|].
  rewrite fmap_cons, !filter_cons, IH. simpl. by case_decide.
Qed.

Lemma group_values_loaded csv g :
  group_values (loaded <$> csv) g
  = Value <$> filter (λ r, spec_age_group (AgeEnd r) = Some g) csv.
Proof.
  induction csv as [|r csv IH]; [done|].
  rewrite fmap_cons, group_values_cons, filter_cons, IH. simpl.
  by case_decide.
Qed.

End loaded_table.

(** C1. The loader gives every row the label the mapping table lists for
    its [AgeEnd], and no label when [AgeEnd] is not one of the 17 keys; it
    keeps the rows and their columns as they are. *)
Theorem load_data_age_group (csv : list csv_row) :
  rec <$> rows (load_data csv) = csv
  ∧ ∀ r, r ∈ rows (load_data csv) →
      (∀ label, (AgeEnd (rec r), label) ∈ spec_mapping_table →
                AgeGroup r = Some label)
      ∧ (AgeEnd (rec r) ∉ mapping_keys → AgeGroup r = None).
Proof.
  rewrite rows_load_data. split.
  - rewrite <- list_fmap_compose. apply list_fmap_id.
  - intros r (r0 & -> & _)%list_elem_of_fmap. simpl. split.
    + intros label Hin. unfold spec_mapping_table in Hin.
      repeat (apply elem_of_cons in Hin as [[= -> ->]|Hin]; [done|]).
      by apply elem_of_nil in Hin.
    + intros Hout. destruct (spec_age_group (AgeEnd r0)) eqn:Hg; [|done].
      exfalso. apply Hout, spec_age_group_keys. by eexists.
Qed.


(** ** The builders and the store *)

Lemma preserves_app (s ext : store) : preserves s (s ++ ext).
Proof. intros l f. apply lookup_app_l_Some. Qed.

Lemma filter_none {A} (P : A → Prop) `{∀ x, Decision (P x)} (l : list A) :
  (∀ x, x ∈ l → ¬ P x) → filter P l = [].
Proof.
  intros Hl. apply elem_of_nil_inv. intros x [HP Hx]%list_elem_of_filter.
  by apply (Hl x).
Qed.

Lemma filter_every {A} (P : A → Prop) `{∀ x, Decision (P x)} (l : list A) :
  (∀ x, x ∈ l → P x) → filter P l = l.
Proof.
  induction l as [|x l IH]; intros Hl; [done|].
  rewrite filter_cons_True by (apply Hl; left).
  f_equal. apply IH. intros x' Hx'. apply Hl. by right.
Qed.

(** C9. The pyramid of a year that no row of the table has: the builder
    returns a figure whose two series are empty. *)
Theorem pyramid_absent_year (s : store) (data : loc) (d : dataframe) (year : Z) :
  s !! data = Some (Records d) →
  year ∉ (λ r, Time (rec r)) <$> rows d →
  ∃ s', generate_population_pyramid data year s
        = Some ({| hombres := {| bar_name := "Hombres"; bar_y := [];
                                 bar_x := []; bar_text := [] |};
                   mujeres := {| bar_name := "Mujeres"; bar_y := [];
                                 bar_x := []; bar_text := [] |} |}, s').
Proof.
  intros Hd Hyear.
  destruct (generate_population_pyramid_run s data d year Hd) as [ext Hrun].
  exists (s ++ ext). rewrite Hrun.
  assert (rows (year_rows d year) = []) as Hrows.
  { apply filter_none. intros r Hr Ht. apply Hyear.
    apply list_elem_of_fmap. by exists r. }
  assert (∀ sex, groupby_sum (sex_rows (year_rows d year) sex) = []) as Hnil.
  { intros sex. apply groupby_sum_nil. unfold sex_rows, select. cbn [rows].
    by rewrite Hrows. }
  by rewrite !Hnil.
Qed.


(** ** Grouped sums of a selection of the loaded table *)

Section selection.
Context (csv : list csv_row) (P : csv_row → Prop) `{∀ r, Decision (P r)}.
Context (d : dataframe).
Hypothesis d_categories : categories d = age_groups.
Hypothesis d_rows : rows d = loaded <$> filter P csv.

Lemma group_values_selected g :
  group_values (rows d) g
  = Value <$> filter (λ r, P r ∧ spec_age_group (AgeEnd r) = Some g) csv.
Proof.
  rewrite d_rows, group_values_loaded, list_filter_filter. f_equal.
  apply list_filter_iff. tauto.
Qed.

Lemma group_values_selected_ne g :
  group_values (rows d) g ≠ []
  ↔ ∃ r, r ∈ csv ∧ P r ∧ spec_age_group (AgeEnd r) = Some g.
Proof.
  rewrite group_values_elem, d_rows. split.
  - intros (r & (r0 & -> & [? ?]%list_elem_of_filter)%list_elem_of_fmap & Hg).
    by exists r0.
  - intros (r & Hr & HP & Hg). exists (loaded r). split; [|done].
    apply list_elem_of_fmap. exists r. split; [done|].
    by apply list_elem_of_filter.
Qed.

(** A line of the grouped sum, when int64 does not overflow. *)
Lemma counts_exact (Q : csv_row → Prop) `{∀ r, Decision (Q r)} :
  counts_ok csv →
  Int64.sum (Value <$> filter Q csv) = total Q csv ∧ 0 <= total Q csv < 2 ^ 53.
Proof.
  intros [Hpos Hmax]. unfold total.
  assert (0 <= zsum (Value <$> filter Q csv) <= zsum (Value <$> csv)) as Hle.
  { apply zsum_sublist; [apply fmap_sublist, sublist_filter|].
    by apply Forall_fmap. }
  split; [|lia]. apply sum_exact. unfold Int64.in_range, Int64.half_modulus. lia.
Qed.

Lemma elem_of_selected_totals g v :
  counts_ok csv →
  (g, v) ∈ groupby_sum d
  ↔ (∃ r, r ∈ csv ∧ P r ∧ spec_age_group (AgeEnd r) = Some g)
    ∧ v = total (λ r, P r ∧ spec_age_group (AgeEnd r) = Some g) csv.
Proof.
  intros Hok. rewrite elem_of_groupby_sum, group_values_selected_ne.
  rewrite group_values_selected.
  rewrite (proj1 (counts_exact (λ r, P r ∧ spec_age_group (AgeEnd r) = Some g) Hok)).
  split; [tauto|]. intros [(r & Hr & HP & Hg) ->]. split; [|eauto].
  rewrite d_categories. by eapply spec_age_group_elem.
Qed.

Lemma selected_totals_range :
  counts_ok csv → Forall (λ v, 0 <= v < 2 ^ 53) (groupby_sum d).*2.
Proof.
  intros Hok. apply Forall_forall. intros v ([g v'] & -> & Hin)%list_elem_of_fmap.
  apply (elem_of_selected_totals _ _ Hok) in Hin as [_ ->].
  apply (counts_exact _ Hok).
Qed.

(** The lines add up to the total of the selection when every selected row
    has an age group. *)
Lemma selected_totals_sum :
  counts_ok csv → all_mapped csv →
  zsum (groupby_sum d).*2 = total P csv.
Proof.
  intros Hok Hmap. rewrite groupby_sum_values, d_categories.
  transitivity (zsum ((λ g, zsum (group_values (rows d) g)) <$> age_groups)).
  { f_equal. apply list_fmap_ext. intros _ g _.
    rewrite group_values_selected. apply (counts_exact _ Hok). }
  rewrite (zsum_groups _ _ NoDup_age_groups).
  - unfold total. by rewrite d_rows, <- list_fmap_compose.
  - rewrite d_rows. apply Forall_fmap, Forall_forall.
    intros r [_ Hr]%list_elem_of_filter. apply grouped_loaded.
    unfold all_mapped in Hmap. rewrite Forall_forall in Hmap. by apply Hmap.
Qed.

End selection.

Lemma zsum_filter_split {A} (f : A → Z) (P Q1 Q2 : A → Prop)
    `{∀ x, Decision (P x), ∀ x, Decision (Q1 x), ∀ x, Decision (Q2 x)}
    (l : list A) :
  (∀ x, x ∈ l → P x → (Q1 x ∨ Q2 x) ∧ ¬ (Q1 x ∧ Q2 x)) →
  zsum (f <$> filter P l)
  = zsum (f <$> filter (λ x, P x ∧ Q1 x) l)
    + zsum (f <$> filter (λ x, P x ∧ Q2 x) l).
Proof.
  induction l as [|x l IH]; intros Hl; [done|].
  rewrite !filter_cons.
  specialize (IH (λ x' Hx', Hl x' (list_elem_of_further _ _ _ Hx'))).
  pose proof (Hl x (list_elem_of_here _ _)) as Hx.
  repeat case_decide; rewrite ?fmap_cons, ?zsum_cons; try lia; tauto.
Qed.

Lemma groupby_sum_ext (d d' : dataframe) :
  categories d = categories d' →
  (∀ g, group_values (rows d) g = group_values (rows d') g) →
  groupby_sum d = groupby_sum d'.
Proof.
  intros Hc Hg. unfold groupby_sum. rewrite Hc.
  apply list_omap_ext, Forall2_same_length_lookup_2; [done|].
  intros i g g' Hi Hi'. rewrite Hi in Hi'. injection Hi' as <-.
  by rewrite Hg.
Qed.

Lemma counts_ok_filter (Q : csv_row → Prop) `{∀ r, Decision (Q r)} csv :
  counts_ok csv → counts_ok (filter Q csv).
Proof.
  intros [Hpos Hmax]. split.
  - apply Forall_forall. intros r [_ Hr]%list_elem_of_filter.
    rewrite Forall_forall in Hpos. by apply Hpos.
  - assert (0 <= zsum (Value <$> filter Q csv) <= zsum (Value <$> csv)) as Hle.
    { apply zsum_sublist; [apply fmap_sublist, sublist_filter|].
      by apply Forall_fmap. }
    lia.
Qed.

(** The lines of a grouped sum add up to the total of the selected rows
    that have an age group. *)
Lemma selected_totals_sum_mapped csv (P : csv_row → Prop)
    `{∀ r, Decision (P r)} (d : dataframe) :
  categories d = age_groups →
  rows d = loaded <$> filter P csv →
  counts_ok csv →
  zsum (groupby_sum d).*2 = total (λ r, P r ∧ AgeEnd r ∈ mapping_keys) csv.
Proof.
  intros Hc Hr Hok.
  set (csv' := filter (λ r, AgeEnd r ∈ mapping_keys) csv).
  set (d' := {| categories := age_groups; rows := loaded <$> filter P csv' |}).
  assert (groupby_sum d = groupby_sum d') as ->.
  { apply groupby_sum_ext; [done|]. intros g.
    rewrite (group_values_selected csv P d Hr).
    rewrite (group_values_selected csv' P d' eq_refl). unfold csv'.
    rewrite list_filter_filter. f_equal. apply list_filter_iff.
    intros r. split; [|tauto]. intros [HP Hg]. split; [done|].
    apply spec_age_group_keys. by eexists. }
  rewrite (selected_totals_sum csv' P d' eq_refl eq_refl).
  - unfold total, csv'. by rewrite list_filter_filter.
  - by apply counts_ok_filter.
  - apply Forall_forall. by intros r [? _]%list_elem_of_filter.
Qed.

Lemma total_split (P Q : csv_row → Prop)
    `{∀ r, Decision (P r), ∀ r, Decision (Q r)} csv :
  total P csv = total (λ r, P r ∧ Q r) csv + total (λ r, P r ∧ ¬ Q r) csv.
Proof.
  unfold total. apply zsum_filter_split. intros r _ _.
  destruct (decide (Q r)); tauto.
Qed.

Lemma rows_year_rows csv year :
  rows (year_rows (load_data csv) year)
  = loaded <$> filter (λ r, Time r = year) csv.
Proof.
  unfold year_rows, select. cbn [rows]. rewrite rows_load_data.
  pose proof (filter_loaded (λ r, Time r = year) csv) as Hf. exact Hf.
Qed.

Lemma rows_sex_rows csv year sex :
  rows (sex_rows (year_rows (load_data csv) year) sex)
  = loaded <$> filter (λ r, Time r = year ∧ Sex r = sex) csv.
Proof.
  unfold sex_rows, select at 1. cbn [rows]. rewrite rows_year_rows.
  pose proof (filter_loaded (λ r, Sex r = sex)
                (filter (λ r, Time r = year) csv)) as Hf.
  etrans; [exact Hf|]. rewrite list_filter_filter. f_equal. apply list_filter_iff. tauto.
Qed.

Lemma zip_fst_fmap_snd {A B C} (h : B → C) (l : list (A * B)) :
  zip l.*1 (h <$> l.*2) = (λ p, (p.1, h p.2)) <$> l.
Proof. induction l as [|[a b] l IH]; [done|]. simpl. f_equal. exact IH. Qed.

Lemma neg_exact v : 0 <= v < 2 ^ 53 → Int64.neg v = - v.
Proof.
  intros Hv. apply wrap64_in_range.
  unfold Int64.in_range, Int64.half_modulus. lia.
Qed.

(** C3, for tables that keep the invariant of the data model. For a table whose [AgeEnd] values are all keys of the
    mapping table and whose counts are non-negative and add up without
    overflow, the male bars of the pyramid of a year are non-negative and
    add up to the male population of that year, the female bars are
    non-positive and their absolute values add up to the female population;
    each male bar is the sum of its age group and each female bar the
    negated sum of its age group. *)
Theorem pyramid_bar_totals
    (csv : list csv_row) (s : store) (data : loc) (year : Z) :
  s !! data = Some (Records (load_data csv)) →
  all_mapped csv →
  counts_ok csv →
  ∃ fig s',
    generate_population_pyramid data year s = Some (fig, s')
    ∧ zsum (bar_x (hombres fig))
      = total (λ r, Time r = year ∧ Sex r = "Hombre") csv
    ∧ Forall (λ x, 0 <= x) (bar_x (hombres fig))
    ∧ zsum (Z.abs <$> bar_x (mujeres fig))
      = total (λ r, Time r = year ∧ Sex r = "Mujer") csv
    ∧ Forall (λ x, x <= 0) (bar_x (mujeres fig))
    ∧ (∀ g x, (g, x) ∈ zip (bar_y (hombres fig)) (bar_x (hombres fig))
              ↔ (∃ r, r ∈ csv ∧ in_bar year "Hombre" g r)
                ∧ x = total (in_bar year "Hombre" g) csv)
    ∧ (∀ g x, (g, x) ∈ zip (bar_y (mujeres fig)) (bar_x (mujeres fig))
              ↔ (∃ r, r ∈ csv ∧ in_bar year "Mujer" g r)
                ∧ x = - total (in_bar year "Mujer" g) csv).
Proof.
  intros Hd Hmap Hok.
  destruct (generate_population_pyramid_run s data _ year Hd) as [ext Hrun].
  eexists _, _. split; [exact Hrun|]. cbn [hombres mujeres bar_x bar_y].
  set (dm := sex_rows (year_rows (load_data csv) year) "Hombre").
  set (df := sex_rows (year_rows (load_data csv) year) "Mujer").
  set (male := groupby_sum dm). set (female := groupby_sum df).
  pose proof (rows_sex_rows csv year "Hombre") as Hm.
  pose proof (rows_sex_rows csv year "Mujer") as Hf.
  pose proof (selected_totals_range csv _ dm eq_refl Hm Hok) as Hmr.
  pose proof (selected_totals_range csv _ df eq_refl Hf Hok) as Hfr.
  fold male in Hmr. fold female in Hfr.
  assert (Int64.neg <$> female.*2 = Z.opp <$> female.*2) as Hneg.
  { apply Forall_fmap_ext_1. eapply Forall_impl; [exact Hfr|].
    intros v Hv. by apply neg_exact. }
  rewrite Hneg. split; [|split; [|split; [|split; [|split]]]].
  - apply (selected_totals_sum csv _ dm eq_refl Hm Hok Hmap).
  - eapply Forall_impl; [exact Hmr|]. simpl. lia.
  - rewrite <- (selected_totals_sum csv _ df eq_refl Hf Hok Hmap). fold female.
    f_equal. rewrite <- list_fmap_compose.
    transitivity (id <$> female.*2); [|apply list_fmap_id].
    apply Forall_fmap_ext_1. eapply Forall_impl; [exact Hfr|]. simpl. lia.
  - apply Forall_fmap. eapply Forall_impl; [exact Hfr|]. simpl. lia.
  - intros g x. rewrite zip_fst_snd.
    apply (elem_of_selected_totals csv _ dm eq_refl Hm g x Hok).
  - intros g x. rewrite zip_fst_fmap_snd, list_elem_of_fmap. split.
    + intros ([g' v] & [= -> ->] & Hin). simpl.
      apply (elem_of_selected_totals csv _ df eq_refl Hf g' v Hok) in Hin
        as [? ->]. done.
    + intros [Hr ->]. exists (g, total (in_bar year "Mujer" g) csv).
      split; [done|].
      by apply (elem_of_selected_totals csv _ df eq_refl Hf g _ Hok).
Qed.

(** ** float64 arithmetic of the percentage *)

Section float64_facts.
Import Float64.

Lemma digits2_pos_lower p : 2 ^ (Z.pos (digits2_pos p) - 1) <= Z.pos p.
Proof.
  induction p as [p IH|p IH|]; simpl digits2_pos; [| |done].
  - rewrite Pos2Z.inj_succ.
    replace (Z.succ (Z.pos (digits2_pos p)) - 1)
      with (Z.succ (Z.pos (digits2_pos p) - 1)) by lia.
    rewrite Z.pow_succ_r by lia. lia.
  - rewrite Pos2Z.inj_succ.
    replace (Z.succ (Z.pos (digits2_pos p)) - 1)
      with (Z.succ (Z.pos (digits2_pos p) - 1)) by lia.
    rewrite Z.pow_succ_r by lia. lia.
Qed.

Lemma digits2_pos_upper p : Z.pos p < 2 ^ Z.pos (digits2_pos p).
Proof.
  induction p as [p IH|p IH|]; simpl digits2_pos; [| |done].
  - rewrite Pos2Z.inj_succ, Z.pow_succ_r by lia. lia.
  - rewrite Pos2Z.inj_succ, Z.pow_succ_r by lia. lia.
Qed.

(** The number of digits of a positive integer is determined by the powers
    of two around it. *)
Lemma digits2_pos_unique p k :
  2 ^ (k - 1) <= Z.pos p < 2 ^ k → Z.pos (digits2_pos p) = k.
Proof.
  intros [Hlo Hhi].
  pose proof (digits2_pos_lower p) as Hl. pose proof (digits2_pos_upper p) as Hu.
  destruct (Z.lt_trichotomy (Z.pos (digits2_pos p)) k) as [Hlt|[?|Hgt]]; [|done|].
  - assert (2 ^ Z.pos (digits2_pos p) <= 2 ^ (k - 1))
      by (apply Z.pow_le_mono_r; lia). lia.
  - assert (0 < k).
    { destruct (Z_lt_le_dec 0 k) as [|Hk]; [done|].
      rewrite (Z.pow_neg_r 2 (k - 1)) in Hlo by lia.
      destruct (Z.eq_dec k 0) as [->|]; [simpl in Hhi; lia|].
      rewrite Z.pow_neg_r in Hhi by lia. lia. }
    assert (2 ^ k <= 2 ^ (Z.pos (digits2_pos p) - 1))
      by (apply Z.pow_le_mono_r; lia). lia.
Qed.

Lemma pos_iter_xO p d : Z.pos (Pos.iter xO p d) = Z.pos p * 2 ^ Z.pos d.
Proof.
  induction d as [|d IH] using Pos.peano_ind.
  - simpl. lia.
  - rewrite Pos.iter_succ, Pos2Z.inj_xO, IH, Pos2Z.inj_succ, Z.pow_succ_r by lia.
    lia.
Qed.

Lemma shr_1_div mrs : 0 <= shr_m mrs → shr_m (shr_1 mrs) = shr_m mrs / 2.
Proof.
  destruct mrs as [m r s]. cbn [shr_m]. intros Hm.
  destruct m as [|[p|p|]|p]; cbn [shr_1 shr_m]; [done| | |done|lia].
  - apply (Z.div_unique _ 2 _ 1); lia.
  - apply (Z.div_unique _ 2 _ 0); lia.
Qed.

Lemma shr_1_nonneg mrs : 0 <= shr_m mrs → 0 <= shr_m (shr_1 mrs).
Proof.
  destruct mrs as [m r s]. simpl.
  destruct m as [|[p|p|]|[p|p|]]; simpl; lia.
Qed.

Lemma iter_pos_shr_div p mrs :
  0 <= shr_m mrs →
  0 <= shr_m (SpecFloat.iter_pos shr_1 p mrs)
  ∧ shr_m (SpecFloat.iter_pos shr_1 p mrs) = shr_m mrs / 2 ^ Z.pos p.
Proof.
  revert mrs. induction p as [p IH|p IH|]; intros mrs Hm; simpl SpecFloat.iter_pos.
  - pose proof (shr_1_nonneg mrs Hm) as H1.
    destruct (IH _ H1) as [H2 E2]. destruct (IH _ H2) as [H3 E3].
    split; [done|]. rewrite E3, E2, shr_1_div by done.
    rewrite !Z.div_div by lia. f_equal.
    replace (Z.pos p~1) with (1 + Z.pos p + Z.pos p) by lia.
    rewrite !Z.pow_add_r by lia. ring.
  - destruct (IH _ Hm) as [H2 E2]. destruct (IH _ H2) as [H3 E3].
    split; [done|]. rewrite E3, E2. rewrite !Z.div_div by lia. f_equal.
    replace (Z.pos p~0) with (Z.pos p + Z.pos p) by lia.
    by rewrite Z.pow_add_r by lia.
  - split; [by apply shr_1_nonneg|]. by rewrite shr_1_div.
Qed.

Lemma shr_m_record_of_loc m l : shr_m (shr_record_of_loc m l) = m.
Proof. by destruct l as [|[]]. Qed.

Lemma fexp_normal k : -1074 <= k - 53 → fexp prec emax k = k - 53.
Proof. unfold fexp, SpecFloat.emin, prec, emax. lia. Qed.

(** The first step of a rounding: a mantissa of [53 + n] digits loses its
    [n] low digits. *)
Lemma shr_fexp_truncates (p : positive) ex lx :
  let n := Z.pos (digits2_pos p) - 53 in
  0 <= n → -1074 <= ex + n →
  ∃ mrs, shr_fexp prec emax (Z.pos p) ex lx = (mrs, ex + n)
         ∧ shr_m mrs = Z.pos p / 2 ^ n.
Proof.
  intros n Hn He. unfold shr_fexp. cbn [Zdigits2].
  rewrite fexp_normal by (unfold n in He; lia).
  replace (Z.pos (digits2_pos p) + ex - 53 - ex) with n by (unfold n; lia).
  unfold shr. destruct n as [|q|q] eqn:Hq; [| |lia].
  - eexists. rewrite Z.add_0_r. split; [reflexivity|].
    by rewrite shr_m_record_of_loc, Z.div_1_r.
  - eexists. split; [reflexivity|].
    destruct (iter_pos_shr_div q (shr_record_of_loc (Z.pos p) lx)) as [_ ->].
    + by rewrite shr_m_record_of_loc.
    + by rewrite shr_m_record_of_loc.
Qed.

Lemma round_nearest_even_range m l :
  m <= round_nearest_even m l <= m + 1.
Proof. destruct l as [|[]]; simpl; try lia. destruct (Z.even m); lia. Qed.

(** The second step: a rounded mantissa of 53 digits is kept as it is, and
    [2^53] becomes [2^52] with the next exponent. *)
Lemma shr_fexp_carry (mr e : Z) :
  2 ^ 52 <= mr <= 2 ^ 53 → -1074 <= e →
  ∃ mrs (m : positive) c,
    shr_fexp prec emax mr e loc_Exact = (mrs, e + c)
    ∧ shr_m mrs = Z.pos m ∧ 0 <= c <= 1
    ∧ Z.pos (digits2_pos m) = 53 ∧ Z.pos m * 2 ^ c = mr.
Proof.
  intros [Hlo Hhi] He. destruct mr as [|pr|pr]; [lia| |lia].
  destruct (Z.eq_dec (Z.pos pr) (2 ^ 53)) as [Heq|Hne].
  - assert (pr = 9007199254740992%positive) as -> by lia.
    unfold shr_fexp. cbn [Zdigits2].
    replace (Z.pos (digits2_pos 9007199254740992)) with 54
      by (vm_compute; reflexivity).
    rewrite fexp_normal by lia. replace (54 + e - 53 - e) with 1 by lia.
    exists {| shr_m := 2 ^ 52; shr_r := false; shr_s := false |},
      (4503599627370496%positive), 1.
    repeat split; try reflexivity; lia.
  - assert (Z.pos (digits2_pos pr) = 53) as Hd
      by (apply digits2_pos_unique; lia).
    unfold shr_fexp. cbn [Zdigits2]. rewrite Hd.
    rewrite fexp_normal by lia. replace (53 + e - 53 - e) with 0 by lia.
    exists {| shr_m := Z.pos pr; shr_r := false; shr_s := false |}, pr, 0.
    rewrite Z.add_0_r. repeat split; try reflexivity; try done; lia.
Qed.

(** Rounding a mantissa of at least 53 digits, away from the ends of the
    exponent range: the result is finite with a mantissa of 53 digits, and
    it is less than one unit of its last digit away from the mantissa that
    was to be rounded. *)
Lemma binary_round_aux_bounds sx (p : positive) ex lx :
  let n := Z.pos (digits2_pos p) - 53 in
  0 <= n → -1074 <= ex + n → ex + n + 1 <= 971 →
  ∃ (m : positive) c,
    binary_round_aux prec emax sx (Z.pos p) ex lx
    = S754_finite sx m (ex + n + c)
    ∧ 0 <= c <= 1
    ∧ Z.pos (digits2_pos m) = 53
    ∧ Z.pos p - 2 ^ n < Z.pos m * 2 ^ (n + c) <= Z.pos p + 2 ^ n.
Proof.
  intros n Hn Hlo Hhi. unfold binary_round_aux.
  destruct (shr_fexp_truncates p ex lx Hn Hlo) as (mrs & -> & Hm).
  fold n in Hm |- *.
  pose proof (digits2_pos_lower p) as Hdl.
  pose proof (digits2_pos_upper p) as Hdu.
  replace (Z.pos (digits2_pos p) - 1) with (n + 52) in Hdl by (unfold n; lia).
  replace (Z.pos (digits2_pos p)) with (n + 53) in Hdu by (unfold n; lia).
  rewrite Z.pow_add_r in Hdl, Hdu by lia.
  assert (0 < 2 ^ n) as Hpow by (apply Z.pow_pos_nonneg; lia).
  pose proof (Z.div_mod (Z.pos p) (2 ^ n) ltac:(lia)) as Hdiv.
  pose proof (Z.mod_pos_bound (Z.pos p) (2 ^ n) Hpow) as Hmod.
  rewrite <- Hm in Hdiv.
  pose proof (round_nearest_even_range (shr_m mrs) (loc_of_shr_record mrs))
    as Hr.
  set (mr := round_nearest_even (shr_m mrs) (loc_of_shr_record mrs)) in *.
  assert (2 ^ 52 <= shr_m mrs < 2 ^ 53) as Hm1 by nia.
  destruct (shr_fexp_carry mr (ex + n) ltac:(lia) Hlo)
    as (mrs2 & m & c & -> & -> & Hc & Hd & Hval).
  rewrite Zle_imp_le_bool by (unfold emax, prec; lia).
  exists m, c. split; [done|]. split; [done|]. split; [done|].
  rewrite Z.pow_add_r by lia.
  replace (Z.pos m * (2 ^ n * 2 ^ c)) with (mr * 2 ^ n) by (rewrite <- Hval; ring).
  nia.
Qed.

Lemma digits2_pos_shift p d :
  digits2_pos (Pos.iter xO p d) = (digits2_pos p + d)%positive.
Proof.
  induction d as [|d IH] using Pos.peano_ind.
  - simpl. lia.
  - rewrite Pos.iter_succ. simpl. rewrite IH. lia.
Qed.

Lemma digits2_pos_small p : Z.pos p < 2 ^ 53 → Z.pos (digits2_pos p) <= 53.
Proof.
  intros Hp. destruct (Z_le_gt_dec (Z.pos (digits2_pos p)) 53) as [|Hgt]; [done|].
  pose proof (digits2_pos_lower p) as Hlow.
  assert (2 ^ 53 <= 2 ^ (Z.pos (digits2_pos p) - 1)) by (apply Z.pow_le_mono_r; lia).
  lia.
Qed.

Lemma binary_round_aux_exact_signed sx (mz : positive) (ez : Z) :
  Z.pos (digits2_pos mz) = 53 → -1074 <= ez <= 971 →
  binary_round_aux prec emax sx (Z.pos mz) ez loc_Exact
  = S754_finite sx mz ez.
Proof.
  intros Hd He.
  assert (fexp prec emax (Zdigits2 (Z.pos mz) + ez) - ez = 0) as Hshift.
  { simpl Zdigits2. rewrite Hd. unfold fexp, SpecFloat.emin, prec, emax. lia. }
  unfold binary_round_aux, shr_fexp. rewrite Hshift. simpl.
  rewrite Hd.
  replace (fexp prec emax (53 + ez) - ez) with 0
    by (unfold fexp, SpecFloat.emin, prec, emax; lia).
  simpl. unfold prec, emax. rewrite Zle_imp_le_bool; [done|lia].
Qed.

(** An integer below 2^53 is converted without rounding: the mantissa is
    the integer, shifted to 53 digits. *)
Lemma binary_round_small sx p :
  Z.pos p < 2 ^ 53 →
  ∃ m e, binary_round prec emax sx p 0 = S754_finite sx m e
         ∧ -52 <= e <= 0
         ∧ Z.pos m = Z.pos p * 2 ^ (- e)
         ∧ Z.pos (digits2_pos m) = 53.
Proof.
  intros Hlt. pose proof (digits2_pos_small p Hlt) as Hd.
  unfold binary_round.
  assert (fexp prec emax (Z.pos (digits2_pos p) + 0) = Z.pos (digits2_pos p) - 53)
    as -> by (unfold fexp, SpecFloat.emin, prec, emax; lia).
  unfold shl_align. rewrite Z.sub_0_r.
  destruct (Z.pos (digits2_pos p) - 53) as [|q|q] eqn:Hq; [|lia|].
  - exists p, 0. rewrite binary_round_aux_exact_signed by lia.
    split; [done|]. split; [lia|]. split; [simpl; lia|lia].
  - exists (Pos.iter xO p q), (Z.neg q).
    rewrite binary_round_aux_exact_signed; [|rewrite digits2_pos_shift; lia|lia].
    split; [done|]. split; [lia|]. split.
    + rewrite pos_iter_xO. reflexivity.
    + rewrite digits2_pos_shift. lia.
Qed.

Lemma of_int_finite (z : Z) :
  z ≠ 0 → - 2 ^ 53 < z < 2 ^ 53 →
  ∃ m e, of_int z = S754_finite (z <? 0)%Z m e
         ∧ -52 <= e <= 0
         ∧ Z.pos m = Z.abs z * 2 ^ (- e)
         ∧ Z.pos (digits2_pos m) = 53.
Proof.
  intros Hz Hr. destruct z as [|p|p]; [done| |].
  - apply binary_round_small. lia.
  - apply binary_round_small. lia.
Qed.

(** float64 holds every integer of magnitude below 2^53. *)
Lemma of_int_exact (z : Z) :
  - 2 ^ 53 < z < 2 ^ 53 → to_Z (of_int z) = Some z ∧ represents (of_int z) z 1.
Proof.
  intros Hr. destruct (Z.eq_dec z 0) as [->|Hz]; [done|].
  destruct (of_int_finite z Hz Hr) as (m & e & -> & He & Hm & _).
  assert ((if (z <? 0)%Z then Z.neg m else Z.pos m) * 2 ^ (- e) = z * (2 ^ (- e) * 2 ^ (- e)))
    as Hs.
  { destruct (Z.ltb_spec z 0).
    - rewrite <- Pos2Z.opp_pos, Hm. rewrite Z.abs_neq by lia. ring.
    - rewrite Hm, Z.abs_eq by lia. ring. }
  assert (0 < 2 ^ (- e)) as Hpow by (apply Z.pow_pos_nonneg; lia).
  assert ((if (z <? 0)%Z then Z.neg m else Z.pos m) = z * 2 ^ (- e)) as Hsm by nia.
  unfold to_Z, represents. cbn zeta.
  destruct (Z.leb_spec 0 e) as [He0|He0].
  - assert (e = 0) as -> by lia. simpl in Hsm |- *. split; [f_equal|]; lia.
  - rewrite Hsm, Hm. split; [|lia].
    rewrite Z.mod_mul by lia. simpl. by rewrite Z.div_mul by lia.
Qed.

(** A float64 division of two finite floats with mantissas of 53 digits and
    small exponents: the quotient is finite, and it is within one part in
    2^52 of the exact quotient. With [u] the digits the mantissa of the
    quotient stands above the exponent [e1 - e2 - 53], the exact quotient
    in that unit is [m1 * 2^53 / m2]. *)
Lemma div_bounds s1 (m1 : positive) e1 s2 (m2 : positive) e2 :
  Z.pos (digits2_pos m1) = 53 → Z.pos (digits2_pos m2) = 53 →
  -52 <= e1 <= 0 → -52 <= e2 <= 0 →
  ∃ (mq : positive) u,
    div (S754_finite s1 m1 e1) (S754_finite s2 m2 e2)
    = S754_finite (xorb s1 s2) mq (e1 - e2 - 53 + u)
    ∧ 0 <= u <= 2
    ∧ Z.pos (digits2_pos mq) = 53
    ∧ Z.abs (Z.pos mq * 2 ^ u * Z.pos m2 - Z.pos m1 * 2 ^ 53) * 2 ^ 52
      <= Z.pos m1 * 2 ^ 53.
Proof.
  intros Hd1 Hd2 He1 He2. unfold div, SFdiv, SFdiv_core_binary.
  cbn [Zdigits2]. rewrite Hd1, Hd2.
  replace (53 + e1 - (53 + e2)) with (e1 - e2) by lia.
  rewrite fexp_normal by lia.
  rewrite Z.min_l by lia.
  replace (e1 - e2 - (e1 - e2 - 53)) with 53 by lia.
  rewrite Z.shiftl_mul_pow2 by lia.
  pose proof (digits2_pos_lower m1) as L1. pose proof (digits2_pos_upper m1) as U1.
  pose proof (digits2_pos_lower m2) as L2. pose proof (digits2_pos_upper m2) as U2.
  rewrite Hd1 in L1, U1. rewrite Hd2 in L2, U2. change (53 - 1) with 52 in L1, L2.
  pose proof (Z.div_mod (Z.pos m1 * 2 ^ 53) (Z.pos m2) ltac:(lia)) as Hdiv.
  pose proof (Z.mod_pos_bound (Z.pos m1 * 2 ^ 53) (Z.pos m2) ltac:(lia)) as Hmod.
  unfold Z.div, Z.modulo in Hdiv, Hmod.
  destruct (Z.div_eucl (Z.pos m1 * 2 ^ 53) (Z.pos m2)) as [q r].
  assert (2 ^ 52 <= q < 2 ^ 54) as Hq by nia.
  destruct q as [|pq|pq]; [lia| |lia].
  pose proof (digits2_pos_lower pq) as Lq. pose proof (digits2_pos_upper pq) as Uq.
  set (n := Z.pos (digits2_pos pq) - 53) in *.
  assert (0 <= n <= 1) as Hn.
  { unfold n. split.
    - destruct (Z_lt_le_dec (Z.pos (digits2_pos pq)) 53) as [Hlt|]; [|lia].
      assert (2 ^ Z.pos (digits2_pos pq) <= 2 ^ 52)
        by (apply Z.pow_le_mono_r; lia). lia.
    - destruct (Z_lt_le_dec 54 (Z.pos (digits2_pos pq))) as [Hlt|]; [|lia].
      assert (2 ^ 54 <= 2 ^ (Z.pos (digits2_pos pq) - 1))
        by (apply Z.pow_le_mono_r; lia). lia. }
  destruct (binary_round_aux_bounds (xorb s1 s2) pq (e1 - e2 - 53)
              (new_location (Z.pos m2) r))
    as (mq & c & -> & Hc & Hdq & Hval); [fold n; lia..|].
  fold n in Hval |- *.
  exists mq, (n + c). split; [f_equal; lia|]. split; [lia|]. split; [done|].
  replace (Z.pos (digits2_pos pq) - 1) with (n + 52) in Lq by (unfold n; lia).
  rewrite Z.pow_add_r in Lq by lia.
  assert (0 < 2 ^ n) by (apply Z.pow_pos_nonneg; lia).
  nia.
Qed.

Lemma hundred_eq : hundred = S754_finite false 7036874417766400 (-46).
Proof. vm_compute. reflexivity. Qed.

(** The product of a finite float of 53 digits by 100: finite, and within
    one part in 2^52 of the exact product. *)
Lemma mul_hundred_bounds s (m : positive) e :
  Z.pos (digits2_pos m) = 53 → -1000 <= e <= 900 →
  ∃ (mc : positive) w,
    mul (S754_finite s m e) hundred = S754_finite s mc (e - 46 + w)
    ∧ 52 <= w <= 54
    ∧ Z.abs (Z.pos mc * 2 ^ w - Z.pos m * (100 * 2 ^ 46)) * 2 ^ 52
      <= Z.pos m * (100 * 2 ^ 46).
Proof.
  intros Hd He. rewrite hundred_eq. unfold mul, SFmul. rewrite xorb_false_r.
  pose proof (digits2_pos_lower m) as L. pose proof (digits2_pos_upper m) as U.
  rewrite Hd in L, U. change (53 - 1) with 52 in L.
  set (P := (m * 7036874417766400)%positive).
  assert (Z.pos P = Z.pos m * (100 * 2 ^ 46)) as HP by (unfold P; lia).
  pose proof (digits2_pos_lower P) as LP. pose proof (digits2_pos_upper P) as UP.
  set (n := Z.pos (digits2_pos P) - 53) in *.
  assert (52 <= n <= 53) as Hn.
  { unfold n. split.
    - destruct (Z_lt_le_dec (Z.pos (digits2_pos P)) 105) as [Hlt|]; [|lia].
      assert (2 ^ Z.pos (digits2_pos P) <= 2 ^ 104)
        by (apply Z.pow_le_mono_r; lia). lia.
    - destruct (Z_lt_le_dec 106 (Z.pos (digits2_pos P))) as [Hlt|]; [|lia].
      assert (2 ^ 106 <= 2 ^ (Z.pos (digits2_pos P) - 1))
        by (apply Z.pow_le_mono_r; lia). lia. }
  destruct (binary_round_aux_bounds s P (e + -46) loc_Exact)
    as (mc & c & -> & Hc & _ & Hval); [fold n; lia..|].
  fold n in Hval |- *.
  exists mc, (n + c). split; [f_equal; lia|]. split; [lia|].
  replace (Z.pos (digits2_pos P) - 1) with (n + 52) in LP by (unfold n; lia).
  rewrite Z.pow_add_r in LP by lia.
  assert (0 < 2 ^ n) by (apply Z.pow_pos_nonneg; lia).
  rewrite <- HP. nia.
Qed.

(** The float with sign [s], mantissa [m] and exponent [e] is the rational
    [± m * 2^(e + t) / 2^t], for every [t] that makes the exponent of the
    numerator non-negative. *)
Lemma represents_scaled s (m : positive) e t :
  0 <= t → 0 <= e + t →
  represents (S754_finite s m e)
    ((if s then Z.neg m else Z.pos m) * 2 ^ (e + t)) (2 ^ t).
Proof.
  intros Ht Het. unfold represents. cbn zeta.
  destruct (Z.leb_spec 0 e).
  - rewrite Z.pow_add_r by lia. ring.
  - replace t with (e + t + - e) at 1 by lia.
    rewrite Z.pow_add_r by lia. ring.
Qed.

(** Dividing by a positive count and multiplying by 100, in float64, gives
    the quotient times 100 with two roundings, each of at most one part in
    2^52. *)
Lemma quotient_times_hundred_within (d0 v1 : Z) :
  - 2 ^ 53 < d0 < 2 ^ 53 → 0 < v1 < 2 ^ 53 →
  within (mul (div (of_int d0) (of_int v1)) hundred) (100 * d0) v1 50.
Proof.
  intros Hd Hv. destruct (Z.eq_dec d0 0) as [->|Hnz].
  - destruct (of_int_finite v1) as (mb & eb & -> & _); [lia..|].
    exists 0, 1. split; [lia|]. split; [reflexivity|]. simpl. lia.
  - destruct (of_int_finite d0 Hnz Hd) as (ma & ea & -> & Hea & Hma & Hda).
    destruct (of_int_finite v1) as (mb & eb & -> & Heb & Hmb & Hdb); [lia..|].
    replace (v1 <? 0)%Z with false by (symmetry; apply Z.ltb_ge; lia).
    destruct (div_bounds (d0 <? 0)%Z ma ea false mb eb Hda Hdb Hea Heb)
      as (mq & u & -> & Hu & Hdq & H1).
    rewrite xorb_false_r.
    destruct (mul_hundred_bounds (d0 <? 0)%Z mq (ea - eb - 53 + u) Hdq)
      as (mc & w & -> & Hw & H2); [lia|].
    set (t := - ea + 99).
    set (ec := ea - eb - 53 + u - 46 + w).
    exists ((if (d0 <? 0)%Z then Z.neg mc else Z.pos mc) * 2 ^ (ec + t)), (2 ^ t).
    split; [apply Z.pow_pos_nonneg; unfold t; lia|].
    split; [apply represents_scaled; unfold ec, t; lia|].
    rewrite Z.abs_eq in Hmb by lia.
    replace (ec + t) with (- eb + u + w) by (unfold ec, t; lia).
    unfold t. rewrite !Z.pow_add_r by lia.
    assert (0 < 2 ^ u) as Pu by (apply Z.pow_pos_nonneg; lia).
    assert (0 < 2 ^ w) as Pw by (apply Z.pow_pos_nonneg; lia).
    assert (0 < 2 ^ (- ea)) as Pa by (apply Z.pow_pos_nonneg; lia).
    assert (0 < 2 ^ (- eb)) as Pb by (apply Z.pow_pos_nonneg; lia).
    set (A := Z.pos mc * 2 ^ w * 2 ^ u * Z.pos mb).
    set (B := Z.pos mq * 2 ^ u * Z.pos mb) in *.
    set (C := Z.pos ma * 2 ^ 53) in *.
    assert (Z.abs (A - 100 * 2 ^ 46 * B) * 2 ^ 52 <= 100 * 2 ^ 46 * B) as H2'.
    { replace (A - 100 * 2 ^ 46 * B)
        with ((Z.pos mc * 2 ^ w - Z.pos mq * (100 * 2 ^ 46)) * (2 ^ u * Z.pos mb))
        by (unfold A, B; ring).
      rewrite Z.abs_mul, (Z.abs_eq (2 ^ u * Z.pos mb)) by lia.
      replace (100 * 2 ^ 46 * B)
        with (Z.pos mq * (100 * 2 ^ 46) * (2 ^ u * Z.pos mb)) by (unfold B; ring).
      nia. }
    assert (Z.abs (A - 100 * 2 ^ 46 * C) * 2 ^ 50 <= 100 * 2 ^ 46 * C) as Hgoal.
    { assert (0 <= C) by (unfold C; lia). lia. }
    assert (Z.abs (100 * d0) * (2 ^ (- ea) * 2 ^ 99) = 100 * 2 ^ 46 * C) as ->.
    { rewrite Z.abs_mul, (Z.abs_eq 100) by lia. unfold C. rewrite Hma.
      change (2 ^ 99) with (2 ^ 46 * 2 ^ 53). ring. }
    etrans; [|exact Hgoal]. apply Z.mul_le_mono_nonneg_r; [lia|].
    apply Z.eq_le_incl.
    destruct (Z.ltb_spec d0 0) as [Hneg|Hpos].
    + rewrite <- Z.abs_opp. f_equal. rewrite <- Pos2Z.opp_pos.
      unfold A, C. rewrite Hma, Hmb, Z.abs_neq by lia.
      change (2 ^ 99) with (2 ^ 46 * 2 ^ 53). ring.
    + f_equal. unfold A, C. rewrite Hma, Hmb, Z.abs_eq by lia.
      change (2 ^ 99) with (2 ^ 46 * 2 ^ 53). ring.
Qed.

Lemma iter_pos_invariant {A} (f : A → A) (P : A → Prop) :
  (∀ x, P x → P (f x)) → ∀ p x, P x → P (SpecFloat.iter_pos f p x).
Proof. intros Hf. induction p as [p IH|p IH|]; intros x Hx; simpl; auto. Qed.

Lemma shr_nonneg mrs e n : 0 <= shr_m mrs → 0 <= shr_m (shr mrs e n).1.
Proof.
  intros Hm. unfold shr. destruct n as [|p|p]; simpl; [done| |done].
  by apply (iter_pos_invariant shr_1 (λ mrs, 0 <= shr_m mrs) shr_1_nonneg).
Qed.

Lemma shr_fexp_nonneg m e l : 0 <= m → 0 <= shr_m (shr_fexp prec emax m e l).1.
Proof.
  intros Hm. unfold shr_fexp. apply shr_nonneg. by destruct l as [|[]].
Qed.

Lemma round_nearest_even_nonneg m l : 0 <= m → 0 <= round_nearest_even m l.
Proof.
  intros Hm. destruct l as [|[]]; simpl; try lia. destruct (Z.even m); lia.
Qed.

(** Rounding a non-negative mantissa never gives NaN and keeps the sign. *)
Lemma binary_round_aux_sign sx mx ex lx :
  0 <= mx → sign (binary_round_aux prec emax sx mx ex lx) = Some sx.
Proof.
  intros Hm. unfold binary_round_aux.
  pose proof (shr_fexp_nonneg mx ex lx Hm) as H1.
  destruct (shr_fexp prec emax mx ex lx) as [mrs' e']. simpl in H1.
  pose proof (shr_fexp_nonneg _ e' loc_Exact
                (round_nearest_even_nonneg _ (loc_of_shr_record mrs') H1)) as H2.
  destruct (shr_fexp prec emax _ e' loc_Exact) as [mrs'' e'']. simpl in H2.
  destruct (shr_m mrs'') as [|p|p]; [done| |lia].
  by destruct (e'' <=? emax - prec)%Z.
Qed.

Lemma div_finite_sign s1 m1 e1 s2 m2 e2 :
  sign (div (S754_finite s1 m1 e1) (S754_finite s2 m2 e2)) = Some (xorb s1 s2).
Proof.
  unfold div, SFdiv.
  destruct (SFdiv_core_binary prec emax (Z.pos m1) e1 (Z.pos m2) e2)
    as [[mz ez] lz] eqn:Hc.
  apply binary_round_aux_sign. unfold SFdiv_core_binary in Hc.
  match type of Hc with
  | context [Z.div_eucl ?a ?b] =>
      assert (0 <= a) as Ha;
      [|pose proof (Z.div_pos a b Ha ltac:(lia)) as Hq; unfold Z.div in Hq;
        destruct (Z.div_eucl a b) as [q r]; injection Hc as <- _ _; exact Hq]
  end.
  destruct (e1 - e2 - _) as [|p|p]; [lia| |lia].
  by apply Z.shiftl_nonneg.
Qed.

Lemma mul_hundred_sign x s : sign x = Some s → sign (mul x hundred) = Some s.
Proof.
  change hundred with (S754_finite false 7036874417766400 (-46)).
  destruct x as [sx|sx| |sx mx ex]; simpl; intros [= <-].
  - by destruct sx.
  - by destruct sx.
  - rewrite binary_round_aux_sign by lia. by destruct sx.
Qed.

(** The conversion of an integer is never NaN. *)
Lemma of_int_not_nan (z : Z) : of_int z ≠ S754_nan.
Proof.
  assert (∀ sx p, binary_round prec emax sx p 0 ≠ S754_nan) as Hr.
  { intros sx p. unfold binary_round.
    destruct (shl_align p 0 _) as [mz ez]. intros Hnan.
    pose proof (binary_round_aux_sign sx (Z.pos mz) ez loc_Exact ltac:(lia)) as Hs.
    by rewrite Hnan in Hs. }
  destruct z as [|p|p]; [done|apply Hr..].
Qed.

(** Equal non-zero totals: the change is [+0.0]. *)
Lemma pct_change_same (v : Z) :
  0 < v < 2 ^ 53 → pct_change v v = S754_zero false.
Proof.
  intros Hv. unfold pct_change, Int64.sub. rewrite Z.sub_diag.
  destruct (of_int_finite v) as (m & e & -> & _); [lia..|].
  replace (v <? 0)%Z with false by (symmetry; apply Z.ltb_ge; lia).
  reflexivity.
Qed.

(** A zero denominator: the change is an infinity or NaN. *)
Lemma pct_change_zero_denominator (v2 : Z) :
  is_finite (pct_change 0 v2) = false.
Proof.
  unfold pct_change. destruct (of_int (Int64.sub v2 0)); reflexivity.
Qed.

(** With a positive base below 2^53 the change is never NaN, and it is
    negative exactly when the count went down. *)
Lemma pct_change_sign (v1 v2 : Z) :
  0 < v1 < 2 ^ 53 → 0 <= v2 < 2 ^ 53 →
  sign (pct_change v1 v2) = Some (v2 <? v1)%Z.
Proof.
  intros H1 H2. destruct (decide (v2 = v1)) as [->|Hne].
  - rewrite pct_change_same by done. by rewrite Z.ltb_irrefl.
  - unfold pct_change, Int64.sub.
    rewrite wrap64_in_range
      by (unfold Int64.in_range, Int64.half_modulus; lia).
    destruct (of_int_finite (v2 - v1)) as (m & e & -> & _); [lia..|].
    destruct (of_int_finite v1) as (m1 & e1 & -> & _); [lia..|].
    apply mul_hundred_sign. rewrite div_finite_sign.
    replace (v1 <? 0)%Z with false by (symmetry; apply Z.ltb_ge; lia).
    rewrite xorb_false_r. f_equal.
    destruct (Z.ltb_spec (v2 - v1) 0), (Z.ltb_spec v2 v1); try done; lia.
Qed.

(** With a positive base below 2^53 the change is within one part in 2^50
    of the quotient 100 * (v2 - v1) / v1. *)
Lemma pct_change_within (v1 v2 : Z) :
  0 < v1 < 2 ^ 53 → 0 <= v2 < 2 ^ 53 →
  within (pct_change v1 v2) (100 * (v2 - v1)) v1 50.
Proof.
  intros H1 H2. unfold pct_change, Int64.sub.
  rewrite wrap64_in_range
    by (unfold Int64.in_range, Int64.half_modulus; lia).
  apply quotient_times_hundred_within; lia.
Qed.

End float64_facts.

(** ** The comparison *)

Lemma elem_of_inner_merge (l r : list (string * Z)) g v1 v2 :
  (g, v1, v2) ∈ inner_merge l r ↔ (g, v1) ∈ l ∧ (g, v2) ∈ r.
Proof.
  unfold inner_merge. rewrite list_elem_of_bind. split.
  - intros ([g' v1'] & Hin & Hl). apply list_elem_of_fmap in Hin
      as ([g'' v2'] & [= -> -> ->] & [Hg Hr]%list_elem_of_filter).
    simpl in Hg. by subst.
  - intros [Hl Hr]. exists (g, v1). split; [|done].
    apply list_elem_of_fmap. exists (g, v2). split; [done|].
    by apply list_elem_of_filter.
Qed.

Lemma zip_fmap_fmap {A B C} (f : A → B) (h : A → C) (l : list A) :
  zip (f <$> l) (h <$> l) = (λ x, (f x, h x)) <$> l.
Proof. induction l as [|a l IH]; [done|]. simpl. f_equal. exact IH. Qed.

Lemma total_iff (P Q : csv_row → Prop)
    `{!∀ r, Decision (P r), !∀ r, Decision (Q r)} csv :
  (∀ r, P r ↔ Q r) → total P csv = total Q csv.
Proof. intros HPQ. unfold total. f_equal. f_equal. by apply list_filter_iff. Qed.

Lemma filter_key_unique (r : list (string * Z)) g :
  NoDup r.*1 →
  filter (λ p, p.1 = g) r = [] ∨ ∃ v, filter (λ p, p.1 = g) r = [(g, v)].
Proof.
  induction r as [|[k v] r IH]; intros Hnd; [by left|].
  rewrite fmap_cons in Hnd. apply NoDup_cons in Hnd as [Hk Hnd].
  rewrite filter_cons. simpl. case_decide as Hg.
  - right. exists v. subst k. f_equal.
    apply filter_none. intros [k' v'] Hin Hk'. simpl in Hk'. subst k'.
    apply Hk. apply list_elem_of_fmap. by exists (g, v').
  - by apply IH.
Qed.

(** The lines of an inner join follow the order of the left keys. *)
Lemma inner_merge_keys_sublist (l r : list (string * Z)) :
  NoDup r.*1 → (λ '(g, _, _), g) <$> inner_merge l r `sublist_of` l.*1.
Proof.
  intros Hnd. unfold inner_merge.
  induction l as [|[g v1] l IH]; [done|].
  rewrite bind_cons, !fmap_app, fmap_cons. simpl.
  destruct (filter_key_unique r g Hnd) as [->|[v ->]]; simpl.
  - by apply sublist_cons.
  - by apply sublist_skip.
Qed.

Lemma NoDup_groupby_sum_keys d : NoDup (categories d) → NoDup (groupby_sum d).*1.
Proof. intros Hnd. rewrite groupby_sum_keys. by apply NoDup_filter. Qed.

Lemma compare_rows_sublist d year1 year2 :
  NoDup (categories d) →
  (λ '(g, _, _), g) <$> compare_rows d year1 year2 `sublist_of` categories d.
Proof.
  intros Hnd. unfold compare_rows.
  etrans; [apply inner_merge_keys_sublist|].
  - by apply (NoDup_groupby_sum_keys (year_rows d year2)).
  - rewrite groupby_sum_keys. apply sublist_filter.
Qed.

(** The lines of a per-year aggregate of the loaded table: the age groups
    that have a row in that year, each with its int64 sum. *)
Lemma elem_of_year_totals csv y g v :
  (g, v) ∈ groupby_sum (year_rows (load_data csv) y)
  ↔ has_aggregate csv y g ∧ v = Int64.wrap64 (V csv y g).
Proof.
  set (d := year_rows (load_data csv) y).
  pose proof (rows_year_rows csv y) as Hrows. fold d in Hrows.
  rewrite elem_of_groupby_sum.
  rewrite (group_values_selected_ne csv _ d Hrows).
  rewrite (group_values_selected csv _ d Hrows), sum_wrap.
  split.
  - intros (_ & Hr & ->). done.
  - intros [Hr ->]. split; [|done]. destruct Hr as (r & _ & _ & Hg).
    by eapply spec_age_group_elem.
Qed.

Lemma V_exact csv y g :
  counts_ok csv → Int64.wrap64 (V csv y g) = V csv y g ∧ 0 <= V csv y g < 2 ^ 53.
Proof.
  intros Hok. destruct (counts_exact csv (in_cell y g) Hok) as [Hsum Hrange].
  split; [|done]. unfold V, total in *. by rewrite <- sum_wrap.
Qed.

(** The figure of the comparison, line by line. *)
Lemma elem_of_comparison csv y1 y2 g c :
  let m := compare_rows (load_data csv) y1 y2 in
  (g, c) ∈ zip ((λ '(g, _, _), g) <$> m)
               ((λ '(_, v1, v2), pct_change v1 v2) <$> m)
  ↔ has_aggregate csv y1 g ∧ has_aggregate csv y2 g
    ∧ c = pct_change (Int64.wrap64 (V csv y1 g)) (Int64.wrap64 (V csv y2 g)).
Proof.
  intros m. rewrite zip_fmap_fmap, list_elem_of_fmap. split.
  - intros ([[g' v1] v2] & Heq & Hin). cbn beta iota in Heq.
    injection Heq as -> ->. unfold m, compare_rows in Hin.
    apply elem_of_inner_merge in Hin as [H1 H2].
    apply elem_of_year_totals in H1 as [? ->].
    apply elem_of_year_totals in H2 as [? ->]. split; [|split]; trivial.
  - intros (H1 & H2 & ->).
    exists (g, Int64.wrap64 (V csv y1 g), Int64.wrap64 (V csv y2 g)).
    split; [cbn beta iota; reflexivity|]. apply elem_of_inner_merge.
    split; apply elem_of_year_totals; split; trivial.
Qed.

Lemma elem_of_comparison_keys csv y1 y2 g :
  g ∈ (λ '(g, _, _), g) <$> compare_rows (load_data csv) y1 y2
  ↔ has_aggregate csv y1 g ∧ has_aggregate csv y2 g.
Proof.
  rewrite list_elem_of_fmap. split.
  - intros ([[g' v1] v2] & -> & Hin). unfold compare_rows in Hin.
    apply elem_of_inner_merge in Hin as [H1 H2].
    apply elem_of_year_totals in H1 as [? _].
    by apply elem_of_year_totals in H2 as [? _].
  - intros [H1 H2].
    exists (g, Int64.wrap64 (V csv y1 g), Int64.wrap64 (V csv y2 g)).
    split; [done|]. apply elem_of_inner_merge.
    split; by apply elem_of_year_totals.
Qed.

(** C2, in float64. For a table of non-negative counts that add up without
    overflow and two distinct years, the comparison builder returns one line
    for each age group that has an aggregate in both years and no other
    line. The change of a line is the float64 result of dividing V2 - V1 by
    V1 and multiplying the quotient by 100, each operation rounded to
    nearest; when V1 is not zero it is a finite float whose distance to the
    quotient 100 * (V2 - V1) / V1 is at most that quotient over 2^50. *)
Theorem comparison_change
    (csv : list csv_row) (s : store) (df data : loc) (dg : dataframe)
    (year1 year2 : Z) :
  s !! data = Some (Records (load_data csv)) →
  s !! df = Some (Records dg) →
  counts_ok csv →
  year1 ≠ year2 →
  ∃ fig s',
    generate_comparison_chart df data year1 year2 s = Some (fig, s')
    ∧ length (cmp_x fig) = length (cmp_y fig)
    ∧ NoDup (cmp_x fig)
    ∧ (∀ g, g ∈ cmp_x fig
            ↔ has_aggregate csv year1 g ∧ has_aggregate csv year2 g)
    ∧ (∀ g c, (g, c) ∈ zip (cmp_x fig) (cmp_y fig)
              ↔ has_aggregate csv year1 g ∧ has_aggregate csv year2 g
                ∧ c = pct_change (V csv year1 g) (V csv year2 g))
    ∧ (∀ g c, (g, c) ∈ zip (cmp_x fig) (cmp_y fig) →
              V csv year1 g ≠ 0 →
              Float64.within c (100 * (V csv year2 g - V csv year1 g))
                (V csv year1 g) 50).
Proof.
  intros Hd Hdf Hok Hne.
  destruct (generate_comparison_chart_run s df data _ dg year1 year2 Hd Hdf Hne)
    as [ext Hrun].
  eexists _, _. split; [exact Hrun|]. cbn [cmp_x cmp_y].
  split; [|split; [|split; [|split]]].
  - by rewrite !length_fmap.
  - pose proof (compare_rows_sublist (load_data csv) year1 year2
                  NoDup_age_groups) as Hsub.
    exact (sublist_NoDup _ _ NoDup_age_groups Hsub).
  - intros g. apply elem_of_comparison_keys.
  - intros g c. rewrite elem_of_comparison.
    by rewrite (proj1 (V_exact csv year1 g Hok)), (proj1 (V_exact csv year2 g Hok)).
  - intros g c (_ & _ & ->)%elem_of_comparison Hnz.
    destruct (V_exact csv year1 g Hok) as [-> R1].
    destruct (V_exact csv year2 g Hok) as [-> R2].
    apply pct_change_within; lia.
Qed.

(** C5. An age group whose year-1 total is zero: the builder returns, the
    age group keeps its line, and the change of that line is an infinity or
    NaN. *)
Theorem comparison_zero_total
    (csv : list csv_row) (s : store) (df data : loc) (dg : dataframe)
    (year1 year2 : Z) (g : string) :
  s !! data = Some (Records (load_data csv)) →
  s !! df = Some (Records dg) →
  year1 ≠ year2 →
  has_aggregate csv year1 g →
  has_aggregate csv year2 g →
  Int64.wrap64 (V csv year1 g) = 0 →
  ∃ fig s' c,
    generate_comparison_chart df data year1 year2 s = Some (fig, s')
    ∧ (g, c) ∈ zip (cmp_x fig) (cmp_y fig)
    ∧ Float64.is_finite c = false.
Proof.
  intros Hd Hdf Hne H1 H2 Hzero.
  destruct (generate_comparison_chart_run s df data _ dg year1 year2 Hd Hdf Hne)
    as [ext Hrun].
  eexists _, _, _. split; [exact Hrun|]. cbn [cmp_x cmp_y]. split.
  - apply elem_of_comparison. split; [done|]. split; [done|]. reflexivity.
  - rewrite Hzero. apply pct_change_zero_denominator.
Qed.

(** C7, for non-zero totals. Two distinct years with the same total in every age
    group, none of them zero: every change is [+0.0]. *)
Theorem comparison_identical_years
    (csv : list csv_row) (s : store) (df data : loc) (dg : dataframe)
    (year1 year2 : Z) :
  s !! data = Some (Records (load_data csv)) →
  s !! df = Some (Records dg) →
  counts_ok csv →
  year1 ≠ year2 →
  (∀ g, V csv year1 g = V csv year2 g) →
  (∀ g, has_aggregate csv year1 g → V csv year1 g ≠ 0) →
  ∃ fig s',
    generate_comparison_chart df data year1 year2 s = Some (fig, s')
    ∧ Forall (λ c, c = S754_zero false) (cmp_y fig).
Proof.
  intros Hd Hdf Hok Hne Hsame Hnz.
  destruct (generate_comparison_chart_run s df data _ dg year1 year2 Hd Hdf Hne)
    as [ext Hrun].
  eexists _, _. split; [exact Hrun|]. cbn [cmp_y].
  apply Forall_fmap, Forall_forall. intros [[g v1] v2] Hin.
  cbn beta iota delta [compose].
  apply elem_of_inner_merge in Hin as [H1 H2].
  apply elem_of_year_totals in H1 as [H1 ->].
  apply elem_of_year_totals in H2 as [_ ->].
  rewrite <- Hsame, (proj1 (V_exact csv year1 g Hok)). apply pct_change_same.
  pose proof (proj2 (V_exact csv year1 g Hok)). specialize (Hnz g H1). lia.
Qed.

(** ** The trend *)

Lemma grouped_spec (cats : list string) (r : row) :
  grouped cats r ↔ ∃ g, g ∈ cats ∧ AgeGroup r = Some g.
Proof.
  unfold grouped. destruct (AgeGroup r) as [g|]; split.
  - intros Hg%bool_decide_unpack. by exists g.
  - intros (g' & Hg' & [= ->]). by apply bool_decide_pack.
  - intros [].
  - by intros (g' & _ & ?).
Qed.

Lemma elem_of_trend_index d y :
  y ∈ trend_index d
  ↔ ∃ r, r ∈ rows d ∧ grouped (categories d) r ∧ Time (rec r) = y.
Proof.
  unfold trend_index.
  rewrite merge_sort_Permutation, elem_of_remove_dups, list_elem_of_fmap.
  split.
  - intros (r & -> & [? ?]%list_elem_of_filter). by exists r.
  - intros (r & Hr & Hg & <-). exists r. split; [done|].
    by apply list_elem_of_filter.
Qed.

(** The pivot table has a line exactly when some row has an age group. *)
Lemma trend_index_nonempty d : trend_index d ≠ [] ↔ has_grouped_row d.
Proof.
  split.
  - destruct (trend_index d) as [|y l] eqn:Hidx; [done|]. intros _.
    assert (y ∈ trend_index d) as Hy by (rewrite Hidx; left).
    apply elem_of_trend_index in Hy as (r & Hr & (g & Hg & Hrg)%grouped_spec & _).
    by exists r, g.
  - intros (r & g & Hr & Hg & Hrg) Hnil.
    assert (Time (rec r) ∈ trend_index d) as Hy.
    { apply elem_of_trend_index. exists r. split; [done|]. split; [|done].
      apply grouped_spec. by exists g. }
    rewrite Hnil in Hy. by apply elem_of_nil in Hy.
Qed.

Lemma has_grouped_row_loaded csv :
  has_grouped_row (load_data csv) ↔ ∃ r, r ∈ csv ∧ AgeEnd r ∈ mapping_keys.
Proof.
  unfold has_grouped_row. rewrite rows_load_data. split.
  - intros (r & g & (r0 & -> & Hr0)%list_elem_of_fmap & _ & Hg).
    exists r0. split; [done|]. apply spec_age_group_keys. by eexists.
  - intros (r & Hr & [g Hg]%spec_age_group_keys). exists (loaded r), g.
    split; [apply list_elem_of_fmap; by exists r|].
    split; [by apply (spec_age_group_elem (AgeEnd r))|done].
Qed.

Lemma trend_of_series d :
  trend_of d
  = trend_series d <$> filter (λ g, group_values (rows d) g ≠ []) (categories d).
Proof.
  unfold trend_of, groupby_sum_unstack, trend_cells. cbn [snd].
  rewrite <- !list_fmap_compose. apply list_fmap_ext. intros _ g _.
  unfold compose, unstack_column, trend_series. cbn [fst snd].
  by rewrite <- list_fmap_compose.
Qed.

(** The builder returns the series of the pivot table when the table has a
    row with an age group, and raises when it has none. *)
Lemma generate_population_trend_series s data d :
  s !! data = Some (Records d) →
  has_grouped_row d →
  ∃ ext,
    generate_population_trend data s
    = Some (trend_series d
              <$> filter (λ g, group_values (rows d) g ≠ []) (categories d),
            s ++ ext).
Proof.
  intros Hd Hg%trend_index_nonempty.
  destruct (generate_population_trend_run s data d Hd Hg) as [ext ->].
  exists ext. do 2 f_equal. apply trend_of_series.
Qed.

Lemma generate_population_trend_outcome s data d :
  s !! data = Some (Records d) →
  fst <$> generate_population_trend data s
  = if decide (trend_index d = []) then None else Some (trend_of d).
Proof.
  intros Hd. case_decide as Hidx.
  - by rewrite (generate_population_trend_raises s data d Hd Hidx).
  - by destruct (generate_population_trend_run s data d Hd Hidx) as [ext ->].
Qed.

Lemma trend_cell_Some d y g v :
  trend_cell d y g = Some v
  ↔ group_values (rows (year_rows d y)) g ≠ []
    ∧ v = Int64.sum (group_values (rows (year_rows d y)) g).
Proof.
  unfold trend_cell, year_rows, select. cbn [rows].
  destruct (group_values _ g) as [|v' vs]; split; try done.
  - by intros [? _].
  - by intros [= <-].
  - by intros [_ ->].
Qed.

Lemma trend_cell_default d y g :
  default 0 (trend_cell d y g)
  = Int64.sum (group_values (rows (year_rows d y)) g).
Proof.
  unfold trend_cell, year_rows, select. cbn [rows].
  by destruct (group_values _ g).
Qed.

(** A sum is never a gap, whatever the type of the frame. *)
Lemma is_gap_unstack_cell b c :
  is_gap (unstack_cell b c) = bool_decide (c = None).
Proof.
  destruct c as [v|]; [|done]. simpl. destruct b; [done|].
  pose proof (of_int_not_nan v) as Hv. simpl. by destruct (Float64.of_int v).
Qed.

(** A sum below 2^53 is shown as it is, whatever the type of the frame. *)
Lemma count_unstack_cell b v :
  - 2 ^ 53 < v < 2 ^ 53 → count (unstack_cell b (Some v)) = Some v.
Proof. intros Hv. destruct b; [done|]. simpl. by apply of_int_exact. Qed.

Lemma point_at_fmap (f : Z → number) (l : list Z) y :
  point_at y (zip l (f <$> l))
  = if decide (y ∈ l) then (if is_gap (f y) then None else Some (f y))
    else None.
Proof.
  induction l as [|x l IH]; [done|]. rewrite fmap_cons. cbn [zip zip_with point_at].
  destruct (decide (x = y)) as [->|Hx].
  - by rewrite decide_True by left.
  - rewrite IH. destruct (decide (y ∈ l)) as [Hin|Hout].
    + by rewrite decide_True by (by right).
    + rewrite decide_False; [done|]. intros [->|?]%elem_of_cons; done.
Qed.

(** The point of a series at a year: the sum of the cell, when the year is
    on the axis and the cell is not missing. *)
Lemma point_at_cell d g y :
  point_at y (zip (area_x (trend_series d g)) (area_y (trend_series d g)))
  = (λ v, unstack_cell (complete (trend_cells d)) (Some v))
      <$> (if decide (y ∈ trend_index d) then trend_cell d y g else None).
Proof.
  cbn [trend_series area_x area_y].
  rewrite (point_at_fmap (λ y, unstack_cell _ (trend_cell d y g))).
  case_decide; [|done]. rewrite is_gap_unstack_cell.
  by destruct (trend_cell d y g).
Qed.

Lemma zsum_fmap_filter {A} (f : A → Z) (Q : A → Prop) `{∀ x, Decision (Q x)}
    (l : list A) :
  (∀ x, x ∈ l → ¬ Q x → f x = 0) →
  zsum (f <$> filter Q l) = zsum (f <$> l).
Proof.
  induction l as [|x l IH]; intros Hz; [done|].
  rewrite filter_cons, fmap_cons, zsum_cons.
  rewrite <- IH by (intros x' Hx'; apply Hz; by right).
  case_decide as Hx.
  - by rewrite fmap_cons, zsum_cons.
  - rewrite (Hz x); [done|by left|done].
Qed.

(** The cells of the loaded table. *)
Lemma trend_cell_loaded csv y g v :
  trend_cell (load_data csv) y g = Some v
  ↔ has_aggregate csv y g ∧ v = Int64.wrap64 (V csv y g).
Proof.
  rewrite trend_cell_Some.
  pose proof (rows_year_rows csv y) as Hrows.
  rewrite (group_values_selected_ne csv _ (year_rows (load_data csv) y) Hrows).
  by rewrite (group_values_selected csv _ (year_rows (load_data csv) y) Hrows),
    sum_wrap.
Qed.

Lemma trend_index_loaded csv y :
  y ∈ trend_index (load_data csv)
  ↔ ∃ r, r ∈ csv ∧ Time r = y ∧ AgeEnd r ∈ mapping_keys.
Proof.
  rewrite elem_of_trend_index, rows_load_data. split.
  - intros (r & (r0 & -> & Hr0)%list_elem_of_fmap
              & (g & _ & Hg)%grouped_spec & Ht).
    exists r0. split; [done|]. split; [done|].
    apply spec_age_group_keys. by eexists.
  - intros (r & Hr & Ht & Hk). exists (loaded r).
    split; [apply list_elem_of_fmap; by exists r|].
    split; [by apply grouped_loaded|done].
Qed.

(** The count a series of the loaded table shows at a year, when the counts
    add up without overflow: the total of its age group in that year. *)
Lemma value_at_loaded csv y g :
  counts_ok csv →
  value_at (trend_series (load_data csv) g) y
  = Int64.sum (group_values (rows (year_rows (load_data csv) y)) g).
Proof.
  intros Hok. unfold value_at. rewrite point_at_cell.
  rewrite <- trend_cell_default.
  assert (∀ v, trend_cell (load_data csv) y g = Some v → - 2 ^ 53 < v < 2 ^ 53)
    as Hrange.
  { intros v [_ ->]%trend_cell_loaded.
    destruct (V_exact csv y g Hok) as [-> ?]. lia. }
  destruct (decide (y ∈ trend_index (load_data csv))) as [Hy|Hy].
  - destruct (trend_cell (load_data csv) y g) as [v|] eqn:Hc; [|done].
    cbn [fmap option_fmap option_map mbind option_bind].
    by rewrite count_unstack_cell by (by apply Hrange).
  - cbn [fmap option_fmap option_map mbind option_bind default].
    destruct (trend_cell (load_data csv) y g) as [v|] eqn:Hc; [|done].
    exfalso. apply Hy. apply trend_cell_loaded in Hc as [(r & Hr & <- & Hg) _].
    apply trend_index_loaded. exists r. split; [done|]. split; [done|].
    apply spec_age_group_keys. by eexists.
Qed.

(** C4, without the rows that have no age group. For a table of
    non-negative counts that add up without overflow in which some row has
    an age group, the builder returns, and at every year the counts the
    series show add up to the total of the rows of that year whose [AgeEnd]
    is a key of the mapping table: the total of the year less the rows
    without an age group. Every value shown is an exact count, and a year
    that has a row with an age group is on the axis of every series. *)
Theorem trend_year_totals
    (csv : list csv_row) (s : store) (data : loc) (y : Z) :
  s !! data = Some (Records (load_data csv)) →
  counts_ok csv →
  (∃ r, r ∈ csv ∧ AgeEnd r ∈ mapping_keys) →
  ∃ fig s',
    generate_population_trend data s = Some (fig, s')
    ∧ zsum ((λ t, value_at t y) <$> fig)
      + total (λ r, Time r = y ∧ AgeEnd r ∉ mapping_keys) csv
      = total (λ r, Time r = y) csv
    ∧ Forall (λ t, ∀ n, point_at y (zip (area_x t) (area_y t)) = Some n →
                        is_Some (count n)) fig
    ∧ ((∃ r, r ∈ csv ∧ Time r = y ∧ AgeEnd r ∈ mapping_keys) →
       Forall (λ t, y ∈ area_x t) fig).
Proof.
  intros Hd Hok Hsome%has_grouped_row_loaded.
  destruct (generate_population_trend_series s data _ Hd Hsome) as [ext Hrun].
  eexists _, _. split; [exact Hrun|].
  set (d := load_data csv). split; [|split].
  - rewrite (total_split (λ r, Time r = y) (λ r, AgeEnd r ∈ mapping_keys)).
    f_equal. rewrite <- list_fmap_compose.
    transitivity
      (zsum ((λ g, Int64.sum (group_values (rows (year_rows d y)) g))
               <$> filter (λ g, group_values (rows d) g ≠ []) (categories d))).
    { f_equal. apply list_fmap_ext. intros _ g _. unfold compose.
      by apply value_at_loaded. }
    rewrite zsum_fmap_filter.
    + change (categories d) with (categories (year_rows d y)).
      rewrite <- groupby_sum_values.
      apply (selected_totals_sum_mapped csv (λ r, Time r = y) (year_rows d y)
               eq_refl (rows_year_rows csv y) Hok).
    + intros g _ Hg. apply dec_stable in Hg.
      assert (group_values (rows (year_rows d y)) g = []) as ->; [|done].
      apply elem_of_nil_inv. intros v Hv.
      assert (group_values (rows (year_rows d y)) g ≠ []) as Hne
        by (intros Hnil; rewrite Hnil in Hv; by apply elem_of_nil in Hv).
      apply group_values_elem in Hne as (r & [_ Hr]%list_elem_of_filter & Hrg).
      assert (group_values (rows d) g ≠ []) as Hne'
        by (apply group_values_elem; eauto).
      done.
  - apply Forall_fmap, Forall_forall. intros g _ n. unfold compose.
    rewrite point_at_cell. case_decide; [|done].
    destruct (trend_cell d y g) as [v|] eqn:Hc; [|done].
    cbn [fmap option_fmap option_map]. intros [= <-].
    apply trend_cell_loaded in Hc as [_ ->].
    destruct (V_exact csv y g Hok) as [-> ?].
    exists (V csv y g). apply (count_unstack_cell (complete (trend_cells d))). lia.
  - intros Hy%trend_index_loaded. apply Forall_fmap, Forall_forall.
    intros g _. exact Hy.
Qed.

(** ** The builders and the table *)

(** C10. Each view builder leaves the loaded table, and every other object
    that existed before the call, unchanged: what a builder writes is an
    object it has made itself. The pyramid and the comparison return. The
    trend makes its pivot table, a new object, and [px.area] draws the
    figure from it without touching the store: the builder returns with the
    store it had once the pivot table was made when some row has an age
    group, and [px.area] raises in that store when none has. *)
Theorem builders_leave_table_unchanged
    (s : store) (df data : loc) (d dg : dataframe) (year year1 year2 : Z) :
  s !! data = Some (Records d) →
  s !! df = Some (Records dg) →
  year1 ≠ year2 →
  (∃ fig s', generate_population_pyramid data year s = Some (fig, s')
             ∧ s' !! data = Some (Records d) ∧ preserves s s')
  ∧ (∃ df_trend s',
       groupby_time_agegroup_sum_unstack data s = Some (df_trend, s')
       ∧ s' !! data = Some (Records d) ∧ preserves s s'
       ∧ (has_grouped_row d →
          ∃ fig, generate_population_trend data s = Some (fig, s'))
       ∧ (¬ has_grouped_row d → generate_population_trend data s = None))
  ∧ (∃ fig s', generate_comparison_chart df data year1 year2 s = Some (fig, s')
               ∧ s' !! data = Some (Records d) ∧ preserves s s').
Proof.
  intros Hd Hdf Hne. split; [|split].
  - destruct (generate_population_pyramid_run s data d year Hd) as [ext Hrun].
    eexists _, _. split; [exact Hrun|].
    split; [by apply lookup_app_l_Some|apply preserves_app].
  - eexists _, _.
    split; [by apply groupby_time_agegroup_sum_unstack_run|].
    split; [by apply lookup_app_l_Some|]. split; [apply preserves_app|].
    rewrite (generate_population_trend_pivot s data d Hd). unfold px_area.
    split.
    + intros Hg%trend_index_nonempty. rewrite decide_False by done.
      by eexists.
    + intros Hg. rewrite decide_True; [done|].
      destruct (decide (trend_index d = [])) as [|Hidx]; [done|].
      by apply trend_index_nonempty in Hidx.
  - destruct (generate_comparison_chart_run s df data d dg year1 year2 Hd Hdf Hne)
      as [ext Hrun].
    eexists _, _. split; [exact Hrun|].
    split; [by apply lookup_app_l_Some|apply preserves_app].
Qed.

(** ** Tables with the same groups *)

Lemma filter_all {A} (l : list A) : filter (λ _, True) l = l.
Proof.
  induction l as [|x l IH]; [done|]. by rewrite filter_cons_True, IH.
Qed.

Section same_groups.
Context (d d' : dataframe) (Hsame : same_groups d d').

Lemma same_groups_values g : group_values (rows d) g ≡ₚ group_values (rows d') g.
Proof.
  destruct Hsame as [_ Hall]. destruct (Hall (λ _, True) _) as [Hg _].
  specialize (Hg g). by rewrite !filter_all in Hg.
Qed.

Lemma same_groups_select (P : row → Prop) `{∀ r, Decision (P r)} :
  same_groups (select P d) (select P d').
Proof.
  destruct Hsame as [Hcat Hall]. split; [done|]. intros Q HQ.
  unfold select. cbn [rows categories]. rewrite !(list_filter_filter Q P).
  apply (Hall (λ r, Q r ∧ P r) _).
Qed.

Lemma same_groups_groupby_sum : groupby_sum d = groupby_sum d'.
Proof.
  rewrite !groupby_sum_spec. destruct Hsame as [<- _].
  assert (∀ g, group_values (rows d) g ≠ [] ↔ group_values (rows d') g ≠ [])
    as Hne.
  { intros g. pose proof (same_groups_values g) as Hp. split; intros Hg Hnil.
    - rewrite Hnil in Hp. by apply Permutation_nil_r in Hp.
    - rewrite Hnil in Hp. by apply Permutation_nil_l in Hp. }
  rewrite (list_filter_iff _ _ _ Hne). apply list_fmap_ext. intros _ g _.
  f_equal. rewrite !sum_wrap. f_equal. apply zsum_Permutation, same_groups_values.
Qed.

Lemma same_groups_trend_index : trend_index d = trend_index d'.
Proof.
  unfold trend_index. destruct Hsame as [Hcat Hall].
  destruct (Hall (λ _, True) _) as [_ Ht]. rewrite !filter_all in Ht.
  rewrite <- Hcat.
  apply (Sorted_unique Z.le).
  - apply Sorted_merge_sort. apply _.
  - apply Sorted_merge_sort. apply _.
  - rewrite !merge_sort_Permutation.
    apply NoDup_Permutation; [apply NoDup_remove_dups..|].
    intros y. rewrite !elem_of_remove_dups. by rewrite Ht.
Qed.

Lemma same_groups_trend_cell y g : trend_cell d y g = trend_cell d' y g.
Proof.
  unfold trend_cell. destruct Hsame as [_ Hall].
  destruct (Hall (λ r, Time (rec r) = y) _) as [Hg _]. specialize (Hg g).
  destruct (group_values (filter _ (rows d)) g) as [|v vs] eqn:Hv.
  - apply Permutation_nil_l in Hg. by rewrite <- Hg.
  - destruct (group_values (filter _ (rows d')) g) as [|v' vs'] eqn:Hv'.
    + by apply Permutation_nil_r in Hg.
    + f_equal. rewrite !sum_wrap. f_equal. by apply zsum_Permutation.
Qed.

Lemma same_groups_trend_cells : trend_cells d = trend_cells d'.
Proof.
  unfold trend_cells. rewrite same_groups_trend_index.
  assert (filter (λ g, group_values (rows d) g ≠ []) (categories d)
          = filter (λ g, group_values (rows d') g ≠ []) (categories d')) as ->.
  { pose proof same_groups_groupby_sum as Hs.
    apply (f_equal (fmap fst)) in Hs. by rewrite !groupby_sum_keys in Hs. }
  apply list_fmap_ext. intros _ g _. f_equal.
  apply list_fmap_ext. intros _ y _. apply same_groups_trend_cell.
Qed.

Lemma same_groups_unstack : groupby_sum_unstack d = groupby_sum_unstack d'.
Proof.
  unfold groupby_sum_unstack.
  by rewrite same_groups_trend_index, same_groups_trend_cells.
Qed.

End same_groups.

Lemma same_groups_Permutation (d d' : dataframe) :
  categories d = categories d' → rows d ≡ₚ rows d' → same_groups d d'.
Proof.
  intros Hcat Hrows. split; [done|]. intros P HP. split.
  - intros g. apply group_values_Permutation. by rewrite Hrows.
  - by rewrite Hrows.
Qed.

(** A row without an age group can be left out. *)
Lemma same_groups_drop (cats : list string) (a b : list row) (x : row) :
  AgeGroup x = None →
  same_groups {| categories := cats; rows := a ++ x :: b |}
              {| categories := cats; rows := a ++ b |}.
Proof.
  intros Hx. split; [done|]. intros P HP. cbn [rows categories].
  rewrite !filter_app, filter_cons. split.
  - intros g. rewrite !group_values_app. case_decide; [|done].
    by rewrite group_values_cons, Hx, decide_False.
  - case_decide; [|done]. rewrite filter_cons_False; [done|].
    unfold grouped. rewrite Hx. by intros [].
Qed.

(** The figures of two tables that have the same groups: the pyramids are
    the same, the comparisons are the same, and the trend has the same
    outcome, a figure or the exception of [px.area]. *)
Lemma builders_same_groups
    (s s' : store) (data data' df df' : loc) (d d' dg dg' : dataframe)
    (year year1 year2 : Z) :
  s !! data = Some (Records d) → s' !! data' = Some (Records d') →
  s !! df = Some (Records dg) → s' !! df' = Some (Records dg') →
  same_groups d d' → categories dg = categories dg' → year1 ≠ year2 →
  (fst <$> generate_population_pyramid data year s = Some (pyramid_of d year)
   ∧ fst <$> generate_population_pyramid data' year s'
     = Some (pyramid_of d year))
  ∧ fst <$> generate_population_trend data s
    = fst <$> generate_population_trend data' s'
  ∧ ∃ c,
      (fst <$> generate_comparison_chart df data year1 year2 s = Some c
       ∧ fst <$> generate_comparison_chart df' data' year1 year2 s' = Some c)
      ∧ cmp_x c = (λ '(g, _, _), g) <$> compare_rows d year1 year2
      ∧ categoryarray c = categories dg.
Proof.
  intros Hd Hd' Hdf Hdf' Hsame Hcat Hne.
  destruct (generate_population_pyramid_run s data d year Hd) as [e1 ->].
  destruct (generate_population_pyramid_run s' data' d' year Hd') as [e1' ->].
  rewrite (generate_population_trend_outcome s data d Hd).
  rewrite (generate_population_trend_outcome s' data' d' Hd').
  destruct (generate_comparison_chart_run s df data d dg year1 year2 Hd Hdf Hne)
    as [e3 ->].
  destruct (generate_comparison_chart_run s' df' data' d' dg' year1 year2 Hd' Hdf' Hne)
    as [e3' ->].
  assert (∀ y, groupby_sum (year_rows d' y) = groupby_sum (year_rows d y)) as Hy.
  { intros y. symmetry. by apply same_groups_groupby_sum, same_groups_select. }
  assert (∀ y sex, groupby_sum (sex_rows (year_rows d' y) sex)
                   = groupby_sum (sex_rows (year_rows d y) sex)) as Hys.
  { intros y sex. symmetry.
    by apply same_groups_groupby_sum, same_groups_select, same_groups_select. }
  cbn [fmap option_fmap option_map fst]. unfold pyramid_of.
  split; [split; [reflexivity|by rewrite !Hys]|]. split.
  - unfold trend_of.
    by rewrite <- (same_groups_unstack d d' Hsame),
         <- (same_groups_trend_index d d' Hsame).
  - eexists. split; [split; [reflexivity|]|by split].
    unfold compare_rows. by rewrite !Hy, Hcat.
Qed.

(** C6. A row whose [AgeEnd] is not a key of the mapping table takes part
    in no grouped sum: the pyramid and the comparison are the figures of
    the table without that row, and so is the trend when some other row has
    an age group; when none has, [px.area] raises for the table with the
    row as it does for the table without it. *)
Theorem unmapped_row_excluded
    (l1 l2 : list csv_row) (r : csv_row) (s s' : store) (data data' : loc)
    (year year1 year2 : Z) :
  AgeEnd r ∉ mapping_keys →
  s !! data = Some (Records (load_data (l1 ++ r :: l2))) →
  s' !! data' = Some (Records (load_data (l1 ++ l2))) →
  year1 ≠ year2 →
  (∃ p, fst <$> generate_population_pyramid data year s = Some p
        ∧ fst <$> generate_population_pyramid data' year s' = Some p)
  ∧ (∃ c, fst <$> generate_comparison_chart data data year1 year2 s = Some c
          ∧ fst <$> generate_comparison_chart data' data' year1 year2 s'
            = Some c)
  ∧ ((∃ r', r' ∈ l1 ++ l2 ∧ AgeEnd r' ∈ mapping_keys) →
     ∃ t, fst <$> generate_population_trend data s = Some t
          ∧ fst <$> generate_population_trend data' s' = Some t)
  ∧ ((∀ r', r' ∈ l1 ++ l2 → AgeEnd r' ∉ mapping_keys) →
     generate_population_trend data s = None
     ∧ generate_population_trend data' s' = None).
Proof.
  intros Hr Hd Hd' Hne.
  assert (same_groups (load_data (l1 ++ r :: l2)) (load_data (l1 ++ l2))) as Hsame.
  { assert (AgeGroup (loaded r) = None) as Hnone.
    { simpl. destruct (spec_age_group (AgeEnd r)) eqn:Hg; [|done].
      exfalso. apply Hr, spec_age_group_keys. by eexists. }
    pose proof (same_groups_drop age_groups (loaded <$> l1) (loaded <$> l2)
                  (loaded r) Hnone) as Hdrop.
    rewrite <- fmap_cons, <- !fmap_app, <- !rows_load_data in Hdrop.
    exact Hdrop. }
  destruct (builders_same_groups s s' data data' data data' _ _ _ _
              year year1 year2 Hd Hd' Hd Hd' Hsame eq_refl Hne)
    as (Hp & Ht & c & Hc & _).
  split; [by eexists|]. split; [by eexists|]. split.
  - intros Hsome%has_grouped_row_loaded.
    destruct (generate_population_trend_series s' data' _ Hd' Hsome) as [ext Hrun].
    eexists. rewrite Ht, Hrun. by split.
  - intros Hnone.
    assert (trend_index (load_data (l1 ++ l2)) = []) as Hnil.
    { destruct (decide (trend_index (load_data (l1 ++ l2)) = []))
        as [|Hidx]; [done|].
      apply trend_index_nonempty, has_grouped_row_loaded in Hidx
        as (r' & Hr' & Hk). by destruct (Hnone r' Hr'). }
    pose proof (generate_population_trend_raises s' data' _ Hd' Hnil) as Hraise.
    split; [|done]. rewrite Hraise in Ht.
    by destruct (generate_population_trend data s).
Qed.

(** ** The order of the age groups in the figures *)

Lemma first_occurrences_NoDup (l : list string) :
  NoDup l → first_occurrences l = l.
Proof.
  induction 1 as [|x l Hx _ IH]; [done|]. simpl. rewrite IH. f_equal.
  apply filter_every. by intros g Hg ->.
Qed.

(** The axis that two series share: the labels of the first series, then
    the labels that only the second has. *)
Lemma first_occurrences_app (h m : list string) :
  NoDup h → NoDup m →
  first_occurrences (h ++ m) = h ++ filter (λ g, g ∉ h) m.
Proof.
  intros Hh Hm. induction Hh as [|x h Hx _ IH].
  - simpl. rewrite first_occurrences_NoDup by done. symmetry.
    apply filter_every. intros g _. apply not_elem_of_nil.
  - simpl. rewrite IH, filter_app. f_equal. f_equal.
    + apply filter_every. by intros g Hg ->.
    + rewrite list_filter_filter. apply list_filter_iff. intros g.
      rewrite not_elem_of_cons. tauto.
Qed.

(** Whatever the order of the rows of the input, the builders return the
    same figures, and the age groups of every series (the bars of the
    pyramid, the areas of the trend, the bars of the comparison) follow the
    listed order of the 17 labels, which is also the category order of the
    axis of the comparison. The vertical axis of the pyramid lists the age
    groups of the men, then those that only the women have: it follows the
    listed order when every age group of the women is one of the men. *)
Theorem age_groups_canonical_order
    (csv csv' : list csv_row) (s s' : store) (data data' : loc)
    (year year1 year2 : Z) :
  csv ≡ₚ csv' →
  s !! data = Some (Records (load_data csv)) →
  s' !! data' = Some (Records (load_data csv')) →
  year1 ≠ year2 →
  ∃ p c,
    (fst <$> generate_population_pyramid data year s = Some p
     ∧ fst <$> generate_population_pyramid data' year s' = Some p)
    ∧ (fst <$> generate_comparison_chart data data year1 year2 s = Some c
       ∧ fst <$> generate_comparison_chart data' data' year1 year2 s' = Some c)
    ∧ fst <$> generate_population_trend data s
      = fst <$> generate_population_trend data' s'
    ∧ (∀ t, fst <$> generate_population_trend data s = Some t →
            area_name <$> t `sublist_of` age_groups)
    ∧ bar_y (hombres p) `sublist_of` age_groups
    ∧ bar_y (mujeres p) `sublist_of` age_groups
    ∧ cmp_x c `sublist_of` age_groups
    ∧ categoryarray c = age_groups
    ∧ pyramid_yaxis p
      = bar_y (hombres p) ++ filter (λ g, g ∉ bar_y (hombres p)) (bar_y (mujeres p))
    ∧ (bar_y (mujeres p) ⊆ bar_y (hombres p) →
       pyramid_yaxis p `sublist_of` age_groups).
Proof.
  intros Hperm Hd Hd' Hne.
  assert (same_groups (load_data csv) (load_data csv')) as Hsame.
  { apply same_groups_Permutation; [done|].
    rewrite !rows_load_data. by rewrite Hperm. }
  destruct (builders_same_groups s s' data data' data data' _ _ _ _
              year year1 year2 Hd Hd' Hd Hd' Hsame eq_refl Hne)
    as (Hp & Ht & c & Hc & Hx & Hcat).
  eexists _, c. split; [exact Hp|]. split; [exact Hc|]. split; [exact Ht|].
  set (d := load_data csv).
  assert (∀ sex, (groupby_sum (sex_rows (year_rows d year) sex)).*1
                 `sublist_of` age_groups) as Hsub.
  { intros sex. rewrite groupby_sum_keys. apply sublist_filter. }
  assert (pyramid_yaxis (pyramid_of d year)
          = bar_y (hombres (pyramid_of d year))
            ++ filter (λ g, g ∉ bar_y (hombres (pyramid_of d year)))
                 (bar_y (mujeres (pyramid_of d year)))) as Haxis.
  { apply first_occurrences_app.
    - exact (sublist_NoDup _ _ NoDup_age_groups (Hsub "Hombre")).
    - exact (sublist_NoDup _ _ NoDup_age_groups (Hsub "Mujer")). }
  split; [|split; [apply Hsub|split; [apply Hsub|split; [|split; [exact Hcat|split]]]]].
  - intros t. rewrite (generate_population_trend_outcome s data d Hd).
    case_decide; [done|]. intros [= <-]. rewrite trend_of_series.
    rewrite <- list_fmap_compose.
    erewrite list_fmap_ext; [rewrite list_fmap_id; apply sublist_filter|].
    by intros _ g _.
  - rewrite Hx. apply (compare_rows_sublist d year1 year2 NoDup_age_groups).
  - exact Haxis.
  - intros Hsubset. rewrite Haxis.
    rewrite (filter_none (λ g, g ∉ bar_y (hombres (pyramid_of d year)))).
    + rewrite app_nil_r. apply Hsub.
    + intros g Hg Hout. by apply Hout, Hsubset.
Qed.

(** * Concrete tables *)

Lemma forall_age_groups (Φ : string → Prop) :
  Forall Φ age_groups → (∀ g, g ∉ age_groups → Φ g) → ∀ g, Φ g.
Proof.
  intros Hin Hout g. destruct (decide (g ∈ age_groups)) as [Hg|Hg].
  - rewrite Forall_forall in Hin. by apply Hin.
  - by apply Hout.
Qed.

Lemma has_aggregate_elem csv y g : has_aggregate csv y g → g ∈ age_groups.
Proof. intros (r & _ & _ & Hg). by eapply spec_age_group_elem. Qed.

Lemma V_outside csv y g : g ∉ age_groups → V csv y g = 0.
Proof.
  intros Hg. unfold V, total. rewrite filter_none; [done|].
  intros r _ [_ Hr]. by apply Hg, (spec_age_group_elem (AgeEnd r)).
Qed.

(** Deciding a property of every element of a concrete list by evaluation. *)
Ltac forall_rows tac :=
  match goal with
  | |- Forall ?P ?l =>
      let l' := eval vm_compute in l in
      change (Forall P l');
      repeat (apply Forall_cons_2; [tac|]); apply Forall_nil_2
  end.

Ltac rows_mapped :=
  unfold all_mapped;
  forall_rows ltac:(refine (bool_decide_unpack _ _); vm_compute; exact I).

Ltac rows_counts_ok :=
  split; [forall_rows ltac:(vm_compute; discriminate)|vm_compute; reflexivity].

(** The figures of [small_census]. *)
Example pyramid_example :
  fst <$> generate_population_pyramid 0%nat 2017 [Records (load_data small_census)]
  = Some {| hombres := {| bar_name := "Hombres"; bar_y := ["0-4"];
                          bar_x := [4];
                          bar_text := [S754_finite false 4503599627370496 (-50)] |};
            mujeres := {| bar_name := "Mujeres"; bar_y := ["5-9"];
                          bar_x := [-6];
                          bar_text := [S754_finite false 6755399441055744 (-50)] |} |}
  ∧ Float64.represents (S754_finite false 4503599627370496 (-50)) 4 1
  ∧ Float64.represents (S754_finite false 6755399441055744 (-50)) 6 1.
Proof. split; [|split]; vm_compute; reflexivity. Qed.

(** No row of 1981 is in the age group 5-9: the frame is float64, 8.0, 4.0
    and 6.0 beside a NaN. *)
Example trend_example :
  fst <$> generate_population_trend 0%nat [Records (load_data small_census)]
  = Some [ {| area_name := "0-4"; area_x := [1981; 2017];
              area_y := [Float (S754_finite false 4503599627370496 (-49));
                         Float (S754_finite false 4503599627370496 (-50))] |};
           {| area_name := "5-9"; area_x := [1981; 2017];
              area_y := [Float S754_nan;
                         Float (S754_finite false 6755399441055744 (-50))] |} ].
Proof. vm_compute. reflexivity. Qed.

(** Every age group of the table has a row in every year: the frame keeps
    its int64 sums. *)
Example trend_example_int64 :
  fst <$> generate_population_trend 0%nat
            [Records (load_data [record 1981 4 "Hombre" 3;
                                 record 1981 4 "Mujer" 5;
                                 record 2017 4 "Hombre" 4])]
  = Some [ {| area_name := "0-4"; area_x := [1981; 2017];
              area_y := [Int 8; Int 4] |} ].
Proof. vm_compute. reflexivity. Qed.

(** No row has an age group: the pivot table is empty and [px.area]
    raises. *)
Example trend_example_raises :
  generate_population_trend 0%nat
    [Records (load_data [record 2017 82 "Hombre" 10])] = None.
Proof. vm_compute. reflexivity. Qed.

(** From 8 to 4: -50.0, a float64 that is exact. *)
Example comparison_example :
  fst <$> generate_comparison_chart 0%nat 0%nat 1981 2017
            [Records (load_data small_census)]
  = Some {| cmp_x := ["0-4"];
            cmp_y := [S754_finite true 7036874417766400 (-47)];
            categoryarray := age_groups |}
  ∧ Float64.represents (S754_finite true 7036874417766400 (-47)) (-50) 1.
Proof. split; vm_compute; reflexivity. Qed.

(** The same year twice: the operands of the change are not columns. *)
Example comparison_same_year :
  generate_comparison_chart 0%nat 0%nat 2017 2017
    [Records (load_data small_census)] = None.
Proof. vm_compute. reflexivity. Qed.

(** From 3 to 4: 33.33333333333333, which is not 100/3 and is within one
    part in 2^50 of it. *)
Example pct_change_third :
  pct_change 3 4 = S754_finite false 4691249611844266 (-47)
  ∧ ¬ Float64.represents (pct_change 3 4) (100 * (4 - 3)) 3
  ∧ Float64.within (pct_change 3 4) (100 * (4 - 3)) 3 50.
Proof.
  split; [vm_compute; reflexivity|]. split; [vm_compute; discriminate|].
  exists 4691249611844266, (2 ^ 47). split; [lia|].
  split; [vm_compute; reflexivity|]. vm_compute. discriminate.
Qed.

Example pct_change_by_zero :
  pct_change 0 5 = S754_infinity false ∧ pct_change 0 0 = S754_nan.
Proof. split; vm_compute; reflexivity. Qed.

(** C1: a file with a key of the table and a value that is not a key. *)
Example load_data_example :
  rows (load_data [record 2017 4 "Hombre" 7; record 2017 82 "Mujer" 3])
  = [ {| rec := record 2017 4 "Hombre" 7; AgeGroup := Some "0-4" |};
      {| rec := record 2017 82 "Mujer" 3; AgeGroup := None |} ].
Proof. vm_compute. reflexivity. Qed.

(** C3: a male row whose [AgeEnd] is 82 is in the male population of its
    year and in no bar. *)
Lemma pyramid_misses_unmapped_row :
  let csv := [record 2017 82 "Hombre" 10] in
  ∃ fig,
    fst <$> generate_population_pyramid 0%nat 2017 [Records (load_data csv)]
    = Some fig
    ∧ zsum (bar_x (hombres fig)) = 0
    ∧ total (λ r, Time r = 2017 ∧ Sex r = "Hombre") csv = 10
    ∧ zsum (bar_x (hombres fig))
      ≠ total (λ r, Time r = 2017 ∧ Sex r = "Hombre") csv.
Proof.
  eexists. split; [vm_compute; reflexivity|].
  split; [reflexivity|]. split; [reflexivity|]. vm_compute. discriminate.
Qed.

Lemma pyramid_bar_totals_witness :
  let csv := small_census in
  let s := [Records (load_data csv)] in
  s !! 0%nat = Some (Records (load_data csv))
  ∧ all_mapped csv
  ∧ counts_ok csv
  ∧ ∃ fig s',
      generate_population_pyramid 0%nat 2017 s = Some (fig, s')
      ∧ zsum (bar_x (hombres fig))
        = total (λ r, Time r = 2017 ∧ Sex r = "Hombre") csv
      ∧ Forall (λ x, 0 <= x) (bar_x (hombres fig))
      ∧ zsum (Z.abs <$> bar_x (mujeres fig))
        = total (λ r, Time r = 2017 ∧ Sex r = "Mujer") csv
      ∧ Forall (λ x, x <= 0) (bar_x (mujeres fig))
      ∧ (∀ g x, (g, x) ∈ zip (bar_y (hombres fig)) (bar_x (hombres fig))
                ↔ (∃ r, r ∈ csv ∧ in_bar 2017 "Hombre" g r)
                  ∧ x = total (in_bar 2017 "Hombre" g) csv)
      ∧ (∀ g x, (g, x) ∈ zip (bar_y (mujeres fig)) (bar_x (mujeres fig))
                ↔ (∃ r, r ∈ csv ∧ in_bar 2017 "Mujer" g r)
                  ∧ x = - total (in_bar 2017 "Mujer" g) csv).
Proof.
  assert (all_mapped small_census) as Hmap by rows_mapped.
  assert (counts_ok small_census) as Hok by rows_counts_ok.
  split; [reflexivity|]. split; [exact Hmap|]. split; [exact Hok|].
  exact (pyramid_bar_totals small_census [Records (load_data small_census)]
           0%nat 2017 eq_refl Hmap Hok).
Defined.

(** C4: a row of 2017 whose [AgeEnd] is 82, beside a row of the age group
    0-4: the trend has the one series 0-4, which shows 3 at 2017, and the
    total of 2017 is 13. *)
Lemma trend_misses_unmapped_row :
  let csv := [record 2017 4 "Hombre" 3; record 2017 82 "Hombre" 10] in
  2017 ∈ Time <$> csv
  ∧ ∃ fig,
      fst <$> generate_population_trend 0%nat [Records (load_data csv)] = Some fig
      ∧ fig = [ {| area_name := "0-4"; area_x := [2017]; area_y := [Int 3] |} ]
      ∧ zsum ((λ t, value_at t 2017) <$> fig) = 3
      ∧ total (λ r, Time r = 2017) csv = 13
      ∧ zsum ((λ t, value_at t 2017) <$> fig) ≠ total (λ r, Time r = 2017) csv.
Proof.
  split; [left|]. eexists. split; [vm_compute; reflexivity|].
  split; [reflexivity|]. split; [reflexivity|]. split; [reflexivity|].
  vm_compute. discriminate.
Qed.

Lemma trend_year_totals_witness :
  let csv := [record 1981 4 "Hombre" 3; record 1981 82 "Mujer" 5;
              record 2017 9 "Mujer" 6] in
  let s := [Records (load_data csv)] in
  let y := 1981 in
  s !! 0%nat = Some (Records (load_data csv))
  ∧ counts_ok csv
  ∧ (∃ r, r ∈ csv ∧ AgeEnd r ∈ mapping_keys)
  ∧ ∃ fig s',
      generate_population_trend 0%nat s = Some (fig, s')
      ∧ zsum ((λ t, value_at t y) <$> fig)
        + total (λ r, Time r = y ∧ AgeEnd r ∉ mapping_keys) csv
        = total (λ r, Time r = y) csv
      ∧ Forall (λ t, ∀ n, point_at y (zip (area_x t) (area_y t)) = Some n →
                          is_Some (count n)) fig
      ∧ ((∃ r, r ∈ csv ∧ Time r = y ∧ AgeEnd r ∈ mapping_keys) →
         Forall (λ t, y ∈ area_x t) fig).
Proof.
  intros csv s y.
  assert (counts_ok csv) as Hok by rows_counts_ok.
  assert (∃ r, r ∈ csv ∧ AgeEnd r ∈ mapping_keys) as Hsome.
  { exists (record 1981 4 "Hombre" 3). split.
    - apply (list_elem_of_lookup_2 _ 0%nat). reflexivity.
    - apply (list_elem_of_lookup_2 _ 0%nat). reflexivity. }
  split; [reflexivity|]. split; [exact Hok|]. split; [exact Hsome|].
  exact (trend_year_totals csv s 0%nat y eq_refl Hok Hsome).
Defined.

(** C2: every age group counts 3 in 1981 and 4 in 2017. The builder returns
    33.33333333333333 for each of them; that float is not the quotient
    100/3, and it is not the float64 result of 100 * (4 - 3) / 3 either. *)
Lemma comparison_change_not_exact :
  let csv := two_censuses 3 4 in
  let c := S754_finite false 4691249611844266 (-47) in
  counts_ok csv
  ∧ Forall (λ g, V csv 1981 g = 3 ∧ V csv 2017 g = 4) age_groups
  ∧ fst <$> generate_comparison_chart 0%nat 0%nat 1981 2017
              [Records (load_data csv)]
    = Some {| cmp_x := age_groups; cmp_y := replicate 17 c;
              categoryarray := age_groups |}
  ∧ ¬ Float64.represents c (100 * (4 - 3)) 3
  ∧ c ≠ Float64.div (Float64.mul hundred (Float64.of_int (4 - 3)))
                    (Float64.of_int 3).
Proof.
  split; [rows_counts_ok|]. split.
  { forall_rows ltac:(vm_compute; split; reflexivity). }
  split; [vm_compute; reflexivity|]. split.
  - vm_compute. discriminate.
  - vm_compute. discriminate.
Qed.

Lemma comparison_change_witness :
  let csv := small_census in
  let s := [Records (load_data csv)] in
  s !! 0%nat = Some (Records (load_data csv))
  ∧ s !! 0%nat = Some (Records (load_data csv))
  ∧ counts_ok csv
  ∧ 1981 ≠ 2017
  ∧ ∃ fig s',
      generate_comparison_chart 0%nat 0%nat 1981 2017 s = Some (fig, s')
      ∧ length (cmp_x fig) = length (cmp_y fig)
      ∧ NoDup (cmp_x fig)
      ∧ (∀ g, g ∈ cmp_x fig
              ↔ has_aggregate csv 1981 g ∧ has_aggregate csv 2017 g)
      ∧ (∀ g c, (g, c) ∈ zip (cmp_x fig) (cmp_y fig)
                ↔ has_aggregate csv 1981 g ∧ has_aggregate csv 2017 g
                  ∧ c = pct_change (V csv 1981 g) (V csv 2017 g))
      ∧ (∀ g c, (g, c) ∈ zip (cmp_x fig) (cmp_y fig) →
                V csv 1981 g ≠ 0 →
                Float64.within c (100 * (V csv 2017 g - V csv 1981 g))
                  (V csv 1981 g) 50).
Proof.
  assert (counts_ok small_census) as Hok by rows_counts_ok.
  assert (1981 ≠ 2017) as Hne by discriminate.
  split; [reflexivity|]. split; [reflexivity|]. split; [exact Hok|].
  split; [exact Hne|].
  exact (comparison_change small_census [Records (load_data small_census)]
           0%nat 0%nat (load_data small_census) 1981 2017
           eq_refl eq_refl Hok Hne).
Defined.

Lemma has_aggregate_first (r : csv_row) (csv : list csv_row) y g :
  Time r = y → spec_age_group (AgeEnd r) = Some g →
  has_aggregate (r :: csv) y g.
Proof. intros Hy Hg. exists r. split; [left|]. by split. Qed.

Lemma has_aggregate_next (r : csv_row) (csv : list csv_row) y g :
  has_aggregate csv y g → has_aggregate (r :: csv) y g.
Proof. intros (r' & Hr' & Hc). exists r'. split; [by right|done]. Qed.

Lemma comparison_zero_total_witness :
  let csv := [record 1981 4 "Hombre" 0; record 2017 4 "Hombre" 5] in
  let s := [Records (load_data csv)] in
  s !! 0%nat = Some (Records (load_data csv))
  ∧ s !! 0%nat = Some (Records (load_data csv))
  ∧ 1981 ≠ 2017
  ∧ has_aggregate csv 1981 "0-4"
  ∧ has_aggregate csv 2017 "0-4"
  ∧ Int64.wrap64 (V csv 1981 "0-4") = 0
  ∧ ∃ fig s' c,
      generate_comparison_chart 0%nat 0%nat 1981 2017 s = Some (fig, s')
      ∧ ("0-4", c) ∈ zip (cmp_x fig) (cmp_y fig)
      ∧ Float64.is_finite c = false.
Proof.
  set (csv := [record 1981 4 "Hombre" 0; record 2017 4 "Hombre" 5]).
  assert (1981 ≠ 2017) as Hne by discriminate.
  assert (has_aggregate csv 1981 "0-4") as H1
    by (by apply has_aggregate_first).
  assert (has_aggregate csv 2017 "0-4") as H2
    by (by apply has_aggregate_next, has_aggregate_first).
  assert (Int64.wrap64 (V csv 1981 "0-4") = 0) as Hz by reflexivity.
  split; [reflexivity|]. split; [reflexivity|]. split; [exact Hne|].
  split; [exact H1|]. split; [exact H2|]. split; [exact Hz|].
  exact (comparison_zero_total csv [Records (load_data csv)] 0%nat 0%nat
           (load_data csv) 1981 2017 "0-4" eq_refl eq_refl Hne H1 H2 Hz).
Defined.

Lemma unmapped_row_excluded_witness :
  let l1 := [record 1981 4 "Hombre" 3] in
  let r := record 2017 82 "Mujer" 7 in
  let l2 := [record 2017 4 "Hombre" 4] in
  let s := [Records (load_data (l1 ++ r :: l2))] in
  let s' := [Records (load_data (l1 ++ l2))] in
  (AgeEnd r ∉ mapping_keys)
  ∧ s !! 0%nat = Some (Records (load_data (l1 ++ r :: l2)))
  ∧ s' !! 0%nat = Some (Records (load_data (l1 ++ l2)))
  ∧ 1981 ≠ 2017
  ∧ (∃ p, fst <$> generate_population_pyramid 0%nat 2017 s = Some p
          ∧ fst <$> generate_population_pyramid 0%nat 2017 s' = Some p)
  ∧ (∃ c, fst <$> generate_comparison_chart 0%nat 0%nat 1981 2017 s = Some c
          ∧ fst <$> generate_comparison_chart 0%nat 0%nat 1981 2017 s'
            = Some c)
  ∧ ((∃ r', r' ∈ l1 ++ l2 ∧ AgeEnd r' ∈ mapping_keys) →
     ∃ t, fst <$> generate_population_trend 0%nat s = Some t
          ∧ fst <$> generate_population_trend 0%nat s' = Some t)
  ∧ ((∀ r', r' ∈ l1 ++ l2 → AgeEnd r' ∉ mapping_keys) →
     generate_population_trend 0%nat s = None
     ∧ generate_population_trend 0%nat s' = None).
Proof.
  set (l1 := [record 1981 4 "Hombre" 3]). set (r := record 2017 82 "Mujer" 7).
  set (l2 := [record 2017 4 "Hombre" 4]).
  assert (AgeEnd r ∉ mapping_keys) as Hr
    by (refine (bool_decide_unpack _ _); vm_compute; exact I).
  assert (1981 ≠ 2017) as Hne by discriminate.
  split; [exact Hr|]. split; [reflexivity|]. split; [reflexivity|].
  split; [exact Hne|].
  exact (unmapped_row_excluded l1 l2 r [Records (load_data (l1 ++ r :: l2))]
           [Records (load_data (l1 ++ l2))] 0%nat 0%nat 2017 1981 2017
           Hr eq_refl eq_refl Hne).
Defined.

(** C7: both years count nothing in every age group. The totals are the
    same in the two years and every change is NaN. *)
Lemma comparison_identical_zero_totals :
  let csv := two_censuses 0 0 in
  counts_ok csv
  ∧ (∀ g, V csv 1981 g = V csv 2017 g)
  ∧ fst <$> generate_comparison_chart 0%nat 0%nat 1981 2017
              [Records (load_data csv)]
    = Some {| cmp_x := age_groups; cmp_y := replicate 17 S754_nan;
              categoryarray := age_groups |}
  ∧ S754_nan ≠ S754_zero false.
Proof.
  split; [rows_counts_ok|]. split.
  { apply (forall_age_groups (λ g, V (two_censuses 0 0) 1981 g
                                   = V (two_censuses 0 0) 2017 g)).
    - forall_rows ltac:(vm_compute; reflexivity).
    - intros g Hg. by rewrite !V_outside. }
  split; [vm_compute; reflexivity|discriminate].
Qed.

Lemma comparison_identical_years_witness :
  let csv := two_censuses 5 5 in
  let s := [Records (load_data csv)] in
  s !! 0%nat = Some (Records (load_data csv))
  ∧ s !! 0%nat = Some (Records (load_data csv))
  ∧ counts_ok csv
  ∧ 1981 ≠ 2017
  ∧ (∀ g, V csv 1981 g = V csv 2017 g)
  ∧ (∀ g, has_aggregate csv 1981 g → V csv 1981 g ≠ 0)
  ∧ ∃ fig s',
      generate_comparison_chart 0%nat 0%nat 1981 2017 s = Some (fig, s')
      ∧ Forall (λ c, c = S754_zero false) (cmp_y fig).
Proof.
  set (csv := two_censuses 5 5).
  assert (counts_ok csv) as Hok by rows_counts_ok.
  assert (1981 ≠ 2017) as Hne by discriminate.
  assert (∀ g, V csv 1981 g = V csv 2017 g) as Hsame.
  { apply (forall_age_groups (λ g, V csv 1981 g = V csv 2017 g)).
    - forall_rows ltac:(vm_compute; reflexivity).
    - intros g Hg. by rewrite !V_outside. }
  assert (∀ g, has_aggregate csv 1981 g → V csv 1981 g ≠ 0) as Hnz.
  { apply (forall_age_groups (λ g, has_aggregate csv 1981 g → V csv 1981 g ≠ 0)).
    - forall_rows ltac:(intros _; vm_compute; discriminate).
    - intros g Hg Hagg. by apply has_aggregate_elem in Hagg. }
  split; [reflexivity|]. split; [reflexivity|]. split; [exact Hok|].
  split; [exact Hne|]. split; [exact Hsame|]. split; [exact Hnz|].
  exact (comparison_identical_years csv [Records (load_data csv)] 0%nat 0%nat
           (load_data csv) 1981 2017 eq_refl eq_refl Hok Hne Hsame Hnz).
Defined.

Lemma age_groups_canonical_order_witness :
  let csv := [record 2017 9 "Mujer" 6; record 2017 4 "Hombre" 4] in
  let csv' := [record 2017 4 "Hombre" 4; record 2017 9 "Mujer" 6] in
  let s := [Records (load_data csv)] in
  let s' := [Records (load_data csv')] in
  csv ≡ₚ csv'
  ∧ s !! 0%nat = Some (Records (load_data csv))
  ∧ s' !! 0%nat = Some (Records (load_data csv'))
  ∧ 1981 ≠ 2017
  ∧ ∃ p c,
      (fst <$> generate_population_pyramid 0%nat 2017 s = Some p
       ∧ fst <$> generate_population_pyramid 0%nat 2017 s' = Some p)
      ∧ (fst <$> generate_comparison_chart 0%nat 0%nat 1981 2017 s = Some c
         ∧ fst <$> generate_comparison_chart 0%nat 0%nat 1981 2017 s' = Some c)
      ∧ fst <$> generate_population_trend 0%nat s
        = fst <$> generate_population_trend 0%nat s'
      ∧ (∀ t, fst <$> generate_population_trend 0%nat s = Some t →
              area_name <$> t `sublist_of` age_groups)
      ∧ bar_y (hombres p) `sublist_of` age_groups
      ∧ bar_y (mujeres p) `sublist_of` age_groups
      ∧ cmp_x c `sublist_of` age_groups
      ∧ categoryarray c = age_groups
      ∧ pyramid_yaxis p
        = bar_y (hombres p)
          ++ filter (λ g, g ∉ bar_y (hombres p)) (bar_y (mujeres p))
      ∧ (bar_y (mujeres p) ⊆ bar_y (hombres p) →
         pyramid_yaxis p `sublist_of` age_groups).
Proof.
  set (csv := [record 2017 9 "Mujer" 6; record 2017 4 "Hombre" 4]).
  set (csv' := [record 2017 4 "Hombre" 4; record 2017 9 "Mujer" 6]).
  assert (csv ≡ₚ csv') as Hperm by apply perm_swap.
  assert (1981 ≠ 2017) as Hne by discriminate.
  split; [exact Hperm|]. split; [reflexivity|]. split; [reflexivity|].
  split; [exact Hne|].
  exact (age_groups_canonical_order csv csv' [Records (load_data csv)]
           [Records (load_data csv')] 0%nat 0%nat 2017 1981 2017
           Hperm eq_refl eq_refl Hne).
Defined.

(** C8. The vertical axis of the pyramid is out of the listed order when an
    age group has rows of women only and a later one has rows of men: with
    men aged 5-9 and women aged 0-4 in the year, the axis lists 5-9 before
    0-4. *)
Theorem pyramid_axis_out_of_order :
  let csv := [record 2017 9 "Hombre" 1; record 2017 4 "Mujer" 1] in
  ∃ p,
    fst <$> generate_population_pyramid 0%nat 2017 [Records (load_data csv)]
    = Some p
    ∧ bar_y (hombres p) = ["5-9"]
    ∧ bar_y (mujeres p) = ["0-4"]
    ∧ pyramid_yaxis p = ["5-9"; "0-4"]
    ∧ position (pyramid_yaxis p) "5-9" = Some 0%nat
    ∧ position (pyramid_yaxis p) "0-4" = Some 1%nat
    ∧ position age_groups "0-4" = Some 0%nat
    ∧ position age_groups "5-9" = Some 1%nat.
Proof.
  eexists. split; [vm_compute; reflexivity|].
  repeat split; vm_compute; reflexivity.
Qed.

Lemma pyramid_absent_year_witness :
  let d := load_data small_census in
  let s := [Records d] in
  s !! 0%nat = Some (Records d)
  ∧ (1990 ∉ (λ r, Time (rec r)) <$> rows d)
  ∧ ∃ s', generate_population_pyramid 0%nat 1990 s
          = Some ({| hombres := {| bar_name := "Hombres"; bar_y := [];
                                   bar_x := []; bar_text := [] |};
                     mujeres := {| bar_name := "Mujeres"; bar_y := [];
                                   bar_x := []; bar_text := [] |} |}, s').
Proof.
  set (d := load_data small_census).
  assert (1990 ∉ (λ r, Time (rec r)) <$> rows d) as Hy
    by (refine (bool_decide_unpack _ _); vm_compute; exact I).
  split; [reflexivity|]. split; [exact Hy|].
  exact (pyramid_absent_year [Records d] 0%nat d 1990 eq_refl Hy).
Defined.

Lemma builders_leave_table_unchanged_witness :
  let d := load_data small_census in
  let s := [Records d] in
  s !! 0%nat = Some (Records d)
  ∧ s !! 0%nat = Some (Records d)
  ∧ 1981 ≠ 2017
  ∧ (∃ fig s', generate_population_pyramid 0%nat 2017 s = Some (fig, s')
               ∧ s' !! 0%nat = Some (Records d) ∧ preserves s s')
  ∧ (∃ df_trend s',
       groupby_time_agegroup_sum_unstack 0%nat s = Some (df_trend, s')
       ∧ s' !! 0%nat = Some (Records d) ∧ preserves s s'
       ∧ (has_grouped_row d →
          ∃ fig, generate_population_trend 0%nat s = Some (fig, s'))
       ∧ (¬ has_grouped_row d → generate_population_trend 0%nat s = None))
  ∧ (∃ fig s', generate_comparison_chart 0%nat 0%nat 1981 2017 s
               = Some (fig, s')
               ∧ s' !! 0%nat = Some (Records d) ∧ preserves s s').
Proof.
  set (d := load_data small_census).
  assert (1981 ≠ 2017) as Hne by discriminate.
  split; [reflexivity|]. split; [reflexivity|]. split; [exact Hne|].
  exact (builders_leave_table_unchanged [Records d] 0%nat 0%nat d d
           2017 1981 2017 eq_refl eq_refl Hne).
Defined.

(** * The rest of the script *)

(** ** Sorted lists of years *)

Lemma StronglySorted_le_lt (l : list Z) :
  StronglySorted Z.le l → NoDup l → StronglySorted Z.lt l.
Proof.
  induction 1 as [|x l Hl IH Hx]; intros Hnd; [constructor|].
  apply NoDup_cons in Hnd as [Hnx Hnd]. constructor; [by apply IH|].
  apply Forall_forall. intros y Hy. rewrite Forall_forall in Hx.
  specialize (Hx y Hy). assert (x ≠ y) by (by intros ->). lia.
Qed.

Lemma sorted_distinct (l : list Z) :
  StronglySorted Z.lt (merge_sort Z.le (remove_dups l))
  ∧ ∀ y, y ∈ merge_sort Z.le (remove_dups l) ↔ y ∈ l.
Proof.
  split.
  - apply StronglySorted_le_lt.
    + apply StronglySorted_merge_sort; apply _.
    + rewrite merge_sort_Permutation. apply NoDup_remove_dups.
  - intros y. by rewrite merge_sort_Permutation, elem_of_remove_dups.
Qed.

(** [years] lists every year of the table once, in ascending order; the
    years of rows without an age group are among them. *)
Theorem years_sorted_distinct (d : dataframe) :
  StronglySorted Z.lt (years d)
  ∧ ∀ y, y ∈ years d ↔ ∃ r, r ∈ rows d ∧ Time (rec r) = y.
Proof.
  unfold years. destruct (sorted_distinct ((λ r, Time (rec r)) <$> rows d))
    as [Hs He].
  split; [exact Hs|]. intros y. rewrite He, list_elem_of_fmap. split.
  - intros (r & -> & Hr). by exists r.
  - intros (r & Hr & <-). by exists r.
Qed.

(** ** The defaults of the sidebar *)

Lemma StronglySorted_lt_head (x : Z) (l : list Z) y :
  StronglySorted Z.lt (x :: l) → y ∈ x :: l → x <= y.
Proof.
  intros Hs Hy. apply StronglySorted_inv in Hs as [_ Hx].
  apply elem_of_cons in Hy as [->|Hy]; [lia|].
  rewrite Forall_forall in Hx. specialize (Hx y Hy). lia.
Qed.

Lemma StronglySorted_lt_last (l : list Z) z y :
  StronglySorted Z.lt l → last l = Some z → y ∈ l → y <= z.
Proof.
  induction 1 as [|x l Hl IH Hx]; intros Hlast Hy; [by apply elem_of_nil in Hy|].
  destruct l as [|x' l'].
  - simpl in Hlast. injection Hlast as <-.
    apply elem_of_cons in Hy as [->|Hy]; [lia|by apply elem_of_nil in Hy].
  - rewrite last_cons_cons in Hlast.
    apply elem_of_cons in Hy as [->|Hy]; [|by apply IH].
    rewrite Forall_forall in Hx.
    assert (z ∈ x' :: l') as Hz by (by apply last_Some_elem_of).
    specialize (Hx z Hz). lia.
Qed.

Lemma sidebar_defaults_nil : sidebar_defaults [] = None.
Proof. reflexivity. Qed.

Lemma sidebar_defaults_sorted (ys : list Z) :
  ys ≠ [] → StronglySorted Z.lt ys →
  ∃ lo hi, sidebar_defaults ys = Some (hi, (lo, hi))
           ∧ lo ∈ ys ∧ hi ∈ ys ∧ ∀ y, y ∈ ys → lo <= y <= hi.
Proof.
  intros Hne Hs. destruct ys as [|lo ys']; [done|].
  destruct (last (lo :: ys')) as [hi|] eqn:Hlast;
    [|by apply last_None in Hlast].
  exists lo, hi. unfold sidebar_defaults.
  assert ((lo :: ys') !! (length (lo :: ys') - 1)%nat = Some hi) as ->.
  { rewrite <- Hlast, last_lookup. f_equal. simpl. lia. }
  rewrite Hlast. split; [done|]. split; [left|].
  split; [by apply last_Some_elem_of|]. intros y Hy. split.
  - by eapply StronglySorted_lt_head.
  - by eapply StronglySorted_lt_last.
Qed.

(** For a table that has a row, the defaults are the latest year and the
    range from the earliest year to the latest. *)
Lemma sidebar_defaults_extremes (d : dataframe) :
  rows d ≠ [] →
  ∃ lo hi,
    sidebar_defaults (years d) = Some (hi, (lo, hi))
    ∧ (∃ r, r ∈ rows d ∧ Time (rec r) = lo)
    ∧ (∃ r, r ∈ rows d ∧ Time (rec r) = hi)
    ∧ ∀ r, r ∈ rows d → lo <= Time (rec r) <= hi.
Proof.
  intros Hne.
  destruct (sorted_distinct ((λ r, Time (rec r)) <$> rows d)) as [Hs He'].
  fold (years d) in Hs, He'.
  assert (∀ y, y ∈ years d ↔ ∃ r, r ∈ rows d ∧ Time (rec r) = y) as He.
  { intros y. rewrite He', list_elem_of_fmap. split.
    - intros (r & -> & Hr). by exists r.
    - intros (r & Hr & <-). by exists r. }
  assert (years d ≠ []) as Hy.
  { destruct (rows d) as [|r rs] eqn:Hr; [done|]. intros Hnil.
    assert (Time (rec r) ∈ years d) as Hin
      by (apply He; exists r; split; [left|done]).
    rewrite Hnil in Hin. by apply elem_of_nil in Hin. }
  destruct (sidebar_defaults_sorted (years d) Hy Hs)
    as (lo & hi & Hdef & Hlo & Hhi & Hall).
  exists lo, hi. split; [exact Hdef|].
  split; [by apply He|]. split; [by apply He|].
  intros r Hr. apply Hall, He. by exists r.
Qed.

(** ** The metric cards *)

Lemma wrap64_add_r a b : Int64.wrap64 (a + Int64.wrap64 b) = Int64.wrap64 (a + b).
Proof. rewrite (Z.add_comm a), wrap64_add_l. f_equal. lia. Qed.

Lemma main_metrics_run s df d year :
  s !! df = Some (Records d) →
  main_metrics df year s
  = Some ({| total_pop := value_sum (λ r, Time (rec r) = year) d;
             male_pop := value_sum (λ r, Time (rec r) = year
                                         ∧ Sex (rec r) = "Hombre") d;
             female_pop := value_sum (λ r, Time (rec r) = year
                                           ∧ Sex (rec r) = "Mujer") d |}, s).
Proof.
  intros Hd. unfold main_metrics.
  by rewrite (bind_run _ _ _ _ _ (read_records_run _ _ _ Hd)).
Qed.

(** When every row of the selected year is of one of the two sexes, the
    male and the female card add up, in int64, to the card of the total. *)
Theorem metrics_add_up (s : store) (df : loc) (d : dataframe) (year : Z) :
  s !! df = Some (Records d) →
  (∀ r, r ∈ rows d → Time (rec r) = year →
        Sex (rec r) = "Hombre" ∨ Sex (rec r) = "Mujer") →
  ∃ m, main_metrics df year s = Some (m, s)
       ∧ Int64.add (male_pop m) (female_pop m) = total_pop m.
Proof.
  intros Hd Hsex. eexists. split; [by apply main_metrics_run|].
  cbn [male_pop female_pop total_pop]. unfold value_sum, select. cbn [rows].
  unfold Int64.add. rewrite !sum_wrap, wrap64_add_l, wrap64_add_r. f_equal.
  symmetry. apply zsum_filter_split. intros r Hr Ht. split; [by apply Hsex|].
  intros [H1 H2]. rewrite H1 in H2. discriminate.
Qed.

Lemma value_sum_loaded (P : csv_row → Prop) `{∀ r, Decision (P r)} csv :
  value_sum (λ r, P (rec r)) (load_data csv) = Int64.sum (Value <$> filter P csv).
Proof.
  unfold value_sum, select. cbn [rows]. rewrite rows_load_data.
  pose proof (filter_loaded P csv) as Hf. rewrite Hf.
  by rewrite <- list_fmap_compose.
Qed.

(** The metric cards count every row of the year, the bars of the pyramid
    only the rows that have an age group: a card exceeds the sum of its
    bars by the counts of the rows whose [AgeEnd] is not a key. *)
Theorem cards_count_unmapped_rows
    (csv : list csv_row) (s : store) (df : loc) (year : Z) :
  s !! df = Some (Records (load_data csv)) →
  counts_ok csv →
  ∃ m fig s',
    main_metrics df year s = Some (m, s)
    ∧ generate_population_pyramid df year s = Some (fig, s')
    ∧ male_pop m
      = zsum (bar_x (hombres fig))
        + total (λ r, (Time r = year ∧ Sex r = "Hombre")
                      ∧ AgeEnd r ∉ mapping_keys) csv
    ∧ female_pop m
      = zsum (Z.abs <$> bar_x (mujeres fig))
        + total (λ r, (Time r = year ∧ Sex r = "Mujer")
                      ∧ AgeEnd r ∉ mapping_keys) csv.
Proof.
  intros Hd Hok.
  destruct (generate_population_pyramid_run s df _ year Hd) as [ext Hrun].
  eexists _, _, _. split; [by apply main_metrics_run|].
  split; [exact Hrun|]. cbn [male_pop female_pop hombres mujeres bar_x].
  set (dm := sex_rows (year_rows (load_data csv) year) "Hombre").
  set (df' := sex_rows (year_rows (load_data csv) year) "Mujer").
  pose proof (rows_sex_rows csv year "Hombre") as Hm.
  pose proof (rows_sex_rows csv year "Mujer") as Hf.
  pose proof (selected_totals_range csv _ df' eq_refl Hf Hok) as Hfr.
  split.
  - rewrite (selected_totals_sum_mapped csv _ dm eq_refl Hm Hok).
    etrans; [exact (value_sum_loaded (λ r, Time r = year ∧ Sex r = "Hombre") csv)|].
    rewrite (proj1 (counts_exact csv _ Hok)).
    apply (total_split _ (λ r, AgeEnd r ∈ mapping_keys)).
  - assert (Z.abs <$> (Int64.neg <$> (groupby_sum df').*2) = (groupby_sum df').*2)
      as ->.
    { rewrite <- list_fmap_compose.
      transitivity (id <$> (groupby_sum df').*2); [|apply list_fmap_id].
      apply Forall_fmap_ext_1. eapply Forall_impl; [exact Hfr|].
      intros v Hv. cbn beta. unfold compose, id. rewrite (neg_exact v Hv).
      destruct Hv as [Hv _]. lia. }
    rewrite (selected_totals_sum_mapped csv _ df' eq_refl Hf Hok).
    etrans; [exact (value_sum_loaded (λ r, Time r = year ∧ Sex r = "Mujer") csv)|].
    rewrite (proj1 (counts_exact csv _ Hok)).
    apply (total_split _ (λ r, AgeEnd r ∈ mapping_keys)).
Qed.

(** ** The comparison tab *)

(** The tab never raises: for the same year twice it shows the warning and
    touches nothing, otherwise it shows the chart of the builder. *)
Theorem comparison_tab_guard
    (s : store) (df : loc) (d : dataframe) (year1 year2 : Z) :
  s !! df = Some (Records d) →
  ∃ content s',
    comparison_tab df year1 year2 s = Some (content, s')
    ∧ preserves s s'
    ∧ (year1 = year2 →
       content = Warning "Seleccione dos años diferentes para comparar"
       ∧ s' = s)
    ∧ (year1 ≠ year2 →
       ∃ c, content = Chart c
            ∧ generate_comparison_chart df df year1 year2 s = Some (c, s')).
Proof.
  intros Hd. unfold comparison_tab. case_decide as Hy.
  - exists (Warning "Seleccione dos años diferentes para comparar"), s.
    split; [done|]. split; [by intros l f|]. split; [done|]. by intros [].
  - destruct (generate_comparison_chart_run s df df d d year1 year2 Hd Hd Hy)
      as [ext Hrun].
    eexists _, _. rewrite (bind_run _ _ _ _ _ Hrun).
    split; [done|]. split; [apply preserves_app|]. split; [done|].
    intros _. by eexists.
Qed.

Lemma inner_merge_nil_r (l : list (string * Z)) : inner_merge l [] = [].
Proof. induction l as [|[g v] l IH]; [done|]. exact IH. Qed.

Lemma year_rows_absent d year :
  year ∉ (λ r, Time (rec r)) <$> rows d → groupby_sum (year_rows d year) = [].
Proof.
  intros Hy. apply groupby_sum_nil. apply filter_none. intros r Hr Ht.
  apply Hy. apply list_elem_of_fmap. by exists r.
Qed.

(** A year that no row has, on either side of the comparison: the builder
    returns a chart without bars. *)
Theorem comparison_absent_year
    (s : store) (df data : loc) (d dg : dataframe) (year1 year2 : Z) :
  s !! data = Some (Records d) →
  s !! df = Some (Records dg) →
  year1 ≠ year2 →
  year1 ∉ (λ r, Time (rec r)) <$> rows d
  ∨ year2 ∉ (λ r, Time (rec r)) <$> rows d →
  ∃ s', generate_comparison_chart df data year1 year2 s
        = Some ({| cmp_x := []; cmp_y := []; categoryarray := categories dg |},
                s').
Proof.
  intros Hd Hdf Hne Habs.
  destruct (generate_comparison_chart_run s df data d dg year1 year2 Hd Hdf Hne)
    as [ext Hrun].
  exists (s ++ ext). rewrite Hrun.
  assert (compare_rows d year1 year2 = []) as ->; [|done].
  unfold compare_rows. destruct Habs as [Hy|Hy].
  - by rewrite (year_rows_absent d year1 Hy).
  - rewrite (year_rows_absent d year2 Hy). apply inner_merge_nil_r.
Qed.

Lemma filter_key_nil (r : list (string * Z)) g :
  filter (λ p, p.1 = g) r = [] ↔ g ∉ r.*1.
Proof.
  split.
  - intros Hnil ([g' v] & -> & Hin)%list_elem_of_fmap.
    by apply (filter_nil_not_elem_of _ _ _ Hnil eq_refl).
  - intros Hg. apply filter_none. intros [g' v] Hin Hk. simpl in Hk. subst g'.
    apply Hg. apply list_elem_of_fmap. by exists (g, v).
Qed.

(** The keys of an inner join: the left keys that are right keys. *)
Lemma inner_merge_keys (l r : list (string * Z)) :
  NoDup r.*1 →
  (λ '(g, _, _), g) <$> inner_merge l r = filter (λ g, g ∈ r.*1) l.*1.
Proof.
  intros Hnd. unfold inner_merge.
  induction l as [|[g v1] l IH]; [done|].
  rewrite bind_cons, !fmap_app, fmap_cons, filter_cons, IH. simpl.
  destruct (filter_key_unique r g Hnd) as [Hnil|[v Hv]].
  - rewrite Hnil. apply filter_key_nil in Hnil. by rewrite decide_False.
  - rewrite Hv. rewrite decide_True; [done|].
    destruct (decide (g ∈ r.*1)) as [|Hg]; [done|].
    apply filter_key_nil in Hg. by rewrite Hg in Hv.
Qed.

Lemma filter_ext_in {A} (P Q : A → Prop)
    `{∀ x, Decision (P x), ∀ x, Decision (Q x)} (l : list A) :
  (∀ x, x ∈ l → P x ↔ Q x) → filter P l = filter Q l.
Proof.
  induction l as [|x l IH]; intros Hl; [done|].
  rewrite !filter_cons, IH by (intros x' Hx'; apply Hl; by right).
  pose proof (Hl x (list_elem_of_here _ _)). repeat case_decide; tauto.
Qed.

Lemma compare_rows_keys d year1 year2 :
  NoDup (categories d) →
  (λ '(g, _, _), g) <$> compare_rows d year1 year2
  = filter (λ g, group_values (rows (year_rows d year1)) g ≠ []
                 ∧ group_values (rows (year_rows d year2)) g ≠ [])
      (categories d).
Proof.
  intros Hnd. unfold compare_rows.
  rewrite inner_merge_keys by (by apply (NoDup_groupby_sum_keys (year_rows d year2))).
  rewrite !groupby_sum_keys. cbn [categories year_rows select].
  rewrite list_filter_filter. apply filter_ext_in. intros g Hg.
  rewrite list_elem_of_filter. tauto.
Qed.

(** The bars of the comparison are the age groups that have a row in both
    years, in the order of the categories, whichever of the two years is
    the base: swapping the years keeps the axis. *)
Theorem comparison_axis_symmetric
    (s : store) (df data : loc) (d dg : dataframe) (year1 year2 : Z) :
  s !! data = Some (Records d) →
  s !! df = Some (Records dg) →
  NoDup (categories d) →
  year1 ≠ year2 →
  ∃ c c' s1 s2,
    generate_comparison_chart df data year1 year2 s = Some (c, s1)
    ∧ generate_comparison_chart df data year2 year1 s = Some (c', s2)
    ∧ cmp_x c = cmp_x c'
    ∧ cmp_x c
      = filter (λ g, group_values (rows (year_rows d year1)) g ≠ []
                     ∧ group_values (rows (year_rows d year2)) g ≠ [])
          (categories d)
    ∧ length (cmp_y c) = length (cmp_x c)
    ∧ length (cmp_y c') = length (cmp_x c).
Proof.
  intros Hd Hdf Hnd Hne.
  destruct (generate_comparison_chart_run s df data d dg year1 year2 Hd Hdf Hne)
    as [e1 H1].
  assert (year2 ≠ year1) as Hne' by (by intros ->).
  destruct (generate_comparison_chart_run s df data d dg year2 year1 Hd Hdf Hne')
    as [e2 H2].
  eexists _, _, _, _. split; [exact H1|]. split; [exact H2|].
  cbn [cmp_x cmp_y]. rewrite !length_fmap, !compare_rows_keys by done.
  assert (filter (λ g, group_values (rows (year_rows d year2)) g ≠ []
                       ∧ group_values (rows (year_rows d year1)) g ≠ [])
            (categories d)
          = filter (λ g, group_values (rows (year_rows d year1)) g ≠ []
                         ∧ group_values (rows (year_rows d year2)) g ≠ [])
              (categories d)) as Hsym by (apply list_filter_iff; tauto).
  split; [by rewrite Hsym|]. split; [done|]. split; [done|].
  rewrite <- !(length_fmap (λ '(g, _, _), g)), !compare_rows_keys by done.
  by rewrite Hsym.
Qed.

(** ** The detail table *)

Lemma string_compare_refl (s : string) : String.compare s s = Eq.
Proof.
  induction s as [|c s IH]; [done|]. simpl.
  unfold Ascii.compare. by rewrite N.compare_refl.
Qed.

Lemma string_leb_refl (s : string) : String.leb s s = true.
Proof. unfold String.leb. by rewrite string_compare_refl. Qed.

Lemma string_leb_trans (s1 s2 s3 : string) :
  String.leb s1 s2 = true → String.leb s2 s3 = true → String.leb s1 s3 = true.
Proof.
  unfold String.leb. revert s2 s3.
  induction s1 as [|c1 s1 IH]; intros [|c2 s2] [|c3 s3]; simpl; try done.
  unfold Ascii.compare.
  destruct (N.compare_spec (Ascii.N_of_ascii c1) (Ascii.N_of_ascii c2)) as [E12|L12|G12];
    [| |done].
  - rewrite E12.
    destruct (N.compare_spec (Ascii.N_of_ascii c2) (Ascii.N_of_ascii c3));
      [apply IH|done|done].
  - destruct (N.compare_spec (Ascii.N_of_ascii c2) (Ascii.N_of_ascii c3)) as [E23|L23|G23];
      [| |done]; intros _ _.
    + rewrite <- E23. by apply N.compare_lt_iff in L12 as ->.
    + assert (Ascii.N_of_ascii c1 < Ascii.N_of_ascii c3)%N as L13 by lia.
      by apply N.compare_lt_iff in L13 as ->.
Qed.

Global Instance detail_le_total : Total detail_le.
Proof.
  intros r1 r2. unfold detail_le.
  destruct (Z.lt_trichotomy (AgeStart (rec r1)) (AgeStart (rec r2)))
    as [?|[?|?]]; [by left; left| |by right; left].
  destruct (String.leb_total (Sex (rec r1)) (Sex (rec r2))); [left|right];
    right; by split.
Qed.

Global Instance detail_le_trans : Transitive detail_le.
Proof.
  intros r1 r2 r3 [L12|[E12 S12]] [L23|[E23 S23]]; unfold detail_le.
  - left. lia.
  - left. lia.
  - left. lia.
  - right. split; [lia|]. by eapply string_leb_trans.
Qed.

Lemma detail_le_key r1 r2 : detail_key r1 = detail_key r2 → detail_le r1 r2.
Proof.
  unfold detail_key. intros [= Ha Hs]. right. split; [done|].
  rewrite Hs. apply string_leb_refl.
Qed.

Lemma insert_row_Permutation r l : insert_row r l ≡ₚ r :: l.
Proof.
  induction l as [|r' l IH]; [done|]. simpl. case_decide; [done|].
  rewrite IH. apply perm_swap.
Qed.

Lemma insert_row_sorted r l :
  StronglySorted detail_le l → StronglySorted detail_le (insert_row r l).
Proof.
  induction 1 as [|r' l Hl IH Hr']; simpl; [by repeat constructor|].
  case_decide as Hle.
  - constructor; [by constructor|]. constructor; [done|].
    eapply Forall_impl; [exact Hr'|]. intros r'' ?. by etrans.
  - constructor; [done|]. rewrite insert_row_Permutation.
    constructor; [|done]. by destruct (detail_le_total r r').
Qed.

Lemma insert_row_stable r l k :
  filter (λ r', detail_key r' = k) (insert_row r l)
  = filter (λ r', detail_key r' = k) (r :: l).
Proof.
  induction l as [|r' l IH]; [done|]. simpl. case_decide as Hle; [done|].
  rewrite filter_cons, IH, !filter_cons.
  destruct (decide (detail_key r = k)) as [Hr|Hr]; [|done].
  assert (detail_key r' ≠ k) as Hr'
    by (intros Hr'; apply Hle, detail_le_key; congruence).
  destruct (decide (detail_key r' = k)); done.
Qed.

Lemma sort_values_Permutation l : sort_values l ≡ₚ l.
Proof.
  induction l as [|r l IH]; [done|]. simpl. by rewrite insert_row_Permutation, IH.
Qed.

Lemma sort_values_sorted l : StronglySorted detail_le (sort_values l).
Proof.
  induction l as [|r l IH]; [constructor|]. by apply insert_row_sorted.
Qed.

Lemma sort_values_stable l k :
  filter (λ r, detail_key r = k) (sort_values l)
  = filter (λ r, detail_key r = k) l.
Proof.
  induction l as [|r l IH]; [done|]. simpl.
  by rewrite insert_row_stable, !filter_cons, IH.
Qed.

(** The detail table holds the rows of the selected year, those without an
    age group included, each once; they are in the order of (AgeStart, Sex),
    and rows with the same AgeStart and Sex keep the order of the file. *)
Theorem detail_table_sorted
    (s : store) (df : loc) (d : dataframe) (year : Z) :
  s !! df = Some (Records d) →
  ∃ t, detail_table df year s = Some (t, s)
       ∧ t ≡ₚ rows (year_rows d year)
       ∧ StronglySorted detail_le t
       ∧ ∀ k, filter (λ r, detail_key r = k) t
              = filter (λ r, detail_key r = k) (rows (year_rows d year)).
Proof.
  intros Hd. eexists. split.
  { unfold detail_table. by rewrite (bind_run _ _ _ _ _ (read_records_run _ _ _ Hd)). }
  split; [apply sort_values_Permutation|].
  split; [apply sort_values_sorted|]. intros k. apply sort_values_stable.
Qed.

(** ** The trend chart *)

(** The statements on the trend are for a table in which some row has an
    age group: its pivot table then has a row and a column, which is what
    the figure is drawn from. *)

(** The axis of the trend of such a table: the years that have a row with an
    age group, each once, ascending; there is a series and a year, and every
    series has one point, a value or a gap, for each year of the axis. *)
Theorem trend_axis (s : store) (data : loc) (d : dataframe) :
  s !! data = Some (Records d) →
  (∃ r g, r ∈ rows d ∧ g ∈ categories d ∧ AgeGroup r = Some g) →
  ∃ fig s' axis,
    generate_population_trend data s = Some (fig, s')
    ∧ fig ≠ []
    ∧ axis ≠ []
    ∧ StronglySorted Z.lt axis
    ∧ (∀ y, y ∈ axis ↔ ∃ r g, r ∈ rows d ∧ Time (rec r) = y
                              ∧ g ∈ categories d ∧ AgeGroup r = Some g)
    ∧ Forall (λ t, area_x t = axis ∧ length (area_y t) = length axis) fig.
Proof.
  intros Hd Hsome.
  destruct (generate_population_trend_series s data d Hd Hsome) as [ext Hrun].
  destruct Hsome as (r0 & g0 & Hr0 & Hg0 & Hrg0).
  eexists _, _, (trend_index d). split; [exact Hrun|].
  split; [|split; [|split; [|split]]].
  - assert (g0 ∈ filter (λ g, group_values (rows d) g ≠ []) (categories d))
      as Hin.
    { apply list_elem_of_filter. split; [|done].
      apply group_values_elem. by exists r0. }
    intros Hnil%fmap_nil_inv. rewrite Hnil in Hin. by apply not_elem_of_nil in Hin.
  - apply trend_index_nonempty. by exists r0, g0.
  - apply sorted_distinct.
  - intros y. rewrite elem_of_trend_index. split.
    + intros (r & Hr & (g & Hg & Hrg)%grouped_spec & Ht). by exists r, g.
    + intros (r & g & Hr & Ht & Hg & Hrg). exists r. split; [done|].
      split; [|done]. apply grouped_spec. by exists g.
  - apply Forall_fmap, Forall_forall. intros g _.
    cbn [compose trend_series area_x area_y]. by rewrite length_fmap.
Qed.

(** The trend has no empty series and no empty year: every series has a
    value at some year of the axis, and every year of the axis has a value
    in some series. *)
Theorem trend_never_all_gaps (s : store) (data : loc) (d : dataframe) :
  s !! data = Some (Records d) →
  (∃ r g, r ∈ rows d ∧ g ∈ categories d ∧ AgeGroup r = Some g) →
  ∃ fig s',
    generate_population_trend data s = Some (fig, s')
    ∧ Forall (λ t, ∃ y v, y ∈ area_x t
                          ∧ point_at y (zip (area_x t) (area_y t)) = Some v) fig
    ∧ Forall (λ t, ∀ y, y ∈ area_x t →
                        ∃ t' v, t' ∈ fig
                                ∧ point_at y (zip (area_x t') (area_y t'))
                                  = Some v) fig.
Proof.
  intros Hd Hsome.
  destruct (generate_population_trend_series s data d Hd Hsome) as [ext Hrun].
  eexists _, _. split; [exact Hrun|].
  assert (∀ r g, r ∈ rows d → g ∈ categories d → AgeGroup r = Some g →
                 Time (rec r) ∈ trend_index d
                 ∧ ∃ v, point_at (Time (rec r))
                          (zip (area_x (trend_series d g))
                               (area_y (trend_series d g))) = Some v) as Hcell.
  { intros r g Hr Hg Hrg.
    assert (Time (rec r) ∈ trend_index d) as Hy.
    { apply elem_of_trend_index. exists r. split; [done|]. split; [|done].
      apply grouped_spec. by exists g. }
    split; [done|]. rewrite point_at_cell, decide_True by done.
    assert (∃ v, trend_cell d (Time (rec r)) g = Some v) as [v ->].
    { eexists. apply trend_cell_Some. split; [|done].
      apply group_values_elem. exists r. split; [|done].
      by apply list_elem_of_filter. }
    by eexists. }
  split.
  - apply Forall_fmap, Forall_forall.
    intros g [Hne Hg]%list_elem_of_filter. unfold compose.
    apply group_values_elem in Hne as (r & Hr & Hrg).
    destruct (Hcell r g Hr Hg Hrg) as [Hy [v Hv]].
    by exists (Time (rec r)), v.
  - apply Forall_fmap, Forall_forall. intros g0 _ y Hy.
    cbn [compose trend_series area_x] in Hy.
    apply elem_of_trend_index in Hy as (r & Hr & (g & Hg & Hrg)%grouped_spec & <-).
    destruct (Hcell r g Hr Hg Hrg) as [Hy [v Hv]].
    exists (trend_series d g), v. split; [|done].
    apply list_elem_of_fmap. exists g. split; [done|].
    apply list_elem_of_filter. split; [|done].
    apply group_values_elem. by exists r.
Qed.

Lemma complete_trend_cells d :
  complete (trend_cells d) = true
  ↔ ∀ g y, g ∈ filter (λ g, group_values (rows d) g ≠ []) (categories d) →
           y ∈ trend_index d → is_Some (trend_cell d y g).
Proof.
  unfold complete, trend_cells. rewrite <- Is_true_true, forallb_True.
  rewrite Forall_fmap, Forall_forall. split.
  - intros Hall g y Hg Hy. specialize (Hall g Hg). cbn [compose snd] in Hall.
    apply forallb_True in Hall. rewrite Forall_fmap, Forall_forall in Hall.
    exact (bool_decide_unpack _ (Hall y Hy)).
  - intros Hall g Hg. cbn [compose snd]. apply forallb_True.
    rewrite Forall_fmap, Forall_forall. intros y Hy.
    exact (bool_decide_pack _ (Hall g y Hg Hy)).
Qed.

(** The values of the trend have one type: int64 when no cell of the pivot
    table is missing, float64 when one is. *)
Lemma trend_series_type d g :
  (complete (trend_cells d) = true →
   g ∈ filter (λ g, group_values (rows d) g ≠ []) (categories d) →
   Forall (λ n, ∃ v, n = Int v) (area_y (trend_series d g)))
  ∧ (complete (trend_cells d) = false →
     Forall (λ n, ∃ x, n = Float x) (area_y (trend_series d g))).
Proof.
  cbn [trend_series area_y]. split.
  - intros Hc Hg. rewrite Hc. apply Forall_fmap, Forall_forall. intros y Hy.
    destruct (proj1 (complete_trend_cells d) Hc g y Hg Hy) as [v Hv].
    cbn [compose]. rewrite Hv. by eexists.
  - intros ->. apply Forall_fmap, Forall_forall. intros y _. cbn [compose].
    destruct (trend_cell d y g); by eexists.
Qed.

(** The points of the trend of the loaded table, for non-negative counts
    that add up without overflow: an age group has a series exactly when
    it has a row; its series shows a count at a year exactly when the age
    group has a row in that year, the count is the total of the age group
    in that year, the total the comparison takes for that year, and no
    point shows anything but a count. The values are int64 when every
    series has a count at every year of the axis; as soon as one point is a
    gap, every value of the figure is a float64. *)
Theorem trend_points
    (csv : list csv_row) (s : store) (data : loc) :
  s !! data = Some (Records (load_data csv)) →
  counts_ok csv →
  (∃ r, r ∈ csv ∧ AgeEnd r ∈ mapping_keys) →
  ∃ fig s',
    generate_population_trend data s = Some (fig, s')
    ∧ (∀ g, g ∈ area_name <$> fig ↔ ∃ y, has_aggregate csv y g)
    ∧ Forall (λ t, ∀ y,
                (∀ v, (∃ n, point_at y (zip (area_x t) (area_y t)) = Some n
                            ∧ count n = Some v)
                      ↔ has_aggregate csv y (area_name t)
                        ∧ v = V csv y (area_name t))
                ∧ (∀ n, point_at y (zip (area_x t) (area_y t)) = Some n →
                        is_Some (count n))) fig
    ∧ ((∀ t y, t ∈ fig → y ∈ area_x t → has_aggregate csv y (area_name t)) →
       Forall (λ t, Forall (λ n, ∃ v, n = Int v) (area_y t)) fig)
    ∧ (∀ t y, t ∈ fig → y ∈ area_x t → ¬ has_aggregate csv y (area_name t) →
              Forall (λ t', Forall (λ n, ∃ x, n = Float x) (area_y t')) fig).
Proof.
  intros Hd Hok Hsome%has_grouped_row_loaded.
  destruct (generate_population_trend_series s data _ Hd Hsome) as [ext Hrun].
  eexists _, _. split; [exact Hrun|].
  set (d := load_data csv).
  assert (∀ y g, is_Some (trend_cell d y g) ↔ has_aggregate csv y g) as Hsome_cell.
  { intros y g. split.
    - intros [v Hv]. by apply trend_cell_loaded in Hv as [? _].
    - intros Hagg. eexists. by apply trend_cell_loaded. }
  assert (∀ y g n,
            point_at y (zip (area_x (trend_series d g))
                            (area_y (trend_series d g))) = Some n
            ↔ has_aggregate csv y g
              ∧ n = unstack_cell (complete (trend_cells d)) (Some (V csv y g)))
    as Hpoint.
  { intros y g n. rewrite point_at_cell.
    destruct (V_exact csv y g Hok) as [Hw _]. case_decide as Hy.
    - destruct (trend_cell d y g) as [v|] eqn:Hc.
      + apply trend_cell_loaded in Hc as [Hagg ->]. rewrite Hw.
        cbn [fmap option_fmap option_map]. split.
        * by intros [= <-].
        * by intros [_ ->].
      + cbn [fmap option_fmap option_map]. split; [done|]. intros [Hagg _].
        assert (trend_cell d y g = Some (Int64.wrap64 (V csv y g))) as Hc'
          by (by apply trend_cell_loaded).
        by rewrite Hc in Hc'.
    - cbn [fmap option_fmap option_map]. split; [done|].
      intros [(r & Hr & <- & Hrg) _]. exfalso. apply Hy.
      apply trend_index_loaded. exists r. split; [done|]. split; [done|].
      apply spec_age_group_keys. by eexists. }
  assert (∀ y g, count (unstack_cell (complete (trend_cells d))
                          (Some (V csv y g))) = Some (V csv y g)) as Hcount.
  { intros y g. apply count_unstack_cell.
    destruct (V_exact csv y g Hok) as [_ ?]. lia. }
  split; [|split; [|split]].
  - intros g. rewrite <- list_fmap_compose, list_elem_of_fmap. split.
    + intros (g' & -> & [Hne Hg]%list_elem_of_filter). cbn [compose area_name].
      unfold d in Hne. rewrite rows_load_data, group_values_loaded in Hne.
      destruct (filter _ csv) as [|r l] eqn:Hf; [done|].
      assert (r ∈ filter (λ r, spec_age_group (AgeEnd r) = Some g') csv) as Hr
        by (rewrite Hf; left).
      apply list_elem_of_filter in Hr as [Hrg Hr].
      exists (Time r), r. by repeat split.
    + intros (y & r & Hr & _ & Hrg). exists g. split; [done|].
      apply list_elem_of_filter. split.
      * apply group_values_elem. exists (loaded r). split; [|done].
        unfold d. rewrite rows_load_data. apply list_elem_of_fmap. by exists r.
      * by apply (spec_age_group_elem (AgeEnd r)).
  - apply Forall_fmap, Forall_forall. intros g _ y.
    cbn [compose]. change (area_name (trend_series d g)) with g. split.
    + intros v. split.
      * intros (n & [Hagg ->]%Hpoint & Hn). rewrite Hcount in Hn.
        injection Hn as <-. by split.
      * intros [Hagg ->]. eexists. split; [by apply Hpoint|apply Hcount].
    + intros n [_ ->]%Hpoint. rewrite Hcount. by eexists.
  - intros Hall.
    assert (complete (trend_cells d) = true) as Hc.
    { apply complete_trend_cells. intros g y Hg Hy. apply Hsome_cell.
      apply (Hall (trend_series d g) y); [|done].
      apply list_elem_of_fmap. by exists g. }
    apply Forall_fmap, Forall_forall. intros g Hg. cbn [compose].
    by apply trend_series_type.
  - intros t y (g & -> & Hg)%list_elem_of_fmap Hy Hnone.
    cbn [trend_series area_x area_name] in Hy, Hnone.
    assert (complete (trend_cells d) = false) as Hc.
    { destruct (complete (trend_cells d)) eqn:Hc; [|done]. exfalso.
      apply Hnone, Hsome_cell.
      by apply (proj1 (complete_trend_cells d) Hc g y). }
    apply Forall_fmap, Forall_forall. intros g' _. cbn [compose].
    by apply trend_series_type.
Qed.

(** ** What a figure depends on *)

Lemma year_rows_loaded_eq csv csv' year :
  filter (λ r, Time r = year) csv = filter (λ r, Time r = year) csv' →
  year_rows (load_data csv) year = year_rows (load_data csv') year.
Proof.
  intros Hy. pose proof (rows_year_rows csv year) as H1.
  pose proof (rows_year_rows csv' year) as H2. rewrite Hy in H1.
  unfold year_rows, select in *. cbn [rows categories] in *.
  f_equal. by rewrite H1, H2.
Qed.

(** The pyramid of a year and the comparison of two years depend on the rows
    of those years only: two files with the same rows for them give the
    same figures, whatever their other years hold. *)
Theorem figures_depend_on_their_years
    (csv csv' : list csv_row) (s s' : store) (data data' : loc)
    (year1 year2 : Z) :
  s !! data = Some (Records (load_data csv)) →
  s' !! data' = Some (Records (load_data csv')) →
  year1 ≠ year2 →
  filter (λ r, Time r = year1) csv = filter (λ r, Time r = year1) csv' →
  filter (λ r, Time r = year2) csv = filter (λ r, Time r = year2) csv' →
  ∃ p1 p2 c,
    (fst <$> generate_population_pyramid data year1 s = Some p1
     ∧ fst <$> generate_population_pyramid data' year1 s' = Some p1)
    ∧ (fst <$> generate_population_pyramid data year2 s = Some p2
       ∧ fst <$> generate_population_pyramid data' year2 s' = Some p2)
    ∧ (fst <$> generate_comparison_chart data data year1 year2 s = Some c
       ∧ fst <$> generate_comparison_chart data' data' year1 year2 s' = Some c).
Proof.
  intros Hd Hd' Hne H1 H2.
  apply year_rows_loaded_eq in H1. apply year_rows_loaded_eq in H2.
  destruct (generate_population_pyramid_run s data _ year1 Hd) as [e1 ->].
  destruct (generate_population_pyramid_run s' data' _ year1 Hd') as [e1' ->].
  destruct (generate_population_pyramid_run s data _ year2 Hd) as [e2 ->].
  destruct (generate_population_pyramid_run s' data' _ year2 Hd') as [e2' ->].
  destruct (generate_comparison_chart_run s data data _ _ year1 year2 Hd Hd Hne)
    as [e3 ->].
  destruct (generate_comparison_chart_run s' data' data' _ _ year1 year2
              Hd' Hd' Hne) as [e3' ->].
  eexists _, _, _. cbn [fmap option_fmap option_map fst].
  unfold compare_rows. rewrite <- H1, <- H2.
  repeat split; reflexivity.
Qed.

(** ** The labels of the pyramid *)

(** In both series of the pyramid every age group has one bar and one label;
    for counts that are non-negative and add up without overflow the label
    of a bar, a float64, holds the magnitude of the bar: the bar itself for
    men, its opposite for women. *)
Theorem pyramid_labels
    (csv : list csv_row) (s : store) (data : loc) (year : Z) :
  s !! data = Some (Records (load_data csv)) →
  counts_ok csv →
  ∃ fig s',
    generate_population_pyramid data year s = Some (fig, s')
    ∧ Float64.to_Z <$> bar_text (hombres fig)
      = Some <$> (Z.abs <$> bar_x (hombres fig))
    ∧ Float64.to_Z <$> bar_text (mujeres fig)
      = Some <$> (Z.abs <$> bar_x (mujeres fig))
    ∧ length (bar_y (hombres fig)) = length (bar_x (hombres fig))
    ∧ length (bar_y (mujeres fig)) = length (bar_x (mujeres fig))
    ∧ NoDup (bar_y (hombres fig))
    ∧ NoDup (bar_y (mujeres fig)).
Proof.
  intros Hd Hok.
  destruct (generate_population_pyramid_run s data _ year Hd) as [ext Hrun].
  eexists _, _. split; [exact Hrun|].
  cbn [hombres mujeres bar_x bar_y bar_text].
  set (dm := sex_rows (year_rows (load_data csv) year) "Hombre").
  set (df := sex_rows (year_rows (load_data csv) year) "Mujer").
  pose proof (selected_totals_range csv _ dm eq_refl
                (rows_sex_rows csv year "Hombre") Hok) as Hmr.
  pose proof (selected_totals_range csv _ df eq_refl
                (rows_sex_rows csv year "Mujer") Hok) as Hfr.
  split; [|split; [|split; [|split; [|split]]]].
  - set (L := (groupby_sum dm).*2) in *. rewrite <- !list_fmap_compose.
    apply Forall_fmap_ext_1. eapply Forall_impl; [exact Hmr|].
    intros v [Hv0 Hv1]. unfold compose. rewrite Z.abs_eq by lia.
    apply of_int_exact. lia.
  - set (L := (groupby_sum df).*2) in *. rewrite <- !list_fmap_compose.
    apply Forall_fmap_ext_1. eapply Forall_impl; [exact Hfr|].
    intros v Hv. unfold compose. rewrite (neg_exact v Hv).
    destruct Hv as [Hv0 Hv1].
    rewrite Z.abs_neq, Z.opp_involutive by lia. apply of_int_exact. lia.
  - by rewrite !length_fmap.
  - by rewrite !length_fmap.
  - apply (NoDup_groupby_sum_keys dm), NoDup_age_groups.
  - apply (NoDup_groupby_sum_keys df), NoDup_age_groups.
Qed.

(** ** The order of the age groups *)

Lemma mapping_keys_rank (i : nat) z :
  mapping_keys !! i = Some z →
  ∃ g, age_groups !! i = Some g ∧ spec_age_group z = Some g
       ∧ position age_groups g = Some i.
Proof.
  unfold mapping_keys.
  do 17 (destruct i as [|i];
         [intros [= <-]; eexists; split; [reflexivity|];
          split; vm_compute; reflexivity|]).
  intros Hi. simpl in Hi. discriminate.
Qed.

Lemma spec_age_group_rank z g :
  spec_age_group z = Some g →
  ∃ i, mapping_keys !! i = Some z ∧ position age_groups g = Some i.
Proof.
  intros Hg. assert (z ∈ mapping_keys) as Hz
    by (apply spec_age_group_keys; by eexists).
  apply list_elem_of_lookup_1 in Hz as [i Hi]. exists i. split; [done|].
  destruct (mapping_keys_rank i z Hi) as (g' & _ & Hg' & Hp).
  rewrite Hg in Hg'. by injection Hg' as ->.
Qed.

Lemma StronglySorted_lt_lookup (l : list Z) i j a b :
  StronglySorted Z.lt l → l !! i = Some a → l !! j = Some b →
  (i < j)%nat → a < b.
Proof.
  intros Hs. revert i j. induction Hs as [|x l Hl IH Hx]; intros i j Hi Hj Hij.
  - by rewrite lookup_nil in Hi.
  - destruct j as [|j]; [lia|]. simpl in Hj. destruct i as [|i].
    + simpl in Hi. injection Hi as <-. rewrite Forall_forall in Hx.
      apply Hx. by eapply list_elem_of_lookup_2.
    + simpl in Hi. apply (IH i j); [done..|lia].
Qed.

Lemma mapping_keys_sorted : StronglySorted Z.lt mapping_keys.
Proof.
  unfold mapping_keys.
  repeat (constructor; [|repeat (constructor; [lia|]); constructor]).
  constructor.
Qed.

(** The order of the categories is the order of the ages: of two loaded
    rows that have an age group, the one with the smaller [AgeEnd] has the
    label that comes first among the categories. *)
Theorem age_group_order_follows_age (csv : list csv_row) (r1 r2 : row) g1 g2 :
  r1 ∈ rows (load_data csv) →
  r2 ∈ rows (load_data csv) →
  AgeGroup r1 = Some g1 →
  AgeGroup r2 = Some g2 →
  ∃ i1 i2,
    position (categories (load_data csv)) g1 = Some i1
    ∧ position (categories (load_data csv)) g2 = Some i2
    ∧ (AgeEnd (rec r1) < AgeEnd (rec r2) ↔ (i1 < i2)%nat)
    ∧ (AgeEnd (rec r1) = AgeEnd (rec r2) ↔ g1 = g2).
Proof.
  rewrite rows_load_data.
  intros (c1 & -> & _)%list_elem_of_fmap (c2 & -> & _)%list_elem_of_fmap.
  cbn [loaded AgeGroup rec]. intros H1 H2.
  destruct (spec_age_group_rank _ _ H1) as (i1 & K1 & P1).
  destruct (spec_age_group_rank _ _ H2) as (i2 & K2 & P2).
  exists i1, i2. split; [exact P1|]. split; [exact P2|].
  pose proof mapping_keys_sorted as Hs.
  assert (AgeEnd c1 < AgeEnd c2 ↔ (i1 < i2)%nat) as Hlt.
  { split.
    - intros Hlt. destruct (Nat.lt_trichotomy i1 i2) as [?|[->|Hgt]]; [done| |].
      + rewrite K1 in K2. injection K2 as Heq. lia.
      + pose proof (StronglySorted_lt_lookup _ _ _ _ _ Hs K2 K1 Hgt). lia.
    - by apply (StronglySorted_lt_lookup _ _ _ _ _ Hs K1 K2). }
  split; [exact Hlt|]. split.
  - intros Heq. rewrite Heq in H1. rewrite H1 in H2. by injection H2.
  - intros <-. rewrite P1 in P2. injection P2 as ->.
    rewrite K1 in K2. by injection K2.
Qed.

(** ** The sign of the change *)

(** When no age group present in year 1 has a zero total, no change of the
    comparison is NaN, and the change of an age group is negative exactly
    when its total is smaller in year 2 than in year 1. *)
Theorem comparison_change_sign
    (csv : list csv_row) (s : store) (df data : loc) (dg : dataframe)
    (year1 year2 : Z) :
  s !! data = Some (Records (load_data csv)) →
  s !! df = Some (Records dg) →
  counts_ok csv →
  year1 ≠ year2 →
  (∀ g, has_aggregate csv year1 g → V csv year1 g ≠ 0) →
  ∃ fig s',
    generate_comparison_chart df data year1 year2 s = Some (fig, s')
    ∧ ∀ g c, (g, c) ∈ zip (cmp_x fig) (cmp_y fig) →
             sign c = Some (V csv year2 g <? V csv year1 g)%Z.
Proof.
  intros Hd Hdf Hok Hne Hnz.
  destruct (generate_comparison_chart_run s df data _ dg year1 year2 Hd Hdf Hne)
    as [ext Hrun].
  eexists _, _. split; [exact Hrun|]. cbn [cmp_x cmp_y].
  intros g c (H1 & _ & ->)%elem_of_comparison.
  destruct (V_exact csv year1 g Hok) as [-> R1].
  destruct (V_exact csv year2 g Hok) as [-> R2].
  apply pct_change_sign; [|done]. specialize (Hnz g H1). lia.
Qed.

(** ** The page *)

Lemma comparison_tab_run s df d year1 year2 :
  s !! df = Some (Records d) →
  ∃ ext, comparison_tab df year1 year2 s
         = Some (tab3_of d year1 year2, s ++ ext).
Proof.
  intros Hd. unfold comparison_tab, tab3_of. case_decide as Hy.
  - exists []. by rewrite app_nil_r.
  - destruct (generate_comparison_chart_run s df df d d year1 year2 Hd Hd Hy)
      as [ext Hrun].
    exists ext. by rewrite (bind_run _ _ _ _ _ Hrun).
Qed.

Lemma detail_table_run s df d year :
  s !! df = Some (Records d) →
  detail_table df year s = Some (sort_values (rows (year_rows d year)), s).
Proof.
  intros Hd. unfold detail_table.
  by rewrite (bind_run _ _ _ _ _ (read_records_run _ _ _ Hd)).
Qed.

Lemma render_run s df d year year1 year2 :
  s !! df = Some (Records d) →
  has_grouped_row d →
  ∃ ext, render df year year1 year2 s
         = Some (page_of d year year1 year2, s ++ ext).
Proof.
  intros Hd Hidx%trend_index_nonempty. unfold render.
  rewrite (bind_run _ _ _ _ _ (main_metrics_run s df d year Hd)).
  destruct (generate_population_pyramid_run s df d year Hd) as [e1 H1].
  rewrite (bind_run _ _ _ _ _ H1).
  assert ((s ++ e1) !! df = Some (Records d)) as Hd1
    by (by apply lookup_app_l_Some).
  destruct (generate_population_trend_run (s ++ e1) df d Hd1 Hidx) as [e2 H2].
  rewrite (bind_run _ _ _ _ _ H2).
  assert (((s ++ e1) ++ e2) !! df = Some (Records d)) as Hd2
    by (by apply lookup_app_l_Some).
  destruct (comparison_tab_run ((s ++ e1) ++ e2) df d year1 year2 Hd2)
    as [e3 H3].
  rewrite (bind_run _ _ _ _ _ H3).
  assert ((((s ++ e1) ++ e2) ++ e3) !! df = Some (Records d)) as Hd3
    by (by apply lookup_app_l_Some).
  rewrite (bind_run _ _ _ _ _ (detail_table_run _ df d year Hd3)).
  exists (e1 ++ e2 ++ e3). by rewrite !(assoc_L (++)).
Qed.

(** For a table in which some row has an age group the page renders for
    every selection of the sidebar, it leaves the table as it was, and each
    of its parts is what the function that builds it returns when it is
    called alone on the table: the calls of the script do not affect one
    another. *)
Theorem render_page
    (s : store) (df : loc) (d : dataframe) (year year1 year2 : Z) :
  s !! df = Some (Records d) →
  (∃ r g, r ∈ rows d ∧ g ∈ categories d ∧ AgeGroup r = Some g) →
  ∃ pg s',
    render df year year1 year2 s = Some (pg, s')
    ∧ s' !! df = Some (Records d)
    ∧ preserves s s'
    ∧ fst <$> main_metrics df year s = Some (cards pg)
    ∧ fst <$> generate_population_pyramid df year s = Some (tab1 pg)
    ∧ fst <$> generate_population_trend df s = Some (tab2 pg)
    ∧ fst <$> comparison_tab df year1 year2 s = Some (tab3 pg)
    ∧ fst <$> detail_table df year s = Some (details pg).
Proof.
  intros Hd Hsome.
  destruct (render_run s df d year year1 year2 Hd Hsome) as [ext Hrun].
  apply trend_index_nonempty in Hsome as Hidx.
  eexists _, _. split; [exact Hrun|].
  split; [by apply lookup_app_l_Some|]. split; [apply preserves_app|].
  cbn [page_of cards tab1 tab2 tab3 details].
  rewrite (main_metrics_run s df d year Hd).
  destruct (generate_population_pyramid_run s df d year Hd) as [e1 ->].
  destruct (generate_population_trend_run s df d Hd Hidx) as [e2 ->].
  destruct (comparison_tab_run s df d year1 year2 Hd) as [e3 ->].
  rewrite (detail_table_run s df d year Hd).
  by repeat split.
Qed.

(** ** The first run of the script *)

Lemma rows_nil_csv csv : rows (load_data csv) = [] ↔ csv = [].
Proof.
  rewrite rows_load_data. split; [apply fmap_nil_inv|by intros ->].
Qed.

Lemma script_defaults csv lo hi :
  sidebar_defaults (years (load_data csv)) = Some (hi, (lo, hi)) →
  script csv
  = fst <$> render 0%nat hi lo hi [Records (load_data csv)].
Proof. intros Hdef. unfold script. by rewrite Hdef. Qed.

(** On a file without rows the defaults of the sidebar cannot be taken:
    [years[0]] raises. *)
Example script_empty_file : script [] = None.
Proof. reflexivity. Qed.

(** On a file in which some row has an age group the first page shows the
    cards and the pyramid of the latest year of the file, and the comparison
    of its earliest year with its latest; the comparison tab shows the
    warning exactly when all rows are of one year. *)
Theorem script_first_page (csv : list csv_row) :
  (∃ r, r ∈ csv ∧ AgeEnd r ∈ mapping_keys) →
  ∃ pg lo hi,
    script csv = Some pg
    ∧ (∃ r, r ∈ csv ∧ Time r = lo)
    ∧ (∃ r, r ∈ csv ∧ Time r = hi)
    ∧ (∀ r, r ∈ csv → lo <= Time r <= hi)
    ∧ fst <$> main_metrics 0%nat hi [Records (load_data csv)]
      = Some (cards pg)
    ∧ fst <$> generate_population_pyramid 0%nat hi [Records (load_data csv)]
      = Some (tab1 pg)
    ∧ fst <$> comparison_tab 0%nat lo hi [Records (load_data csv)]
      = Some (tab3 pg)
    ∧ ((∃ message, tab3 pg = Warning message)
       ↔ ∀ r r', r ∈ csv → r' ∈ csv → Time r = Time r').
Proof.
  intros Hsome. pose proof (proj2 (has_grouped_row_loaded csv) Hsome) as Hrow.
  destruct Hsome as (r0 & Hr0 & _). set (d := load_data csv).
  destruct (sidebar_defaults_extremes d) as (lo & hi & Hdef & Hlo & Hhi & Hall).
  { intros Hnil%rows_nil_csv. rewrite Hnil in Hr0. by apply not_elem_of_nil in Hr0. }
  assert (∀ y, (∃ r, r ∈ rows d ∧ Time (rec r) = y)
               ↔ ∃ r, r ∈ csv ∧ Time r = y) as Hrows.
  { intros y. unfold d. rewrite rows_load_data. split.
    - intros (r & (c & -> & Hc)%list_elem_of_fmap & Ht). by exists c.
    - intros (c & Hc & Ht). exists (loaded c). split; [|done].
      apply list_elem_of_fmap. by exists c. }
  assert (∀ r, r ∈ csv → lo <= Time r <= hi) as Hall'.
  { intros c Hc. apply (Hall (loaded c)). unfold d. rewrite rows_load_data.
    apply list_elem_of_fmap. by exists c. }
  destruct (render_run [Records d] 0%nat d hi lo hi eq_refl Hrow) as [ext Hrun].
  exists (page_of d hi lo hi), lo, hi.
  split; [rewrite (script_defaults _ lo hi Hdef); fold d; by rewrite Hrun|].
  split; [by apply Hrows|]. split; [by apply Hrows|]. split; [exact Hall'|].
  cbn [page_of cards tab1 tab3].
  rewrite (main_metrics_run [Records d] 0%nat d hi eq_refl).
  destruct (generate_population_pyramid_run [Records d] 0%nat d hi eq_refl)
    as [e1 ->].
  destruct (comparison_tab_run [Records d] 0%nat d lo hi eq_refl) as [e3 ->].
  split; [done|]. split; [done|]. split; [done|].
  unfold tab3_of. apply Hrows in Hlo as (rlo & Hrlo & Hlo).
  apply Hrows in Hhi as (rhi & Hrhi & Hhi). case_decide as Heq; split.
  - intros _ r r' Hr Hr'. pose proof (Hall' r Hr). pose proof (Hall' r' Hr'). lia.
  - intros _. by eexists.
  - by intros [message ?].
  - intros Hone. exfalso. apply Heq. rewrite <- Hlo, <- Hhi. by apply Hone.
Qed.

(** ** The properties of the rest of the script on concrete tables *)

Ltac forall_in_rows tac :=
  let HF := fresh "HF" in
  match goal with
  | |- ∀ r, r ∈ ?l → @?P r =>
      assert (Forall P l) as HF by forall_rows tac;
      intros r Hr; exact (proj1 (Forall_forall P l) HF r Hr)
  end.

Example script_example :
  script small_census
  = Some (page_of (load_data small_census) 2017 1981 2017)
  ∧ cards (page_of (load_data small_census) 2017 1981 2017)
    = {| total_pop := 10; male_pop := 4; female_pop := 6 |}
  ∧ details (page_of (load_data small_census) 2017 1981 2017)
    = [ {| rec := record 2017 4 "Hombre" 4; AgeGroup := Some "0-4" |};
        {| rec := record 2017 9 "Mujer" 6; AgeGroup := Some "5-9" |} ].
Proof. repeat split; vm_compute; reflexivity. Qed.

Lemma metrics_add_up_witness :
  let d := load_data small_census in
  let s := [Records d] in
  let df := 0%nat in
  let year := 2017 in
  s !! df = Some (Records d)
  ∧ (∀ r, r ∈ rows d → Time (rec r) = year →
          Sex (rec r) = "Hombre" ∨ Sex (rec r) = "Mujer")
  ∧ ∃ m, main_metrics df year s = Some (m, s)
         ∧ Int64.add (male_pop m) (female_pop m) = total_pop m.
Proof.
  intros d s df year.
  assert (∀ r, r ∈ rows d → Time (rec r) = year →
               Sex (rec r) = "Hombre" ∨ Sex (rec r) = "Mujer") as Hsex.
  { forall_in_rows
      ltac:(vm_compute; intros Ht;
            first [discriminate Ht | left; reflexivity | right; reflexivity]). }
  split; [reflexivity|]. split; [exact Hsex|].
  exact (metrics_add_up s df d year eq_refl Hsex).
Defined.

Lemma cards_count_unmapped_rows_witness :
  let csv := [record 2017 4 "Hombre" 4; record 2017 82 "Hombre" 10] in
  let s := [Records (load_data csv)] in
  let df := 0%nat in
  let year := 2017 in
  s !! df = Some (Records (load_data csv))
  ∧ counts_ok csv
  ∧ ∃ m fig s',
      main_metrics df year s = Some (m, s)
      ∧ generate_population_pyramid df year s = Some (fig, s')
      ∧ male_pop m
        = zsum (bar_x (hombres fig))
          + total (λ r, (Time r = year ∧ Sex r = "Hombre")
                        ∧ AgeEnd r ∉ mapping_keys) csv
      ∧ female_pop m
        = zsum (Z.abs <$> bar_x (mujeres fig))
          + total (λ r, (Time r = year ∧ Sex r = "Mujer")
                        ∧ AgeEnd r ∉ mapping_keys) csv.
Proof.
  intros csv s df year.
  assert (counts_ok csv) as Hok by rows_counts_ok.
  split; [reflexivity|]. split; [exact Hok|].
  exact (cards_count_unmapped_rows csv s df year eq_refl Hok).
Defined.

Lemma comparison_tab_guard_witness :
  let d := load_data small_census in
  let s := [Records d] in
  let df := 0%nat in
  let year1 := 2017 in
  let year2 := 2017 in
  s !! df = Some (Records d)
  ∧ ∃ content s',
      comparison_tab df year1 year2 s = Some (content, s')
      ∧ preserves s s'
      ∧ (year1 = year2 →
         content = Warning "Seleccione dos años diferentes para comparar"
         ∧ s' = s)
      ∧ (year1 ≠ year2 →
         ∃ c, content = Chart c
              ∧ generate_comparison_chart df df year1 year2 s = Some (c, s')).
Proof.
  intros d s df year1 year2. split; [reflexivity|].
  exact (comparison_tab_guard s df d year1 year2 eq_refl).
Defined.

Lemma comparison_absent_year_witness :
  let d := load_data small_census in
  let s := [Records d] in
  let df := 0%nat in
  let data := 0%nat in
  let dg := d in
  let year1 := 1990 in
  let year2 := 2017 in
  s !! data = Some (Records d)
  ∧ s !! df = Some (Records dg)
  ∧ year1 ≠ year2
  ∧ ((year1 ∉ (λ r, Time (rec r)) <$> rows d)
     ∨ (year2 ∉ (λ r, Time (rec r)) <$> rows d))
  ∧ ∃ s', generate_comparison_chart df data year1 year2 s
          = Some ({| cmp_x := []; cmp_y := [];
                     categoryarray := categories dg |}, s').
Proof.
  intros d s df data dg year1 year2.
  assert (year1 ≠ year2) as Hne by discriminate.
  assert ((year1 ∉ (λ r, Time (rec r)) <$> rows d)
          ∨ (year2 ∉ (λ r, Time (rec r)) <$> rows d)) as Habs
    by (left; refine (bool_decide_unpack _ _); vm_compute; exact I).
  split; [reflexivity|]. split; [reflexivity|]. split; [exact Hne|].
  split; [exact Habs|].
  exact (comparison_absent_year s df data d dg year1 year2
           eq_refl eq_refl Hne Habs).
Defined.

Lemma comparison_axis_symmetric_witness :
  let d := load_data small_census in
  let s := [Records d] in
  let df := 0%nat in
  let data := 0%nat in
  let dg := d in
  let year1 := 1981 in
  let year2 := 2017 in
  s !! data = Some (Records d)
  ∧ s !! df = Some (Records dg)
  ∧ NoDup (categories d)
  ∧ year1 ≠ year2
  ∧ ∃ c c' s1 s2,
      generate_comparison_chart df data year1 year2 s = Some (c, s1)
      ∧ generate_comparison_chart df data year2 year1 s = Some (c', s2)
      ∧ cmp_x c = cmp_x c'
      ∧ cmp_x c
        = filter (λ g, group_values (rows (year_rows d year1)) g ≠ []
                       ∧ group_values (rows (year_rows d year2)) g ≠ [])
            (categories d)
      ∧ length (cmp_y c) = length (cmp_x c)
      ∧ length (cmp_y c') = length (cmp_x c).
Proof.
  intros d s df data dg year1 year2.
  assert (year1 ≠ year2) as Hne by discriminate.
  split; [reflexivity|]. split; [reflexivity|].
  split; [exact NoDup_age_groups|]. split; [exact Hne|].
  exact (comparison_axis_symmetric s df data d dg year1 year2
           eq_refl eq_refl NoDup_age_groups Hne).
Defined.

Lemma detail_table_sorted_witness :
  let d := load_data small_census in
  let s := [Records d] in
  let df := 0%nat in
  let year := 1981 in
  s !! df = Some (Records d)
  ∧ ∃ t, detail_table df year s = Some (t, s)
         ∧ t ≡ₚ rows (year_rows d year)
         ∧ StronglySorted detail_le t
         ∧ ∀ k, filter (λ r, detail_key r = k) t
                = filter (λ r, detail_key r = k) (rows (year_rows d year)).
Proof.
  intros d s df year. split; [reflexivity|].
  exact (detail_table_sorted s df d year eq_refl).
Defined.

Lemma trend_axis_witness :
  let d := load_data small_census in
  let s := [Records d] in
  let data := 0%nat in
  s !! data = Some (Records d)
  ∧ (∃ r g, r ∈ rows d ∧ g ∈ categories d ∧ AgeGroup r = Some g)
  ∧ ∃ fig s' axis,
      generate_population_trend data s = Some (fig, s')
      ∧ fig ≠ []
      ∧ axis ≠ []
      ∧ StronglySorted Z.lt axis
      ∧ (∀ y, y ∈ axis ↔ ∃ r g, r ∈ rows d ∧ Time (rec r) = y
                                ∧ g ∈ categories d ∧ AgeGroup r = Some g)
      ∧ Forall (λ t, area_x t = axis ∧ length (area_y t) = length axis) fig.
Proof.
  intros d s data.
  assert (∃ r g, r ∈ rows d ∧ g ∈ categories d ∧ AgeGroup r = Some g) as Hsome.
  { exists (loaded (record 1981 4 "Hombre" 3)), "0-4". split; [|split].
    - apply (list_elem_of_lookup_2 _ 0%nat). vm_compute. reflexivity.
    - apply (list_elem_of_lookup_2 _ 0%nat). reflexivity.
    - vm_compute. reflexivity. }
  split; [reflexivity|]. split; [exact Hsome|].
  exact (trend_axis s data d eq_refl Hsome).
Defined.

Lemma trend_never_all_gaps_witness :
  let d := load_data small_census in
  let s := [Records d] in
  let data := 0%nat in
  s !! data = Some (Records d)
  ∧ (∃ r g, r ∈ rows d ∧ g ∈ categories d ∧ AgeGroup r = Some g)
  ∧ ∃ fig s',
      generate_population_trend data s = Some (fig, s')
      ∧ Forall (λ t, ∃ y v, y ∈ area_x t
                            ∧ point_at y (zip (area_x t) (area_y t)) = Some v)
          fig
      ∧ Forall (λ t, ∀ y, y ∈ area_x t →
                          ∃ t' v, t' ∈ fig
                                  ∧ point_at y (zip (area_x t') (area_y t'))
                                    = Some v) fig.
Proof.
  intros d s data.
  assert (∃ r g, r ∈ rows d ∧ g ∈ categories d ∧ AgeGroup r = Some g) as Hsome.
  { exists (loaded (record 1981 4 "Hombre" 3)), "0-4". split; [|split].
    - apply (list_elem_of_lookup_2 _ 0%nat). vm_compute. reflexivity.
    - apply (list_elem_of_lookup_2 _ 0%nat). reflexivity.
    - vm_compute. reflexivity. }
  split; [reflexivity|]. split; [exact Hsome|].
  exact (trend_never_all_gaps s data d eq_refl Hsome).
Defined.

Lemma trend_points_witness :
  let csv := small_census in
  let s := [Records (load_data csv)] in
  let data := 0%nat in
  s !! data = Some (Records (load_data csv))
  ∧ counts_ok csv
  ∧ (∃ r, r ∈ csv ∧ AgeEnd r ∈ mapping_keys)
  ∧ ∃ fig s',
      generate_population_trend data s = Some (fig, s')
      ∧ (∀ g, g ∈ area_name <$> fig ↔ ∃ y, has_aggregate csv y g)
      ∧ Forall (λ t, ∀ y,
                  (∀ v, (∃ n, point_at y (zip (area_x t) (area_y t)) = Some n
                              ∧ count n = Some v)
                        ↔ has_aggregate csv y (area_name t)
                          ∧ v = V csv y (area_name t))
                  ∧ (∀ n, point_at y (zip (area_x t) (area_y t)) = Some n →
                          is_Some (count n))) fig
      ∧ ((∀ t y, t ∈ fig → y ∈ area_x t → has_aggregate csv y (area_name t)) →
         Forall (λ t, Forall (λ n, ∃ v, n = Int v) (area_y t)) fig)
      ∧ (∀ t y, t ∈ fig → y ∈ area_x t → ¬ has_aggregate csv y (area_name t) →
                Forall (λ t', Forall (λ n, ∃ x, n = Float x) (area_y t')) fig).
Proof.
  intros csv s data.
  assert (counts_ok csv) as Hok by rows_counts_ok.
  assert (∃ r, r ∈ csv ∧ AgeEnd r ∈ mapping_keys) as Hsome.
  { exists (record 1981 4 "Hombre" 3). split.
    - apply (list_elem_of_lookup_2 _ 0%nat). reflexivity.
    - apply (list_elem_of_lookup_2 _ 0%nat). reflexivity. }
  split; [reflexivity|]. split; [exact Hok|]. split; [exact Hsome|].
  exact (trend_points csv s data eq_refl Hok Hsome).
Defined.

Lemma figures_depend_on_their_years_witness :
  let csv := [record 1981 4 "Hombre" 3; record 1993 9 "Mujer" 1;
              record 2017 4 "Hombre" 4] in
  let csv' := [record 1981 4 "Hombre" 3; record 2017 4 "Hombre" 4;
               record 2007 14 "Mujer" 8] in
  let s := [Records (load_data csv)] in
  let s' := [Records (load_data csv')] in
  let data := 0%nat in
  let data' := 0%nat in
  let year1 := 1981 in
  let year2 := 2017 in
  s !! data = Some (Records (load_data csv))
  ∧ s' !! data' = Some (Records (load_data csv'))
  ∧ year1 ≠ year2
  ∧ filter (λ r, Time r = year1) csv = filter (λ r, Time r = year1) csv'
  ∧ filter (λ r, Time r = year2) csv = filter (λ r, Time r = year2) csv'
  ∧ ∃ p1 p2 c,
      (fst <$> generate_population_pyramid data year1 s = Some p1
       ∧ fst <$> generate_population_pyramid data' year1 s' = Some p1)
      ∧ (fst <$> generate_population_pyramid data year2 s = Some p2
         ∧ fst <$> generate_population_pyramid data' year2 s' = Some p2)
      ∧ (fst <$> generate_comparison_chart data data year1 year2 s = Some c
         ∧ fst <$> generate_comparison_chart data' data' year1 year2 s'
           = Some c).
Proof.
  intros csv csv' s s' data data' year1 year2.
  assert (year1 ≠ year2) as Hne by discriminate.
  assert (filter (λ r, Time r = year1) csv = filter (λ r, Time r = year1) csv')
    as H1 by reflexivity.
  assert (filter (λ r, Time r = year2) csv = filter (λ r, Time r = year2) csv')
    as H2 by reflexivity.
  split; [reflexivity|]. split; [reflexivity|]. split; [exact Hne|].
  split; [exact H1|]. split; [exact H2|].
  exact (figures_depend_on_their_years csv csv' s s' data data' year1 year2
           eq_refl eq_refl Hne H1 H2).
Defined.

Lemma pyramid_labels_witness :
  let csv := small_census in
  let s := [Records (load_data csv)] in
  let data := 0%nat in
  let year := 2017 in
  s !! data = Some (Records (load_data csv))
  ∧ counts_ok csv
  ∧ ∃ fig s',
      generate_population_pyramid data year s = Some (fig, s')
      ∧ Float64.to_Z <$> bar_text (hombres fig)
        = Some <$> (Z.abs <$> bar_x (hombres fig))
      ∧ Float64.to_Z <$> bar_text (mujeres fig)
        = Some <$> (Z.abs <$> bar_x (mujeres fig))
      ∧ length (bar_y (hombres fig)) = length (bar_x (hombres fig))
      ∧ length (bar_y (mujeres fig)) = length (bar_x (mujeres fig))
      ∧ NoDup (bar_y (hombres fig))
      ∧ NoDup (bar_y (mujeres fig)).
Proof.
  intros csv s data year.
  assert (counts_ok csv) as Hok by rows_counts_ok.
  split; [reflexivity|]. split; [exact Hok|].
  exact (pyramid_labels csv s data year eq_refl Hok).
Defined.

Lemma age_group_order_follows_age_witness :
  let csv := small_census in
  let r1 := {| rec := record 2017 4 "Hombre" 4; AgeGroup := Some "0-4" |} in
  let r2 := {| rec := record 2017 9 "Mujer" 6; AgeGroup := Some "5-9" |} in
  let g1 := "0-4" in
  let g2 := "5-9" in
  r1 ∈ rows (load_data csv)
  ∧ r2 ∈ rows (load_data csv)
  ∧ AgeGroup r1 = Some g1
  ∧ AgeGroup r2 = Some g2
  ∧ ∃ i1 i2,
      position (categories (load_data csv)) g1 = Some i1
      ∧ position (categories (load_data csv)) g2 = Some i2
      ∧ (AgeEnd (rec r1) < AgeEnd (rec r2) ↔ (i1 < i2)%nat)
      ∧ (AgeEnd (rec r1) = AgeEnd (rec r2) ↔ g1 = g2).
Proof.
  intros csv r1 r2 g1 g2.
  assert (r1 ∈ rows (load_data csv)) as H1
    by (apply (list_elem_of_lookup_2 _ 2%nat); vm_compute; reflexivity).
  assert (r2 ∈ rows (load_data csv)) as H2
    by (apply (list_elem_of_lookup_2 _ 3%nat); vm_compute; reflexivity).
  split; [exact H1|]. split; [exact H2|]. split; [reflexivity|].
  split; [reflexivity|].
  exact (age_group_order_follows_age csv r1 r2 g1 g2 H1 H2 eq_refl eq_refl).
Defined.

Lemma comparison_change_sign_witness :
  let csv := two_censuses 5 3 in
  let s := [Records (load_data csv)] in
  let df := 0%nat in
  let data := 0%nat in
  let dg := load_data csv in
  let year1 := 1981 in
  let year2 := 2017 in
  s !! data = Some (Records (load_data csv))
  ∧ s !! df = Some (Records dg)
  ∧ counts_ok csv
  ∧ year1 ≠ year2
  ∧ (∀ g, has_aggregate csv year1 g → V csv year1 g ≠ 0)
  ∧ ∃ fig s',
      generate_comparison_chart df data year1 year2 s = Some (fig, s')
      ∧ ∀ g c, (g, c) ∈ zip (cmp_x fig) (cmp_y fig) →
               sign c = Some (V csv year2 g <? V csv year1 g)%Z.
Proof.
  intros csv s df data dg year1 year2.
  assert (counts_ok csv) as Hok by rows_counts_ok.
  assert (year1 ≠ year2) as Hne by discriminate.
  assert (∀ g, has_aggregate csv year1 g → V csv year1 g ≠ 0) as Hnz.
  { apply (forall_age_groups (λ g, has_aggregate csv year1 g → V csv year1 g ≠ 0)).
    - forall_rows ltac:(intros _; vm_compute; discriminate).
    - intros g Hg Hagg. by apply has_aggregate_elem in Hagg. }
  split; [reflexivity|]. split; [reflexivity|]. split; [exact Hok|].
  split; [exact Hne|]. split; [exact Hnz|].
  exact (comparison_change_sign csv s df data dg year1 year2
           eq_refl eq_refl Hok Hne Hnz).
Defined.

Lemma render_page_witness :
  let d := load_data small_census in
  let s := [Records d] in
  let df := 0%nat in
  let year := 2017 in
  let year1 := 1981 in
  let year2 := 2017 in
  s !! df = Some (Records d)
  ∧ (∃ r g, r ∈ rows d ∧ g ∈ categories d ∧ AgeGroup r = Some g)
  ∧ ∃ pg s',
      render df year year1 year2 s = Some (pg, s')
      ∧ s' !! df = Some (Records d)
      ∧ preserves s s'
      ∧ fst <$> main_metrics df year s = Some (cards pg)
      ∧ fst <$> generate_population_pyramid df year s = Some (tab1 pg)
      ∧ fst <$> generate_population_trend df s = Some (tab2 pg)
      ∧ fst <$> comparison_tab df year1 year2 s = Some (tab3 pg)
      ∧ fst <$> detail_table df year s = Some (details pg).
Proof.
  intros d s df year year1 year2.
  assert (∃ r g, r ∈ rows d ∧ g ∈ categories d ∧ AgeGroup r = Some g) as Hsome.
  { exists (loaded (record 1981 4 "Hombre" 3)), "0-4". split; [|split].
    - apply (list_elem_of_lookup_2 _ 0%nat). vm_compute. reflexivity.
    - apply (list_elem_of_lookup_2 _ 0%nat). reflexivity.
    - vm_compute. reflexivity. }
  split; [reflexivity|]. split; [exact Hsome|].
  exact (render_page s df d year year1 year2 eq_refl Hsome).
Defined.

Lemma script_first_page_witness :
  let csv := small_census in
  (∃ r, r ∈ csv ∧ AgeEnd r ∈ mapping_keys)
  ∧ ∃ pg lo hi,
      script csv = Some pg
      ∧ (∃ r, r ∈ csv ∧ Time r = lo)
      ∧ (∃ r, r ∈ csv ∧ Time r = hi)
      ∧ (∀ r, r ∈ csv → lo <= Time r <= hi)
      ∧ fst <$> main_metrics 0%nat hi [Records (load_data csv)]
        = Some (cards pg)
      ∧ fst <$> generate_population_pyramid 0%nat hi [Records (load_data csv)]
        = Some (tab1 pg)
      ∧ fst <$> comparison_tab 0%nat lo hi [Records (load_data csv)]
        = Some (tab3 pg)
      ∧ ((∃ message, tab3 pg = Warning message)
         ↔ ∀ r r', r ∈ csv → r' ∈ csv → Time r = Time r').
Proof.
  intros csv.
  assert (∃ r, r ∈ csv ∧ AgeEnd r ∈ mapping_keys) as Hsome.
  { exists (record 1981 4 "Hombre" 3). split.
    - apply (list_elem_of_lookup_2 _ 0%nat). reflexivity.
    - apply (list_elem_of_lookup_2 _ 0%nat). reflexivity. }
  split; [exact Hsome|]. exact (script_first_page csv Hsome).
Defined.
